(** * tag_genre_by_folder: a shallow embedding and its properties

    This development embeds [tag_genre_by_folder.py] in Rocq and proves
    properties of its genre normalisation, its single-file tag update and
    its batch scheduler.

    Layout: Part I holds the embedding (Python text, the outside world of
    files and tag containers, then the functions of the script in source
    order); Part II holds the lemmas and theorems. *)

From Stdlib Require Import ZArith NArith List String Ascii Bool Lia.
From stdpp Require Import gmap strings list.

Set Default Proof Using "Type".
Local Open Scope N_scope.

(* ===================================================================== *)
(** * Part I. The embedding                                               *)
(* ===================================================================== *)

(** ** Python text

    A Python [str] is a sequence of Unicode code points: [str] is a list of
    code points held in [N].  The case tables below are an excerpt of the
    tables [str.upper], [str.lower] and [str.capitalize] consult: all of
    ASCII, and three code points outside ASCII whose mappings land on ASCII
    letters (U+00DF, U+017F, U+212A).  Code points outside the excerpt are
    left as they are; every general statement of Part II about case mapping
    is made for ASCII text, and every evaluation uses code points of the
    excerpt only. *)

Module PyStr.

Definition char := N.
Definition str := list char.

(** A literal: the code points of a Rocq string (one per byte). *)
Definition lit (s : string) : str :=
  List.map N_of_ascii (list_ascii_of_string s).

Definition is_ascii (c : char) : bool := c <? 128.

(** [str.isspace] on one code point: the code points Python's [split()] and
    [strip()] treat as whitespace. *)
Definition is_space (c : char) : bool :=
  ((9 <=? c) && (c <=? 13)) || ((28 <=? c) && (c <=? 32))
  || (c =? 0x85) || (c =? 0xA0) || (c =? 0x1680)
  || ((0x2000 <=? c) && (c <=? 0x200A))
  || (c =? 0x2028) || (c =? 0x2029) || (c =? 0x202F)
  || (c =? 0x205F) || (c =? 0x3000).

Definition is_lower_az (c : char) : bool := (97 <=? c) && (c <=? 122).
Definition is_upper_az (c : char) : bool := (65 <=? c) && (c <=? 90).

(** Full upper-case mapping of one code point (it may expand). *)
Definition upper_char (c : char) : str :=
  if is_lower_az c then [c - 32]
  else if c =? 0xDF then [83; 83]        (* sharp s: SS *)
  else if c =? 0x17F then [83]           (* long s: S *)
  else [c].                              (* U+212A KELVIN SIGN is upper case *)

(** Full lower-case mapping of one code point. *)
Definition lower_char (c : char) : str :=
  if is_upper_az c then [c + 32]
  else if c =? 0x212A then [107]         (* KELVIN SIGN: k *)
  else [c].

(** Full title-case mapping of one code point. *)
Definition title_char (c : char) : str :=
  if is_lower_az c then [c - 32]
  else if c =? 0xDF then [83; 115]       (* sharp s: Ss *)
  else if c =? 0x17F then [83]
  else [c].

(** [s.upper()], [s.lower()] *)
Definition upper (s : str) : str := flat_map upper_char s.
Definition lower (s : str) : str := flat_map lower_char s.

(** [s.capitalize()]: first code point title-cased, the rest lower-cased. *)
Definition capitalize (s : str) : str :=
  match s with
  | [] => []
  | c :: r => title_char c ++ lower r
  end.

(** [s.lstrip()], [s.rstrip()], [s.strip()] with no argument. *)
Fixpoint lstrip (s : str) : str :=
  match s with
  | [] => []
  | c :: r => if is_space c then lstrip r else s
  end.

Fixpoint rstrip (s : str) : str :=
  match s with
  | [] => []
  | c :: r =>
      match rstrip r with
      | [] => if is_space c then [] else [c]
      | r' => c :: r'
      end
  end.

Definition strip (s : str) : str := rstrip (lstrip s).

(** [s.split()] with no argument: the maximal runs of non-whitespace.
    [split_go s] is the run [s] starts with, and the runs after it. *)
Definition push_word (w : str) (ws : list str) : list str :=
  match w with [] => ws | _ => w :: ws end.

Fixpoint split_go (s : str) : str * list str :=
  match s with
  | [] => ([], [])
  | c :: r =>
      let '(w, ws) := split_go r in
      if is_space c then ([], push_word w ws) else (c :: w, ws)
  end.

Definition split (s : str) : list str :=
  let '(w, ws) := split_go s in push_word w ws.

(** [sep.join(ws)] *)
Fixpoint join (sep : str) (ws : list str) : str :=
  match ws with
  | [] => []
  | [w] => w
  | w :: ws' => w ++ sep ++ join sep ws'
  end.

(** [a == b] on strings. *)
Fixpoint str_eqb (a b : str) : bool :=
  match a, b with
  | [], [] => true
  | x :: a', y :: b' => (x =? y) && str_eqb a' b'
  | _, _ => false
  end.

(** [x in xs] for a set or list of strings. *)
Definition str_in (x : str) (xs : list str) : bool := existsb (str_eqb x) xs.

(** [a.startswith(b)] and [b in a] (substring). *)
Fixpoint starts_with (a b : str) : bool :=
  match b, a with
  | [], _ => true
  | y :: b', x :: a' => (x =? y) && starts_with a' b'
  | _ :: _, [] => false
  end.

Fixpoint contains (a b : str) : bool :=
  starts_with a b ||
  match a with
  | [] => false
  | _ :: a' => contains a' b
  end.

End PyStr.

Import PyStr.

(** ** Genre normalisation (source lines 153-169) *)

Definition words_to_preserve : list str :=
  List.map lit
    ["DJ"; "MC"; "UK"; "US"; "R&B"; "A&R"; "EDM"; "IDM"; "DnB"; "D&B";
     "J-Pop"; "K-Pop"; "EMD"]%string.

(** The body of the [for word in genre.split()] loop. *)
Definition normalize_word (word : str) : str :=
  if str_in (upper word) words_to_preserve then upper word
  else capitalize word.

Definition normalize_genre (genre : str) : str :=
  let genre := strip genre in
  join (lit " ") (List.map normalize_word (split genre)).

(** ** Paths

    A [pathlib.Path] is held as the list of its components below the root
    (the script only builds absolute paths by walking the library roots). *)

Definition Path := list str.

(** [str(path)] *)
Definition path_str (p : Path) : str :=
  match p with
  | [] => lit "/"
  | _ => flat_map (fun part => lit "/" ++ part) p
  end.

(** [s.rfind(c)]: index of the last occurrence; [None] stands for -1. *)
Fixpoint rfind (c : char) (s : str) : option nat :=
  match s with
  | [] => None
  | x :: r =>
      match rfind c r with
      | Some i => Some (S i)
      | None => if x =? c then Some 0%nat else None
      end
  end.

(** [path.name] and [path.suffix]: the suffix starts at the last dot of the
    final component, unless that dot is its first or its last character. *)
Definition path_name (p : Path) : str := List.last p [].

Definition path_suffix (p : Path) : str :=
  let name := path_name p in
  match rfind 46 name with
  | Some i =>
      if (0 <? i)%nat && (i <? length name - 1)%nat then drop i name else []
  | None => []
  end.

(** [path.relative_to(base).parts]; [None] stands for the [ValueError]
    raised when [path] is not below [base]. *)
Fixpoint relative_to (p base : Path) : option Path :=
  match base, p with
  | [], _ => Some p
  | b :: base', x :: p' => if str_eqb b x then relative_to p' base' else None
  | _ :: _, [] => None
  end.

(** ** The outside world: files, tag containers and the log

    What mutagen and the operating system do is not part of the script.  It
    is fixed here as a small state machine over a file table, so that every
    call the script makes has a definite outcome: a value, or a raised
    exception. *)

Inductive exn :=
| PermissionError
| RecursionError
| OtherError (what : string).

Definition is_PermissionError (e : exn) : bool :=
  match e with PermissionError => true | _ => false end.

(** Tag values as Python hands them to a container: a string or a list. *)
Inductive pyval :=
| PStr (s : str)
| PList (l : list str).

(** A tag block: keys with their value lists, in file order. *)
Definition tagmap := list (str * list str).

Fixpoint tag_lookup (k : str) (t : tagmap) : option (list str) :=
  match t with
  | [] => None
  | (k', v) :: t' => if str_eqb k k' then Some v else tag_lookup k t'
  end.

Fixpoint tag_store (k : str) (v : list str) (t : tagmap) : tagmap :=
  match t with
  | [] => [(k, v)]
  | (k', v') :: t' =>
      if str_eqb k k' then (k, v) :: t' else (k', v') :: tag_store k v t'
  end.

Inductive container :=
| Garbage                  (* not a readable audio container *)
| Untagged                 (* audio without a tag block *)
| Tagged (tags : tagmap).  (* audio with a tag block *)

(** What [os.chmod] does on a file: the mode takes effect, the call
    returns without effect (a file system without Unix permissions), or
    the call is refused (the process does not own the file). *)
Inductive chmod_effect := ChmodApplies | ChmodIgnored | ChmodRefused.

(** How [shutil.copy2] of a file into its own directory fails when the
    directory does not admit the copy: the destination cannot be created;
    it is created and the writing breaks off (the disk is full); or the
    content is written and setting the times and the mode is refused. *)
Inductive copy_failure := CopyRefused | CopyBreaksOff | CopyStatRefused.

Record file := mkFile {
  f_readable : bool;       (* the process may open the file for reading *)
  f_writable : bool;       (* the process may open the file for writing *)
  f_mode : N;              (* permission bits *)
  f_chmod : chmod_effect;
  f_io_error : bool;       (* writing the file fails with an I/O error *)
  f_dir_writable : bool;   (* its directory admits a complete copy of it *)
  f_copy_failure : copy_failure;  (* what happens where it does not *)
  f_mtime : N;             (* time of last modification *)
  f_body : container
}.

Inductive log_event :=
| WarnFormatUnsupported (ext : str) (p : Path)
| WarnUnsupported (p : Path)
| InfoWouldUpdate (p : Path) (current : option str) (genre : str)
| InfoWouldFixPermissions (p : Path)
| ErrorPermission (p : Path) (e : exn)
| ErrorUpdating (p : Path) (e : exn)
| DebugTraceback
| ErrorBackup (p : Path) (e : exn)
| ErrorGenreFromPath (p : Path) (e : exn)
| InfoProcessing (total : nat) (batch_size : Z)
| InfoResult (fpath result : str)
| DebugResult (fpath result : str)
| WarnResult (fpath result : str).

(** What the script does, as seen from outside: system calls that change
    permissions, and the life of the worker pools. *)
Inductive event :=
| Chmod (p : str) (mode : N)
| PoolOpen (workers : Z)
| Processed (p : Path)
| PoolClose
| Progress.

Record world := mkWorld {
  w_fs : gmap str file;          (* the files, by path string *)
  w_clock : N;                   (* the time *)
  w_log : list log_event;        (* what [logging] received, oldest first *)
  w_trace : list event           (* events, oldest first *)
}.

Definition set_fs (fs : gmap str file) (w : world) : world :=
  mkWorld fs (w_clock w) (w_log w) (w_trace w).

(** ** Computations that read and write the world and may raise *)

Inductive result (A : Type) :=
| Ok (a : A)
| Raise (e : exn).
Arguments Ok {A} a.
Arguments Raise {A} e.

Definition M (A : Type) : Type := world -> result A * world.

Definition ret {A} (a : A) : M A := fun w => (Ok a, w).
Definition raise {A} (e : exn) : M A := fun w => (Raise e, w).

Definition bind {A B} (m : M A) (k : A -> M B) : M B :=
  fun w =>
    match m w with
    | (Ok a, w') => k a w'
    | (Raise e, w') => (Raise e, w')
    end.

(** [try: m except <any Exception> as e: h e] *)
Definition try_except {A} (m : M A) (h : exn -> M A) : M A :=
  fun w =>
    match m w with
    | (Raise e, w') => h e w'
    | r => r
    end.

Declare Scope py_scope.
Delimit Scope py_scope with py.
Notation "x <- m ;; k" := (bind m (fun x => k))
  (at level 100, m at next level, right associativity) : py_scope.
Notation "m ;; k" := (bind m (fun _ => k))
  (at level 100, right associativity) : py_scope.
Local Open Scope py_scope.

Definition logging (e : log_event) : M unit :=
  fun w => (Ok tt, mkWorld (w_fs w) (w_clock w) (w_log w ++ [e]) (w_trace w)).

Definition emit (e : event) : M unit :=
  fun w => (Ok tt, mkWorld (w_fs w) (w_clock w) (w_log w) (w_trace w ++ [e])).

(** ** mutagen and the operating system, as the script calls them *)

Inductive AudioClass :=
| FLAC | EasyID3 | MP3 | MP4 | OggVorbis | OggOpus | OggFLAC | Musepack
| MonkeysAudio | WavPack | TrueAudio | ASF | AIFF | WAVE | OptimFROG | TAK
| DSF | DSDIFF.

(** An opened container: a Python object holding the tags in memory. *)
Record audio := mkAudio {
  a_class : AudioClass;
  a_filename : str;
  a_tags : option tagmap     (* [None]: the file has no tag block *)
}.

(** [hasattr(audio, "get")]: every container class is dictionary-like. *)
Definition has_get (a : audio) : bool := true.

(** [hasattr(audio, "tags")]: file types carry a [tags] attribute, the
    [EasyID3] wrapper does not. *)
Definition has_tags (a : audio) : bool :=
  match a_class a with EasyID3 => false | _ => true end.

(** Truth value of [audio.tags]: a tag block with at least one key. *)
Definition tags_truthy (a : audio) : bool :=
  match a_tags a with Some (_ :: _) => true | _ => false end.

(** [AudioClass(filename)].  mutagen opens the file itself and hands on
    every error of the operating system, a refused permission included, as
    its own [MutagenError]. *)
Definition open_audio (cls : AudioClass) (filename : str) : M audio :=
  fun w =>
    match w_fs w !! filename with
    | None => (Raise (OtherError "MutagenError"), w)
    | Some f =>
        if negb (f_readable f) then (Raise (OtherError "MutagenError"), w)
        else
          match f_body f with
          | Garbage => (Raise (OtherError "HeaderNotFoundError"), w)
          | Untagged =>
              match cls with
              | EasyID3 => (Raise (OtherError "ID3NoHeaderError"), w)
              | _ => (Ok (mkAudio cls filename None), w)
              end
          | Tagged t => (Ok (mkAudio cls filename (Some t)), w)
          end
    end.

(** ** ID3 genres, as [EasyID3] presents them

    An ID3 genre frame holds text.  [EasyID3] hands out what [TCON.genres]
    makes of the text: a number below 256 stands for the genre of that
    number in the ID3v1 list, [CR] and [RX] stand for Cover and Remix, and
    a text may start with such references in parentheses.  [str.isdigit]
    and [int] are rendered for the ASCII digits. *)

(** [mutagen._constants.GENRES]: the ID3v1 genres and their extensions. *)
Definition GENRES : list str :=
  List.map lit
    [ "Blues"; "Classic Rock"; "Country"; "Dance"; "Disco"; "Funk"; "Grunge";
      "Hip-Hop"; "Jazz"; "Metal"; "New Age"; "Oldies"; "Other"; "Pop"; "R&B";
      "Rap"; "Reggae"; "Rock"; "Techno"; "Industrial"; "Alternative"; "Ska";
      "Death Metal"; "Pranks"; "Soundtrack"; "Euro-Techno"; "Ambient";
      "Trip-Hop"; "Vocal"; "Jazz+Funk"; "Fusion"; "Trance"; "Classical";
      "Instrumental"; "Acid"; "House"; "Game"; "Sound Clip"; "Gospel";
      "Noise"; "Alt. Rock"; "Bass"; "Soul"; "Punk"; "Space"; "Meditative";
      "Instrumental Pop"; "Instrumental Rock"; "Ethnic"; "Gothic";
      "Darkwave"; "Techno-Industrial"; "Electronic"; "Pop-Folk"; "Eurodance";
      "Dream"; "Southern Rock"; "Comedy"; "Cult"; "Gangsta Rap"; "Top 40";
      "Christian Rap"; "Pop/Funk"; "Jungle"; "Native American"; "Cabaret";
      "New Wave"; "Psychedelic"; "Rave"; "Showtunes"; "Trailer"; "Lo-Fi";
      "Tribal"; "Acid Punk"; "Acid Jazz"; "Polka"; "Retro"; "Musical";
      "Rock & Roll"; "Hard Rock"; "Folk"; "Folk-Rock"; "National Folk";
      "Swing"; "Fast-Fusion"; "Bebop"; "Latin"; "Revival"; "Celtic";
      "Bluegrass"; "Avantgarde"; "Gothic Rock"; "Progressive Rock";
      "Psychedelic Rock"; "Symphonic Rock"; "Slow Rock"; "Big Band";
      "Chorus"; "Easy Listening"; "Acoustic"; "Humour"; "Speech"; "Chanson";
      "Opera"; "Chamber Music"; "Sonata"; "Symphony"; "Booty Bass"; "Primus";
      "Porn Groove"; "Satire"; "Slow Jam"; "Club"; "Tango"; "Samba";
      "Folklore"; "Ballad"; "Power Ballad"; "Rhythmic Soul"; "Freestyle";
      "Duet"; "Punk Rock"; "Drum Solo"; "A Cappella"; "Euro-House";
      "Dance Hall"; "Goa"; "Drum & Bass"; "Club-House"; "Hardcore"; "Terror";
      "Indie"; "BritPop"; "Afro-Punk"; "Polsk Punk"; "Beat";
      "Christian Gangsta Rap"; "Heavy Metal"; "Black Metal"; "Crossover";
      "Contemporary Christian"; "Christian Rock"; "Merengue"; "Salsa";
      "Thrash Metal"; "Anime"; "JPop"; "Synthpop"; "Abstract"; "Art Rock";
      "Baroque"; "Bhangra"; "Big Beat"; "Breakbeat"; "Chillout"; "Downtempo";
      "Dub"; "EBM"; "Eclectic"; "Electro"; "Electroclash"; "Emo";
      "Experimental"; "Garage"; "Global"; "IDM"; "Illbient"; "Industro-Goth";
      "Jam Band"; "Krautrock"; "Leftfield"; "Lounge"; "Math Rock";
      "New Romantic"; "Nu-Breakz"; "Post-Punk"; "Post-Rock"; "Psytrance";
      "Shoegaze"; "Space Rock"; "Trop Rock"; "World Music"; "Neoclassical";
      "Audiobook"; "Audio Theatre"; "Neue Deutsche Welle"; "Podcast";
      "Indie Rock"; "G-Funk"; "Dubstep"; "Garage Rock"; "Psybient" ]%string.

Definition is_digit (c : char) : bool := (48 <=? c) && (c <=? 57).

(** [s.isdigit()] *)
Definition isdigit (s : str) : bool :=
  match s with
  | [] => false
  | _ => forallb is_digit s
  end.

(** [int(s)] for a string of digits *)
Definition int_of_digits (s : str) : N :=
  fold_left (fun n c => 10 * n + (c - 48)) s 0.

(** [GENRES[n]], with [Unknown] for a number past the end of the list. *)
Definition genre_name (n : N) : str :=
  nth (N.to_nat n) GENRES (lit "Unknown").

(** The text before the first [c], and the text after it. *)
Fixpoint span_until (c : char) (s : str) : option (str * str) :=
  match s with
  | [] => None
  | x :: r =>
      if x =? c then Some ([], r)
      else
        match span_until c r with
        | Some (a, b) => Some (x :: a, b)
        | None => None
        end
  end.

(** What may stand in parentheses: [[0-9]+|RX|CR] *)
Definition is_ref_id (gid : str) : bool :=
  isdigit gid || str_eqb gid (lit "RX") || str_eqb gid (lit "CR").

(** The references in parentheses a text starts with, as many as there
    are, and what follows them: the two parts into which the pattern of
    [TCON.genres] cuts a text. *)
Fixpoint take_refs (fuel : nat) (s : str) : list str * str :=
  match fuel with
  | O => ([], s)
  | S fuel' =>
      match s with
      | 40 :: r =>
          match span_until 41 r with
          | Some (gid, rest) =>
              if is_ref_id gid then
                let '(ids, tail) := take_refs fuel' rest in (gid :: ids, tail)
              else ([], s)
          | None => ([], s)
          end
      | _ => ([], s)
      end
  end.

(** The text up to the first line break: what [.+] matches. *)
Fixpoint until_newline (s : str) : str :=
  match s with
  | [] => []
  | x :: r => if x =? 10 then [] else x :: until_newline r
  end.

Definition ref_name (gid : str) : str :=
  if isdigit gid && (int_of_digits gid <? N.of_nat (length GENRES))
  then genre_name (int_of_digits gid)
  else if str_eqb gid (lit "CR") then lit "Cover"
  else if str_eqb gid (lit "RX") then lit "Remix"
  else lit "Unknown".

(** The genres one text value of the frame stands for. *)
Definition tcon_genre (value : str) : list str :=
  if isdigit value && (int_of_digits value <? 256)
  then [genre_name (int_of_digits value)]
  else if str_eqb value (lit "CR") then [lit "Cover"]
  else if str_eqb value (lit "RX") then [lit "Remix"]
  else
    match value with
    | [] => []
    | _ =>
        let '(ids, tail) := take_refs (length value) value in
        let newgenres := List.map ref_name ids in
        match until_newline tail with
        | [] => newgenres
        | genrename =>
            let genrename :=
              if starts_with genrename (lit "((") then drop 1 genrename
              else genrename in
            if str_in genrename newgenres then newgenres
            else newgenres ++ [genrename]
        end
    end.

(** [TCON.genres] *)
Definition tcon_genres (text : list str) : list str :=
  flat_map tcon_genre text.

(** ** Reading and writing tags *)

(** What a container of class [cls] presents for the text stored under
    [key]: [EasyID3] presents the genre frame through [TCON.genres], the
    other containers present the stored values. *)
Definition presented (cls : AudioClass) (key : str) (text : list str)
  : list str :=
  match cls with
  | EasyID3 => if str_eqb key (lit "genre") then tcon_genres text else text
  | _ => text
  end.

(** [audio.get(key, [None])]: the values the container presents under
    [key], or the default. *)
Definition audio_get (a : audio) (key : str) : list (option str) :=
  match a_tags a with
  | None => [None]
  | Some t =>
      match tag_lookup key t with
      | None => [None]
      | Some text => List.map Some (presented (a_class a) key text)
      end
  end.

(** [audio.tags.get(key, [None])]: the stored values. *)
Definition tags_get (a : audio) (key : str) : list (option str) :=
  match a_tags a with
  | None => [None]
  | Some t =>
      match tag_lookup key t with
      | None => [None]
      | Some text => List.map Some text
      end
  end.

(** [values[0]] *)
Definition get_first (values : list (option str)) : M (option str) :=
  match values with
  | [] => raise (OtherError "IndexError")
  | v :: _ => ret v
  end.

(** The containers whose [tags] are an ID3 tag: such a tag takes frames
    only, and refuses a string or a list with [TypeError]. *)
Definition id3_backed (cls : AudioClass) : bool :=
  match cls with
  | MP3 | TrueAudio | AIFF | WAVE | DSF | DSDIFF => true
  | _ => false
  end.

(** The list a container keeps when it is assigned [v]: a string is kept as
    a one-element list. *)
Definition stored (v : pyval) : list str :=
  match v with PStr s => [s] | PList l => l end.

(** [audio.tags[key] = v] *)
Definition tags_setitem (a : audio) (key : str) (v : pyval) : M audio :=
  match a_tags a with
  | None => raise (OtherError "TypeError")
  | Some t =>
      if id3_backed (a_class a) then raise (OtherError "TypeError")
      else
        ret (mkAudio (a_class a) (a_filename a)
               (Some (tag_store key (stored v) t)))
  end.

(** [audio[key] = v] *)
Definition setitem (a : audio) (key : str) (v : pyval) : M audio :=
  ret (mkAudio (a_class a) (a_filename a)
         (Some (tag_store key (stored v) (default [] (a_tags a))))).

(** [audio.add_tags()] *)
Definition add_tags (a : audio) : M audio :=
  match a_tags a with
  | None => ret (mkAudio (a_class a) (a_filename a) (Some []))
  | Some _ => raise (OtherError "mutagen.id3.error")
  end.

(** [audio.save()]: writes the tag block held in memory into the file.
    As in opening, an error of the operating system arrives as a
    [MutagenError]. *)
Definition save (a : audio) : M unit :=
  match a_tags a with
  | None => ret tt
  | Some t =>
      fun w =>
        match w_fs w !! a_filename a with
        | None => (Raise (OtherError "MutagenError"), w)
        | Some f =>
            if negb (f_writable f) then (Raise (OtherError "MutagenError"), w)
            else if f_io_error f then (Raise (OtherError "MutagenError"), w)
            else
              let f' := mkFile (f_readable f) (f_writable f) (f_mode f)
                          (f_chmod f) (f_io_error f) (f_dir_writable f)
                          (f_copy_failure f) (w_clock w) (Tagged t) in
              (Ok tt, mkWorld (<[a_filename a := f']> (w_fs w))
                        (w_clock w + 1) (w_log w) (w_trace w))
        end
  end.

(** [os.chmod(path, mode)]; the owner's read and write bits are bits 8
    and 7 of the mode. *)
Definition os_chmod (p : str) (mode : N) : M unit :=
  emit (Chmod p mode) ;;
  fun w =>
    match w_fs w !! p with
    | None => (Raise (OtherError "FileNotFoundError"), w)
    | Some f =>
        match f_chmod f with
        | ChmodRefused => (Raise PermissionError, w)
        | ChmodIgnored => (Ok tt, w)
        | ChmodApplies =>
            let f' := mkFile (N.testbit mode 8) (N.testbit mode 7) mode
                        (f_chmod f) (f_io_error f) (f_dir_writable f)
                        (f_copy_failure f) (f_mtime f) (f_body f) in
            (Ok tt, set_fs (<[p := f']> (w_fs w)) w)
        end
    end.

(** [os.path.exists(path)] *)
Definition os_path_exists (p : str) : M bool :=
  fun w => (Ok (match w_fs w !! p with Some _ => true | None => false end), w).

(** The exception a failing copy raises. *)
Definition copy_failure_exn (c : copy_failure) : exn :=
  match c with
  | CopyRefused | CopyStatRefused => PermissionError
  | CopyBreaksOff => OtherError "OSError"
  end.

(** What a failing copy of [f] leaves at its destination at time [now]:
    nothing; a new file that holds a part of the content; or a new file that
    holds the content, with the time and mode of its creation. *)
Definition copy_remains (f : file) (now : N) : option file :=
  match f_copy_failure f with
  | CopyRefused => None
  | CopyBreaksOff =>
      Some (mkFile true true 420 (f_chmod f) (f_io_error f)
              (f_dir_writable f) (f_copy_failure f) now Garbage)
  | CopyStatRefused =>
      Some (mkFile true true 420 (f_chmod f) (f_io_error f)
              (f_dir_writable f) (f_copy_failure f) now (f_body f))
  end.

(** [shutil.copy2(src, dst)]: [copyfile] writes the content, then
    [copystat] sets the times and the mode.  A copy that fails on the way
    is not cleaned up. *)
Definition shutil_copy2 (src dst : str) : M unit :=
  fun w =>
    match w_fs w !! src with
    | None => (Raise (OtherError "FileNotFoundError"), w)
    | Some f =>
        if negb (f_readable f) then (Raise PermissionError, w)
        else
          match w_fs w !! dst with
          | Some d =>
              if negb (f_writable d) then (Raise PermissionError, w)
              else if f_io_error d then (Raise (OtherError "OSError"), w)
              else
                let d' := mkFile (f_readable d) (f_writable d) (f_mode f)
                            (f_chmod d) (f_io_error d) (f_dir_writable d)
                            (f_copy_failure d) (f_mtime f) (f_body f) in
                (Ok tt, set_fs (<[dst := d']> (w_fs w)) w)
          | None =>
              if f_dir_writable f
              then (Ok tt, set_fs (<[dst := f]> (w_fs w)) w)
              else
                (Raise (copy_failure_exn (f_copy_failure f)),
                 match copy_remains f (w_clock w) with
                 | Some d => set_fs (<[dst := d]> (w_fs w)) w
                 | None => w
                 end)
          end
    end.

(** ** The format table (source lines 84-110) *)

Definition getter_t := audio -> option str -> option str.
Definition setter_t := audio -> str -> pyval.

Definition get_same : getter_t := fun a g => g.          (* lambda a, g: g *)
Definition set_list : setter_t := fun a g => PList [g].  (* lambda a, g: [g] *)
Definition set_same : setter_t := fun a g => PStr g.     (* lambda a, g: g *)

Definition handler : Type := AudioClass * str * getter_t * setter_t.

Definition mp4_genre_key : str := 169 :: lit "gen".       (* "\xa9gen" *)

Definition FORMAT_HANDLERS : list (str * handler) :=
  [ (lit ".flac", (FLAC, lit "genre", get_same, set_list));
    (lit ".mp3", (EasyID3, lit "genre", get_same, set_same));
    (lit ".mp4", (MP4, mp4_genre_key, get_same, set_list));
    (lit ".m4a", (MP4, mp4_genre_key, get_same, set_list));
    (lit ".m4b", (MP4, mp4_genre_key, get_same, set_list));
    (lit ".aac", (MP4, mp4_genre_key, get_same, set_list));
    (lit ".ogg", (OggVorbis, lit "genre", get_same, set_list));
    (lit ".opus", (OggOpus, lit "genre", get_same, set_list));
    (lit ".oga", (OggFLAC, lit "genre", get_same, set_list));
    (lit ".mpc", (Musepack, lit "genre", get_same, set_list));
    (lit ".ape", (MonkeysAudio, lit "genre", get_same, set_list));
    (lit ".wv", (WavPack, lit "genre", get_same, set_list));
    (lit ".tta", (TrueAudio, lit "genre", get_same, set_list));
    (lit ".wma", (ASF, lit "WM/Genre", get_same, set_list));
    (lit ".aiff", (AIFF, lit "TCON", get_same, set_list));
    (lit ".aif", (AIFF, lit "TCON", get_same, set_list));
    (lit ".wav", (WAVE, lit "TCON", get_same, set_list));
    (lit ".ofr", (OptimFROG, lit "genre", get_same, set_list));
    (lit ".ofs", (OptimFROG, lit "genre", get_same, set_list));
    (lit ".tak", (TAK, lit "genre", get_same, set_list));
    (lit ".dsf", (DSF, lit "TCON", get_same, set_list));
    (lit ".dff", (DSDIFF, lit "TCON", get_same, set_list));
    (lit ".mp2", (EasyID3, lit "genre", get_same, set_same)) ].

(** [FORMAT_HANDLERS[ext]], with [None] for [ext not in FORMAT_HANDLERS]. *)
Fixpoint handler_lookup (ext : str) (table : list (str * handler))
  : option handler :=
  match table with
  | [] => None
  | (k, h) :: table' =>
      if str_eqb ext k then Some h else handler_lookup ext table'
  end.

(** ** get_genre_from_path (source lines 171-184)

    [base_folder] is taken as the path it denotes. *)

Definition get_genre_from_path (path base_folder : Path) : M (option str) :=
  try_except
    (match relative_to path base_folder with
     | None => raise (OtherError "ValueError")
     | Some parts =>
         match parts with
         | [] => ret None
         | genre :: _ => ret (Some (normalize_genre genre))
         end
     end)
    (fun e => logging (ErrorGenreFromPath path e) ;; ret None).

(** ** backup_file (source lines 186-195) *)

(** [backup_path = str(file_path) + ".bak"] *)
Definition backup_path (file_path : Path) : str :=
  path_str file_path ++ lit ".bak".

Definition backup_file (file_path : Path) : M bool :=
  try_except
    (present <- os_path_exists (backup_path file_path) ;;
     (if negb present
      then shutil_copy2 (path_str file_path) (backup_path file_path)
      else ret tt) ;;
     ret true)
    (fun e => logging (ErrorBackup file_path e) ;; ret false).

(** ** set_genre_tag (source lines 197-275) *)

(** A block that either leaves the function with a value or goes on. *)
Inductive flow (A : Type) :=
| Return (b : bool)
| Continue (a : A).
Arguments Return {A} b.
Arguments Continue {A} a.

(** Lines 215-227: open the container, adding a tag block to an MP3 file
    that cannot be opened. *)
Definition open_container (ext : str) (cls : AudioClass) (file_path : Path)
    (dry_run : bool) : M (flow audio) :=
  if str_eqb ext (lit ".mp3") then
    try_except
      (audio <- open_audio cls (path_str file_path) ;; ret (Continue audio))
      (fun _ =>
         if dry_run then ret (Return true)
         else
           audiofile <- open_audio MP3 (path_str file_path) ;;
           audiofile <- add_tags audiofile ;;
           save audiofile ;;
           audio <- open_audio cls (path_str file_path) ;;
           ret (Continue audio))
  else
    audio <- open_audio cls (path_str file_path) ;; ret (Continue audio).

(** Lines 229-236: the current genre. *)
Definition read_current (a : audio) (tag_key : str) (getter : getter_t)
  : M (option str) :=
  if has_get a then
    current_tag <- get_first (audio_get a tag_key) ;;
    ret (getter a current_tag)
  else if has_tags a && tags_truthy a then
    current_tag <- get_first (tags_get a tag_key) ;;
    ret (getter a current_tag)
  else ret None.

(** [current_genre == genre] *)
Definition genre_eqb (current_genre : option str) (genre : str) : bool :=
  match current_genre with
  | Some c => str_eqb c genre
  | None => false
  end.

(** Lines 229-258: compare, then back up, write and save. *)
Definition compare_and_write (a : audio) (tag_key : str) (getter : getter_t)
    (setter : setter_t) (file_path : Path) (genre : str)
    (dry_run make_backup : bool) : M bool :=
  current_genre <- read_current a tag_key getter ;;
  if genre_eqb current_genre genre then ret false
  else if dry_run then
    logging (InfoWouldUpdate file_path current_genre genre) ;; ret true
  else
    (if make_backup then (_ <- backup_file file_path ;; ret tt)
     else ret tt) ;;
    a' <- (if has_tags a then tags_setitem a tag_key (setter a genre)
           else setitem a tag_key (setter a genre)) ;;
    save a' ;;
    ret true.

(** Lines 215-258: the body of the outer [try]. *)
Definition attempt (ext : str) (h : handler) (file_path : Path) (genre : str)
    (dry_run make_backup : bool) : M bool :=
  let '(cls, tag_key, getter, setter) := h in
  step <- open_container ext cls file_path dry_run ;;
  match step with
  | Return b => ret b
  | Continue a =>
      compare_and_write a tag_key getter setter file_path genre
        dry_run make_backup
  end.

(** [depth] is the number of nested calls the interpreter still allows:
    when it is used up, the recursive call raises [RecursionError]. *)
Fixpoint set_genre_tag (depth : nat) (file_path : Path) (genre : str)
    (dry_run make_backup : bool) {struct depth} : M bool :=
  let ext := lower (path_suffix file_path) in
  match handler_lookup ext FORMAT_HANDLERS with
  | None =>
      (if str_in ext [lit ".au"; lit ".acm"]
       then logging (WarnFormatUnsupported ext file_path)
       else logging (WarnUnsupported file_path)) ;;
      ret false
  | Some h =>
      try_except
        (attempt ext h file_path genre dry_run make_backup)
        (fun e =>
           if is_PermissionError e then
             if dry_run then
               logging (InfoWouldFixPermissions file_path) ;; ret true
             else
               try_except
                 (os_chmod (path_str file_path) 436 ;;   (* 0o664 *)
                  match depth with
                  | O => raise RecursionError
                  | S depth' =>
                      set_genre_tag depth' file_path genre dry_run
                        make_backup
                  end)
                 (fun perm_e =>
                    logging (ErrorPermission file_path perm_e) ;; ret false)
           else
             logging (ErrorUpdating file_path e) ;;
             logging DebugTraceback ;;
             ret false)
  end.

(** ** process_file (source lines 277-293) *)

Definition worker_args : Type := Path * Path * bool * bool * option str.

(** The first component of the tuple: [file_path]. *)
Definition args_path (args : worker_args) : Path :=
  let '(file_path, _, _, _, _) := args in file_path.

(** Truth value of an optional string: neither [None] nor empty. *)
Definition truthy (s : option str) : bool :=
  match s with Some (_ :: _) => true | _ => false end.

Definition msg_genre_not_found : str := lit "Genre not found".
Definition msg_skipped_filter : str := lit "Skipped (genre filter)".
Definition msg_genre_set (genre : str) : str :=
  lit "Genre set to '" ++ genre ++ lit "'".
Definition msg_already_or_failed : str := lit "Already correct or failed".

Definition process_file (depth : nat) (args : worker_args) : M (str * str) :=
  let '(file_path, base_folder, dry_run, make_backup, filter_genre) := args in
  genre <- get_genre_from_path file_path base_folder ;;
  if negb (truthy genre) then ret (path_str file_path, msg_genre_not_found)
  else
    let genre := default [] genre in
    if truthy filter_genre
       && negb (contains (lower genre) (lower (default [] filter_genre)))
    then ret (path_str file_path, msg_skipped_filter)
    else
      updated <- set_genre_tag depth file_path genre dry_run make_backup ;;
      if updated then ret (path_str file_path, msg_genre_set genre)
      else ret (path_str file_path, msg_already_or_failed).

(** ** find_audio_files (source lines 295-301) *)

(** [AUDIO_EXTS] (source lines 78-82) *)
Definition AUDIO_EXTS : list str :=
  List.map lit
    [ ".mp3"; ".flac"; ".mp4"; ".m4a"; ".m4b"; ".aac"; ".ogg"; ".opus";
      ".oga"; ".mpc"; ".ape"; ".wv"; ".tta"; ".wma"; ".aiff"; ".aif"; ".wav";
      ".ofr"; ".ofs"; ".tak"; ".dsf"; ".dff"; ".au"; ".mp2"; ".acm" ]%string.

(** [os.path.splitext(p)[1]] on a POSIX system: the extension starts at the
    last dot, if that dot comes after the last slash and some character
    between the two is not a dot; otherwise it is empty. *)
Definition splitext_ext (p : str) : str :=
  let filenameIndex :=
    match rfind 47 p with Some sepIndex => S sepIndex | None => 0%nat end in
  match rfind 46 p with
  | Some dotIndex =>
      if (filenameIndex <=? dotIndex)%nat
         && existsb (fun c => negb (c =? 46))
              (take (dotIndex - filenameIndex) (drop filenameIndex p))
      then drop dotIndex p
      else []
  | None => []
  end.

(** A directory as [os.walk] lists it: the names of its files, and its
    subdirectories with their names, in the order of the listing. *)
#[warnings="-register-all"]
Inductive dir :=
| Dir (filenames : list str) (subdirs : list (str * dir)).

(** [os.walk(top)]: one triple [(dirpath, dirnames, filenames)] per
    directory, a directory before its subdirectories. *)
Fixpoint os_walk (dirpath : Path) (d : dir)
  : list (Path * list str * list str) :=
  match d with
  | Dir filenames subdirs =>
      (dirpath, List.map fst subdirs, filenames)
      :: flat_map (fun sub => os_walk (dirpath ++ [fst sub]) (snd sub))
           subdirs
  end.

(** The paths are listed in the order in which the generator yields
    them. *)
Definition find_audio_files (root_folder : Path) (tree : dir) : list Path :=
  flat_map
    (fun '(dirpath, _, filenames) =>
       flat_map
         (fun fname =>
            let ext := lower (splitext_ext fname) in
            if str_in ext AUDIO_EXTS then [dirpath ++ [fname]] else [])
         filenames)
    (os_walk root_folder tree).

(** ** process_files_in_batches (source lines 303-335) *)

(** [range(start, stop, step)]; [None] stands for the [ValueError] raised
    for a zero step. *)
Definition py_range (start stop step : Z) : option (list Z) :=
  if (step =? 0)%Z then None
  else
    let n := if (0 <? step)%Z then ((stop - start + step - 1) / step)%Z
             else ((start - stop - step - 1) / (- step))%Z in
    Some (List.map (fun k => (start + Z.of_nat k * step)%Z)
            (seq 0 (Z.to_nat n))).

(** [l[i:j]]: a negative index counts from the end, and both are clamped
    to the list. *)
Definition slice_index (len i : Z) : Z :=
  if (i <? 0)%Z then Z.max 0 (i + len) else Z.min i len.

Definition py_slice {A} (l : list A) (i j : Z) : list A :=
  let len := Z.of_nat (length l) in
  let a := slice_index len i in
  let b := slice_index len j in
  take (Z.to_nat (b - a)) (drop (Z.to_nat a) l).

(** [for x in xs: body(x)] *)
Fixpoint for_each {A} (xs : list A) (body : A -> M unit) : M unit :=
  match xs with
  | [] => ret tt
  | x :: xs' => body x ;; for_each xs' body
  end.

(** [pool.map(f, xs)]: the results in the order of [xs].  The workers of
    a pool run side by side; here they run one after the other, in the
    order of the batch. *)
Fixpoint pool_map {A B} (f : A -> M B) (xs : list A) : M (list B) :=
  match xs with
  | [] => ret []
  | x :: xs' => y <- f x ;; ys <- pool_map f xs' ;; ret (y :: ys)
  end.

(** [with Pool(num_workers) as pool: body]: the pool is shut down when the
    block is left, also by an exception. *)
Definition with_pool {A} (num_workers : Z) (body : M A) : M A :=
  if (num_workers <? 1)%Z then raise (OtherError "ValueError")
  else
    emit (PoolOpen num_workers) ;;
    fun w => let '(r, w') := body w in (r, snd (emit PoolClose w')).

(** One call of the worker, as the pool runs it. *)
Definition run_worker (depth : nat) (args : worker_args) : M (str * str) :=
  emit (Processed (args_path args)) ;; process_file depth args.

(** Lines 319-331: log one result and advance the progress bar. *)
Definition report_result (tqdm_available : bool) (r : str * str) : M unit :=
  let '(fpath, result) := r in
  (if contains result (lit "Genre set to") then
     logging (InfoResult fpath result)
   else if contains result (lit "Already correct") then
     logging (DebugResult fpath result)
   else if contains result (lit "Skipped") then
     logging (DebugResult fpath result)
   else logging (WarnResult fpath result)) ;;
  if tqdm_available then emit Progress else ret tt.

Definition process_files_in_batches (depth : nat) (tqdm_available : bool)
    (files_and_args : list worker_args) (batch_size num_workers : Z)
  : M unit :=
  let total_files := length files_and_args in
  logging (InfoProcessing total_files batch_size) ;;
  match py_range 0 (Z.of_nat total_files) batch_size with
  | None => raise (OtherError "ValueError")
  | Some starts =>
      for_each starts
        (fun i =>
           let batch := py_slice files_and_args i (i + batch_size) in
           with_pool num_workers
             (results <- pool_map (run_worker depth) batch ;;
              for_each results (report_result tqdm_available)))
  end.

(** ** main (source lines 339-381): the worker count and the file list *)

(** Line 354: [--cpu-limit] absent is [None]; [None] and 0 are false. *)
Definition num_workers (cpu_limit : option Z) (available_cpus : Z) : Z :=
  match cpu_limit with
  | Some n => if (n =? 0)%Z then available_cpus else Z.min n available_cpus
  | None => available_cpus
  end.

(** Lines 365-366: the arguments collected for one base folder. *)
Definition scan_folder (base_folder : Path) (tree : dir)
    (dry_run backup : bool) (genre : option str) : list worker_args :=
  List.map (fun fpath => (fpath, base_folder, dry_run, backup, genre))
    (find_audio_files base_folder tree).

(** ** Predicates used in the statements of Part II *)

(** Text made of ASCII code points only. *)
Definition ascii_text (s : str) : bool := forallb is_ascii s.

(** Text of ASCII code points, and text without whitespace, as
    properties of each code point. *)
Abbreviation ascii_only s := (Forall (fun c => is_ascii c = true) s).
Abbreviation spacefree s := (Forall (fun c => is_space c = false) s).

(** A word as [split()] produces them: not empty, no whitespace inside. *)
Definition is_word (w : str) : Prop :=
  w <> [] /\ Forall (fun c => is_space c = false) w.

(** What the case tables do on one ASCII code point, as a check that can
    be run on each of them. *)
Definition ascii_case_check (c : char) : bool :=
  match upper_char c, lower_char c, title_char c with
  | [u], [l], [t] =>
      is_ascii u && is_ascii l && is_ascii t
      && Bool.eqb (is_space u) (is_space c)
      && Bool.eqb (is_space l) (is_space c)
      && Bool.eqb (is_space t) (is_space c)
      && str_eqb (upper_char u) [u] && str_eqb (upper_char l) [u]
      && str_eqb (upper_char t) [u]
      && str_eqb (lower_char l) [l] && str_eqb (title_char t) [t]
  | _, _, _ => false
  end.

(** What upper-casing an ASCII code point leaves of its other two case
    mappings, as a check that can be run on each of them. *)
Definition ascii_upper_check (c : char) : bool :=
  match upper_char c with
  | [u] =>
      str_eqb (lower_char u) (lower_char c)
      && str_eqb (title_char u) (title_char c)
  | _ => false
  end.

(** A computation that returns a value from every world: it never raises. *)
Definition total {A} (m : M A) : Prop :=
  forall w, exists a w', m w = (Ok a, w').

(** A computation that leaves the file table and the clock as they are. *)
Definition keeps_files {A} (m : M A) : Prop :=
  forall w, w_fs (snd (m w)) = w_fs w /\ w_clock (snd (m w)) = w_clock w.




(** The file at [p] can be read and its tag block stores exactly the text
    [g] under [key]. *)
Definition updated_file (p : Path) (key g : str) (w : world) : Prop :=
  exists f t,
    w_fs w !! path_str p = Some f /\ f_readable f = true /\
    f_body f = Tagged t /\ tag_lookup key t = Some [g].

(** A container of class [cls] on the tag block [t] presents no value under
    [key], or a first value other than [g]. *)
Definition genre_differs (cls : AudioClass) (key g : str) (t : tagmap)
  : Prop :=
  match tag_lookup key t with
  | None => True
  | Some text =>
      match presented cls key text with
      | [] => False
      | v :: _ => v <> g
      end
  end.

(** Two states of a file that differ at most in content and time. *)
Definition attrs_eq (f f' : file) : Prop :=
  f_readable f = f_readable f' /\ f_writable f = f_writable f' /\
  f_mode f = f_mode f' /\ f_chmod f = f_chmod f' /\
  f_io_error f = f_io_error f' /\ f_dir_writable f = f_dir_writable f'.

(** What one attempt on [p] may change between [w] and [w']: the content
    of [p], and a backup of [p] where there was none. *)
Definition footprint (p : Path) (w w' : world) : Prop :=
  w_trace w' = w_trace w /\
  (forall k, k <> path_str p -> k <> backup_path p ->
             w_fs w' !! k = w_fs w !! k) /\
  match w_fs w !! path_str p, w_fs w' !! path_str p with
  | Some f, Some f' => attrs_eq f f'
  | None, None => True
  | _, _ => False
  end /\
  (forall d, w_fs w !! backup_path p = Some d ->
             w_fs w' !! backup_path p = Some d).


(** The world after one more log entry. *)
Definition logged (e : log_event) (w : world) : world :=
  mkWorld (w_fs w) (w_clock w) (w_log w ++ [e]) (w_trace w).

(** The outcome is a raised [PermissionError]. *)
Definition raises_permission {A} (r : result A) : bool :=
  match r with
  | Raise PermissionError => true
  | _ => false
  end.

(** A computation that raises no [PermissionError], whatever the world. *)
Definition never_permission {A} (m : M A) : Prop :=
  forall w, raises_permission (fst (m w)) = false.

(** A backup of [p] exists and holds content [b] with time [m]. *)
Definition backed_up (p : Path) (b : container) (m : N) (w : world) : Prop :=
  exists fb, w_fs w !! backup_path p = Some fb /\
             f_body fb = b /\ f_mtime fb = m.

(** The file at [p] still has content [b] and time [m], new files may be
    created next to it, and a backup, if there is one, holds that state. *)
Definition pristine (p : Path) (b : container) (m : N) (w : world) : Prop :=
  (exists f, w_fs w !! path_str p = Some f /\ f_body f = b /\
             f_mtime f = m /\ f_dir_writable f = true) /\
  (w_fs w !! backup_path p = None \/ backed_up p b m w).

(** What a whole update of [p] may change between [w] and [w']: the file
    at [p], which stays in place, and a backup where there was none. *)
Definition update_frame (p : Path) (w w' : world) : Prop :=
  (forall k, k <> path_str p -> k <> backup_path p ->
             w_fs w' !! k = w_fs w !! k) /\
  (is_Some (w_fs w' !! path_str p) <-> is_Some (w_fs w !! path_str p)) /\
  (forall d, w_fs w !! backup_path p = Some d ->
             w_fs w' !! backup_path p = Some d).

(** Two worlds with the same files and the same time: they may differ in
    what was logged and traced. *)
Definition same_files (w1 w2 : world) : Prop :=
  w_fs w1 = w_fs w2 /\ w_clock w1 = w_clock w2.

(** A computation whose outcome and whose effect on the files depend on
    the files and the time only, not on the log or the trace. *)
Definition files_only {A} (m : M A) : Prop :=
  forall w1 w2, same_files w1 w2 ->
    fst (m w1) = fst (m w2) /\ same_files (snd (m w1)) (snd (m w2)).

(** The batches the loop of [process_files_in_batches] takes: one slice
    per index that [range] yields. *)
Definition batches {A} (files : list A) (batch_size : Z) : list (list A) :=
  match py_range 0 (Z.of_nat (length files)) batch_size with
  | Some starts =>
      List.map (fun i => py_slice files i (i + batch_size)%Z) starts
  | None => []
  end.

(** The number of batches: the length of the list divided by the batch
    size, rounded up. *)
Definition batch_count (n : nat) (bs : Z) : nat :=
  Z.to_nat ((Z.of_nat n + bs - 1) / bs).

(** The events of the scheduler in a trace: pools and processed files. *)
Definition is_sched (e : event) : bool :=
  match e with
  | PoolOpen _ | Processed _ | PoolClose => true
  | Chmod _ _ | Progress => false
  end.

Definition sched_events (tr : list event) : list event :=
  List.filter is_sched tr.

(** The files processed, in the order of the trace. *)
Fixpoint processed_paths (tr : list event) : list Path :=
  match tr with
  | [] => []
  | Processed p :: tr' => p :: processed_paths tr'
  | _ :: tr' => processed_paths tr'
  end.

(** What one batch shows in the trace: a pool from its start to its end,
    and every file of the batch in between. *)
Definition batch_events (num_workers : Z) (batch : list worker_args)
  : list event :=
  PoolOpen num_workers
    :: List.map (fun a => Processed (args_path a)) batch ++ [PoolClose].

(** The log entries that report results, and the entry that reports one
    result: info for an update, debug for a file that is correct, failed or
    skipped, warning for anything else. *)
Definition is_result_entry (e : log_event) : bool :=
  match e with
  | InfoResult _ _ | DebugResult _ _ | WarnResult _ _ => true
  | _ => false
  end.

Definition result_entries (log : list log_event) : list log_event :=
  List.filter is_result_entry log.

Definition report_entry (r : str * str) : log_event :=
  let '(fpath, result) := r in
  if contains result (lit "Genre set to") then InfoResult fpath result
  else if contains result (lit "Already correct") then DebugResult fpath result
  else if contains result (lit "Skipped") then DebugResult fpath result
  else WarnResult fpath result.

(** A computation that logs no result. *)
Definition quiet {A} (m : M A) : Prop :=
  forall w, result_entries (w_log (snd (m w))) = result_entries (w_log w).

(** The backup path of [p] holds the same thing in both worlds. *)
Definition keeps_backup_path (p : Path) (w w' : world) : Prop :=
  w_fs w' !! backup_path p = w_fs w !! backup_path p.

(** The [Progress] events of a trace: the steps of the progress bar. *)
Definition is_progress (e : event) : bool :=
  match e with Progress => true | _ => false end.

Definition progress_events (tr : list event) : list event :=
  List.filter is_progress tr.

(** The steps the progress bar takes for [n] results: one each if [tqdm]
    is available, none otherwise. *)
Definition bar_steps (tqdm_available : bool) (n : nat) : list event :=
  if tqdm_available then repeat Progress n else [].

(** ** Sample paths, files and worlds *)

Definition music_root : Path := [lit "Music"; lit "Managed"].

Definition in_genre_folder (folder name : string) : Path :=
  music_root ++ [lit folder; lit "Joy Division"; lit name].

Definition track_flac : Path := in_genre_folder "Rock - Goth" "track.flac".
Definition track_mp3 : Path := in_genre_folder "Rock - Goth" "track.mp3".

(** An ordinary file: mode 0o644, owned by the process. *)
Definition plain_file (body : container) : file :=
  mkFile true true 420 ChmodApplies false true CopyRefused 5 body.

(** A file whose directory admits no new entry. *)
Definition file_in_readonly_dir (body : container) : file :=
  mkFile true true 420 ChmodApplies false false CopyRefused 5 body.

(** A world holding one file, at time 10, with nothing logged. *)
Definition one_file_world (p : Path) (f : file) : world :=
  mkWorld {[ path_str p := f ]} 10 [] [].

Definition genre_tags (g : string) : tagmap := [(lit "genre", [lit g])].

Definition track_bad : Path := in_genre_folder "Rock - Goth" "bad.flac".

(** A world with two good files and one whose container is broken. *)
Definition three_file_world : world :=
  mkWorld
    (<[path_str track_flac := plain_file (Tagged [])]>
       (<[path_str track_bad := plain_file Garbage]>
          {[ path_str track_mp3 := plain_file Untagged ]}))
    10 [] [].

(** A file the process can neither read nor write (mode 0o000), with the
    given reaction to [chmod]. *)
Definition locked_file (c : chmod_effect) (body : container) : file :=
  mkFile false false 0 c false true CopyRefused 5 body.

(** ** Tactics *)

(** Closes a goal stating that two runs of a system call, from worlds with
    the same files, end alike. *)
Ltac same_outcome :=
  split; [reflexivity | split; simpl; congruence].

(* ===================================================================== *)
(** * Part II. Lemmas and theorems                                        *)
(* ===================================================================== *)

Example normalize_uk_garage :
  normalize_genre (lit "uk garage") = lit "UK Garage".
Proof. reflexivity. Qed.

Example normalize_spaces :
  normalize_genre (lit "  rock   -  GOTH ") = lit "Rock - Goth".
Proof. reflexivity. Qed.

(** ** Python text: basic facts *)

Section PyStrFacts.

Lemma str_eqb_eq (a b : str) : str_eqb a b = true <-> a = b.
Proof.
  revert b; induction a as [|x a IH]; intros [|y b]; simpl;
    try (split; [discriminate | congruence]); [tauto|].
  rewrite andb_true_iff, N.eqb_eq, IH. split.
  - intros [-> ->]; reflexivity.
  - intros [= -> ->]; auto.
Qed.

Lemma str_eqb_refl (a : str) : str_eqb a a = true.
Proof. apply str_eqb_eq; reflexivity. Qed.

(** A property checked on the 128 ASCII code points holds of each. *)
Lemma ascii_forallb (P : char -> bool) :
  forallb P (List.map N.of_nat (seq 0 128)) = true ->
  forall c, is_ascii c = true -> P c = true.
Proof.
  intros H c Hc. rewrite forallb_forall in H. apply H.
  apply in_map_iff. exists (N.to_nat c). split; [apply N2Nat.id|].
  apply in_seq. unfold is_ascii in Hc. apply N.ltb_lt in Hc. lia.
Qed.

End PyStrFacts.

(** ** Case mapping on ASCII text *)

Section AsciiCase.

Lemma ascii_case (c : char) :
  is_ascii c = true ->
  exists u l t,
    upper_char c = [u] /\ lower_char c = [l] /\ title_char c = [t] /\
    is_ascii u = true /\ is_ascii l = true /\ is_ascii t = true /\
    is_space u = is_space c /\ is_space l = is_space c /\
    is_space t = is_space c /\
    upper_char u = [u] /\ upper_char l = [u] /\ upper_char t = [u] /\
    lower_char l = [l] /\ title_char t = [t].
Proof.
  intros Hc.
  assert (H : ascii_case_check c = true)
    by (revert c Hc; apply ascii_forallb; vm_compute; reflexivity).
  unfold ascii_case_check in H.
  destruct (upper_char c) as [|u [|]]; try discriminate.
  destruct (lower_char c) as [|l [|]]; try discriminate.
  destruct (title_char c) as [|t [|]]; try discriminate.
  repeat (apply andb_prop in H; destruct H as [H ?]).
  repeat match goal with
         | E : str_eqb _ _ = true |- _ => apply str_eqb_eq in E
         | E : Bool.eqb _ _ = true |- _ => apply Bool.eqb_prop in E
         end.
  exists u, l, t. repeat split; assumption.
Qed.

Lemma ascii_text_Forall (s : str) : ascii_text s = true <-> ascii_only s.
Proof.
  unfold ascii_text. rewrite forallb_forall, Forall_forall.
  split; intros H x Hx; apply H; apply list_elem_of_In; assumption.
Qed.

Lemma upper_ascii (s : str) : ascii_only s -> ascii_only (upper s).
Proof.
  induction 1 as [|c s Hc _ IH]; simpl; [constructor|].
  destruct (ascii_case c Hc) as (u & l & t & -> & _ & _ & Hu & _).
  simpl. constructor; assumption.
Qed.

Lemma lower_ascii (s : str) : ascii_only s -> ascii_only (lower s).
Proof.
  induction 1 as [|c s Hc _ IH]; simpl; [constructor|].
  destruct (ascii_case c Hc) as (u & l & t & _ & -> & _ & _ & Hl & _).
  simpl. constructor; assumption.
Qed.

Lemma capitalize_ascii (s : str) : ascii_only s -> ascii_only (capitalize s).
Proof.
  destruct 1 as [|c s Hc Hs]; simpl; [constructor|].
  destruct (ascii_case c Hc) as (u & l & t & _ & _ & -> & _ & _ & Ht & _).
  simpl. constructor; [assumption | apply lower_ascii; assumption].
Qed.

Lemma upper_spacefree (s : str) : ascii_only s -> spacefree s -> spacefree (upper s).
Proof.
  induction 1 as [|c s Hc _ IH]; simpl; [constructor|].
  intros Hs. apply Forall_cons in Hs as [Hsc Hs].
  destruct (ascii_case c Hc) as (u & l & t & -> & _ & _ & _ & _ & _ & Hu & _).
  simpl. constructor; [congruence | auto].
Qed.

Lemma lower_spacefree (s : str) : ascii_only s -> spacefree s -> spacefree (lower s).
Proof.
  induction 1 as [|c s Hc _ IH]; simpl; [constructor|].
  intros Hs. apply Forall_cons in Hs as [Hsc Hs].
  destruct (ascii_case c Hc)
    as (u & l & t & _ & -> & _ & _ & _ & _ & _ & Hl & _).
  simpl. constructor; [congruence | auto].
Qed.

Lemma capitalize_spacefree (s : str) :
  ascii_only s -> spacefree s -> spacefree (capitalize s).
Proof.
  destruct 1 as [|c s Hc Ha]; simpl; [constructor|].
  intros Hs. apply Forall_cons in Hs as [Hsc Hs].
  destruct (ascii_case c Hc)
    as (u & l & t & _ & _ & -> & _ & _ & _ & _ & _ & Ht & _).
  simpl. constructor; [congruence | apply lower_spacefree; assumption].
Qed.

Lemma upper_upper (s : str) : ascii_only s -> upper (upper s) = upper s.
Proof.
  induction 1 as [|c s Hc _ IH]; simpl; [reflexivity|].
  destruct (ascii_case c Hc)
    as (u & l & t & -> & _ & _ & _ & _ & _ & _ & _ & _ & Hu & _).
  simpl. fold (upper (upper s)). rewrite Hu, IH. reflexivity.
Qed.

Lemma upper_lower (s : str) : ascii_only s -> upper (lower s) = upper s.
Proof.
  induction 1 as [|c s Hc _ IH]; simpl; [reflexivity|].
  destruct (ascii_case c Hc)
    as (u & l & t & -> & -> & _ & _ & _ & _ & _ & _ & _ & _ & Hl & _).
  simpl. fold (upper (lower s)). rewrite Hl, IH. reflexivity.
Qed.

Lemma lower_lower (s : str) : ascii_only s -> lower (lower s) = lower s.
Proof.
  induction 1 as [|c s Hc _ IH]; simpl; [reflexivity|].
  destruct (ascii_case c Hc)
    as (u & l & t & _ & -> & _ & _ & _ & _ & _ & _ & _ & _ & _ & _ & Hl & _).
  simpl. fold (lower (lower s)). rewrite Hl, IH. reflexivity.
Qed.

Lemma upper_capitalize (s : str) : ascii_only s -> upper (capitalize s) = upper s.
Proof.
  destruct 1 as [|c s Hc Ha]; simpl; [reflexivity|].
  destruct (ascii_case c Hc)
    as (u & l & t & -> & _ & -> & _ & _ & _ & _ & _ & _ & _ & _ & Ht & _).
  simpl. fold (upper (lower s)). rewrite Ht, upper_lower by assumption.
  reflexivity.
Qed.

Lemma capitalize_capitalize (s : str) :
  ascii_only s -> capitalize (capitalize s) = capitalize s.
Proof.
  destruct 1 as [|c s Hc Ha]; simpl; [reflexivity|].
  destruct (ascii_case c Hc)
    as (u & l & t & _ & _ & -> & _ & _ & _ & _ & _ & _ & _ & _ & _ & _ & Ht).
  simpl. rewrite Ht, lower_lower by assumption. reflexivity.
Qed.

Lemma upper_nonempty (s : str) : ascii_only s -> s <> [] -> upper s <> [].
Proof.
  destruct 1 as [|c s Hc Ha]; [congruence|]. intros _. simpl.
  destruct (ascii_case c Hc) as (u & l & t & -> & _). discriminate.
Qed.

Lemma capitalize_nonempty (s : str) : ascii_only s -> s <> [] -> capitalize s <> [].
Proof.
  destruct 1 as [|c s Hc Ha]; [congruence|]. intros _. simpl.
  destruct (ascii_case c Hc) as (u & l & t & _ & _ & -> & _). discriminate.
Qed.

End AsciiCase.

(** ** [split], [strip] and [join] *)

Section SplitJoin.

Lemma push_word_words (w : str) (ws : list str) :
  spacefree w -> Forall is_word ws -> Forall is_word (push_word w ws).
Proof.
  intros Hw Hws. destruct w; simpl; [assumption|].
  constructor; [split; [discriminate | assumption] | assumption].
Qed.

Lemma split_go_words (s : str) :
  spacefree (fst (split_go s)) /\ Forall is_word (snd (split_go s)).
Proof.
  induction s as [|c s [IHw IHws]]; simpl; [split; constructor|].
  destruct (split_go s) as [w ws]; simpl in *.
  destruct (is_space c) eqn:E; simpl.
  - split; [constructor | apply push_word_words; assumption].
  - split; [constructor; assumption | assumption].
Qed.

Lemma split_words (s : str) : Forall is_word (split s).
Proof.
  unfold split. pose proof (split_go_words s) as [Hw Hws].
  destruct (split_go s) as [w ws]. apply push_word_words; assumption.
Qed.

(** Every code point of a word of [split s] is a code point of [s]. *)
Lemma split_go_Forall (P : char -> Prop) (s : str) :
  Forall P s ->
  Forall P (fst (split_go s)) /\ Forall (Forall P) (snd (split_go s)).
Proof.
  induction 1 as [|c s Hc _ [IHw IHws]]; simpl; [split; constructor|].
  destruct (split_go s) as [w ws]; simpl in *.
  destruct (is_space c); simpl.
  - split; [constructor|]. destruct w; simpl; [assumption|].
    constructor; assumption.
  - split; [constructor; assumption | assumption].
Qed.

Lemma split_Forall (P : char -> Prop) (s : str) :
  Forall P s -> Forall (Forall P) (split s).
Proof.
  intros H. unfold split. pose proof (split_go_Forall P s H) as [Hw Hws].
  destruct (split_go s) as [w ws]; simpl in *.
  destruct w; simpl; [assumption | constructor; assumption].
Qed.

Lemma split_space (c : char) (s : str) :
  is_space c = true -> split (c :: s) = split s.
Proof.
  intros Hc. unfold split. simpl. destruct (split_go s) as [w ws].
  rewrite Hc. reflexivity.
Qed.

Lemma split_lstrip (s : str) : split (lstrip s) = split s.
Proof.
  induction s as [|c s IH]; simpl; [reflexivity|].
  destruct (is_space c) eqn:E; [|reflexivity].
  rewrite IH, split_space by assumption. reflexivity.
Qed.

Lemma split_go_rstrip (s : str) : split_go (rstrip s) = split_go s.
Proof.
  induction s as [|c s IH]; simpl; [reflexivity|].
  destruct (rstrip s) as [|c' r'] eqn:E.
  - simpl in IH. rewrite <- IH.
    destruct (is_space c) eqn:Ec; simpl; rewrite ?Ec; reflexivity.
  - change (split_go (c :: c' :: r')) with
      (let '(w, ws) := split_go (c' :: r') in
       if is_space c then ([], push_word w ws) else (c :: w, ws)).
    rewrite IH. reflexivity.
Qed.

Lemma split_strip (s : str) : split (strip s) = split s.
Proof.
  unfold strip. transitivity (split (lstrip s)); [|apply split_lstrip].
  unfold split. rewrite split_go_rstrip. reflexivity.
Qed.

Lemma split_go_word_app (w s : str) :
  spacefree w ->
  split_go (w ++ s) = (w ++ fst (split_go s), snd (split_go s)).
Proof.
  induction 1 as [|c w Hc _ IH]; simpl.
  - destruct (split_go s); reflexivity.
  - rewrite IH, Hc. reflexivity.
Qed.

Lemma split_join (ws : list str) :
  Forall is_word ws -> split (join (lit " ") ws) = ws.
Proof.
  induction 1 as [|w ws [Hne Hsf] Hws IH]; [reflexivity|].
  destruct ws as [|w2 ws].
  - simpl. unfold split. rewrite <- (app_nil_r w) at 1.
    rewrite split_go_word_app by assumption. simpl. rewrite app_nil_r.
    destruct w; [congruence | reflexivity].
  - change (join (lit " ") (w :: w2 :: ws))
      with (w ++ 32 :: join (lit " ") (w2 :: ws)).
    unfold split. rewrite split_go_word_app by assumption.
    change (split_go (32 :: join (lit " ") (w2 :: ws)))
      with (let '(w', ws') := split_go (join (lit " ") (w2 :: ws)) in
            (@nil char, push_word w' ws')).
    unfold split in IH.
    destruct (split_go (join (lit " ") (w2 :: ws))) as [w' ws'].
    simpl. rewrite app_nil_r, IH.
    destruct w; [congruence | reflexivity].
Qed.

End SplitJoin.

(** ** Genre normalisation *)

Section Normalize.

Lemma normalize_word_word (w : str) :
  ascii_only w -> is_word w ->
  ascii_only (normalize_word w) /\ is_word (normalize_word w).
Proof.
  intros Ha [Hne Hsf]. unfold normalize_word.
  destruct (str_in (upper w) words_to_preserve).
  - split; [apply upper_ascii; assumption|].
    split; [apply upper_nonempty | apply upper_spacefree]; assumption.
  - split; [apply capitalize_ascii; assumption|].
    split; [apply capitalize_nonempty | apply capitalize_spacefree];
      assumption.
Qed.

Lemma normalize_word_idem (w : str) :
  ascii_only w -> normalize_word (normalize_word w) = normalize_word w.
Proof.
  intros Ha. unfold normalize_word.
  destruct (str_in (upper w) words_to_preserve) eqn:E.
  - rewrite upper_upper, E by assumption. reflexivity.
  - rewrite upper_capitalize, E by assumption.
    apply capitalize_capitalize; assumption.
Qed.

Lemma normalize_genre_split (x : str) :
  normalize_genre x = join (lit " ") (List.map normalize_word (split x)).
Proof. unfold normalize_genre. rewrite split_strip. reflexivity. Qed.

Lemma normalize_genre_idem_ascii (x : str) :
  ascii_only x -> normalize_genre (normalize_genre x) = normalize_genre x.
Proof.
  intros Ha. rewrite !normalize_genre_split.
  pose proof (split_words x) as Hw.
  pose proof (split_Forall _ x Ha) as Hs.
  set (ws := split x) in *. clearbody ws.
  assert (Hn : Forall is_word (List.map normalize_word ws)).
  { clear - Hw Hs. induction ws as [|w ws IH]; simpl; [constructor|].
    apply Forall_cons in Hw as [Hw Hws]. apply Forall_cons in Hs as [Hs Hss].
    constructor; [apply normalize_word_word; assumption | auto]. }
  rewrite split_join by assumption. f_equal.
  rewrite List.map_map. clear Hn.
  induction ws as [|w ws IH]; simpl; [reflexivity|].
  apply Forall_cons in Hw as [Hw Hws]. apply Forall_cons in Hs as [Hs Hss].
  rewrite normalize_word_idem by assumption. f_equal. auto.
Qed.

End Normalize.

Lemma str_in_In (x : str) (xs : list str) : str_in x xs = true <-> In x xs.
Proof.
  unfold str_in. rewrite existsb_exists. split.
  - intros (y & Hy & E). apply str_eqb_eq in E. subst. assumption.
  - intros H. exists x. split; [assumption | apply str_eqb_refl].
Qed.

(** A word whose upper-cased form is in the preserve-set becomes that
    upper-cased form, whatever its casing; every other word is capitalised. *)
Lemma normalize_word_preserved (w m : str) :
  In m words_to_preserve -> upper w = m -> normalize_word w = m.
Proof.
  intros Hm <-. unfold normalize_word.
  apply str_in_In in Hm. rewrite Hm. reflexivity.
Qed.

Lemma normalize_word_other (w : str) :
  ~ In (upper w) words_to_preserve -> normalize_word w = capitalize w.
Proof.
  intros Hm. unfold normalize_word.
  destruct (str_in (upper w) words_to_preserve) eqn:E; [|reflexivity].
  apply str_in_In in E. contradiction.
Qed.

(** C5, as stated, fails: the folder name made of [u] and U+212A (KELVIN
    SIGN) normalises to [Uk], because the sign is upper case (so the word is
    not in the preserve-set) and lower-cases to [k]; and [Uk] normalises to
    the preserved [UK]. *)
Lemma normalize_genre_kelvin_not_idempotent :
  normalize_genre [117; 0x212A] = lit "Uk" /\
  normalize_genre (normalize_genre [117; 0x212A]) = lit "UK" /\
  normalize_genre (normalize_genre [117; 0x212A])
    <> normalize_genre [117; 0x212A].
Proof. repeat split. discriminate. Qed.

(** C5 (amended): genre normalisation is idempotent on ASCII text: for every
    string [x] of ASCII code points,
    [normalize_genre (normalize_genre x) = normalize_genre x]. *)
Theorem normalize_genre_idempotent_ascii (x : str) :
  ascii_text x = true ->
  normalize_genre (normalize_genre x) = normalize_genre x.
Proof.
  intros H. apply normalize_genre_idem_ascii, ascii_text_Forall, H.
Qed.

Lemma normalize_genre_idempotent_ascii_witness :
  ascii_text (lit "  drum   and BASS ") = true /\
  normalize_genre (normalize_genre (lit "  drum   and BASS "))
    = normalize_genre (lit "  drum   and BASS ").
Proof.
  split; [reflexivity|].
  apply (normalize_genre_idempotent_ascii (lit "  drum   and BASS ")).
  reflexivity.
Defined.

(** C6: the preserve-set holds three entries that are not upper case
    ([DnB], [J-Pop], [K-Pop]).  The membership test compares the upper-cased
    word with the set, so these entries never match: in whatever casing such
    a token is written, it is capitalised like an ordinary word and the
    stylised form of the set is lost.  The ten upper-case entries behave as
    the claim says ([normalize_word_preserved]). *)
Theorem normalize_genre_mixed_case_entries_lost :
  In (lit "DnB") words_to_preserve /\
  In (lit "J-Pop") words_to_preserve /\
  In (lit "K-Pop") words_to_preserve /\
  normalize_genre (lit "DnB") = lit "Dnb" /\
  normalize_genre (lit "dnb") = lit "Dnb" /\
  normalize_genre (lit "DNB") = lit "Dnb" /\
  normalize_genre (lit "J-Pop") = lit "J-pop" /\
  normalize_genre (lit "K-Pop") = lit "K-pop" /\
  normalize_genre (lit "liquid dnb") = lit "Liquid Dnb" /\
  normalize_genre (lit "uk garage") = lit "UK Garage".
Proof.
  repeat split; try reflexivity;
    apply str_in_In; reflexivity.
Qed.

(** ** Computations that keep the file table *)

Section KeepsFiles.

Context {A B : Type}.

Lemma keeps_ret (a : A) : keeps_files (ret a).
Proof. intros w; split; reflexivity. Qed.

Lemma keeps_raise (e : exn) : keeps_files (@raise A e).
Proof. intros w; split; reflexivity. Qed.

Lemma keeps_bind (m : M A) (k : A -> M B) :
  keeps_files m -> (forall a, keeps_files (k a)) -> keeps_files (bind m k).
Proof.
  intros Hm Hk w. unfold bind. destruct (Hm w) as [H1 H2].
  destruct (m w) as [[a|e] w']; simpl in *.
  - destruct (Hk a w') as [H3 H4]. split; congruence.
  - split; assumption.
Qed.

Lemma keeps_try (m : M A) (h : exn -> M A) :
  keeps_files m -> (forall e, keeps_files (h e)) ->
  keeps_files (try_except m h).
Proof.
  intros Hm Hh w. unfold try_except. destruct (Hm w) as [H1 H2].
  destruct (m w) as [[a|e] w']; simpl in *.
  - split; assumption.
  - destruct (Hh e w') as [H3 H4]. split; congruence.
Qed.

End KeepsFiles.

Lemma keeps_logging (e : log_event) : keeps_files (logging e).
Proof. intros w; split; reflexivity. Qed.

Lemma keeps_emit (e : event) : keeps_files (emit e).
Proof. intros w; split; reflexivity. Qed.

Lemma keeps_open_audio (cls : AudioClass) (filename : str) :
  keeps_files (open_audio cls filename).
Proof.
  intros w. unfold open_audio.
  destruct (w_fs w !! filename) as [f|]; [|split; reflexivity].
  destruct (f_readable f); simpl; [|split; reflexivity].
  destruct (f_body f); [| destruct cls |]; split; reflexivity.
Qed.

Lemma keeps_get_first (values : list (option str)) :
  keeps_files (get_first values).
Proof.
  destruct values as [|v l]; first [apply keeps_ret | apply keeps_raise].
Qed.

Lemma keeps_read_current (a : audio) (key : str) (getter : getter_t) :
  keeps_files (read_current a key getter).
Proof.
  unfold read_current.
  destruct (has_get a); [|destruct (has_tags a && tags_truthy a)];
    try apply keeps_ret;
    (apply keeps_bind; [apply keeps_get_first | intros; apply keeps_ret]).
Qed.

Lemma keeps_open_container_dry (ext : str) (cls : AudioClass) (p : Path) :
  keeps_files (open_container ext cls p true).
Proof.
  unfold open_container. destruct (str_eqb ext (lit ".mp3")).
  - apply keeps_try; [|intros; apply keeps_ret].
    apply keeps_bind; [apply keeps_open_audio | intros; apply keeps_ret].
  - apply keeps_bind; [apply keeps_open_audio | intros; apply keeps_ret].
Qed.

Lemma keeps_compare_dry (a : audio) (key : str) (getter : getter_t)
    (setter : setter_t) (p : Path) (g : str) (mb : bool) :
  keeps_files (compare_and_write a key getter setter p g true mb).
Proof.
  unfold compare_and_write.
  apply keeps_bind; [apply keeps_read_current | intros cur].
  destruct (genre_eqb cur g); [apply keeps_ret|].
  apply keeps_bind; [apply keeps_logging | intros; apply keeps_ret].
Qed.

Lemma keeps_attempt_dry (ext : str) (h : handler) (p : Path) (g : str)
    (mb : bool) :
  keeps_files (attempt ext h p g true mb).
Proof.
  destruct h as [[[cls key] getter] setter]. unfold attempt.
  apply keeps_bind; [apply keeps_open_container_dry | intros [b|a]].
  - apply keeps_ret.
  - apply keeps_compare_dry.
Qed.

(** The defining equation of [set_genre_tag]. *)
Lemma set_genre_tag_eq (depth : nat) (p : Path) (g : str) (dry mb : bool) :
  set_genre_tag depth p g dry mb =
  match handler_lookup (lower (path_suffix p)) FORMAT_HANDLERS with
  | None =>
      (if str_in (lower (path_suffix p)) [lit ".au"; lit ".acm"]
       then logging (WarnFormatUnsupported (lower (path_suffix p)) p)
       else logging (WarnUnsupported p)) ;;
      ret false
  | Some h =>
      try_except
        (attempt (lower (path_suffix p)) h p g dry mb)
        (fun e =>
           if is_PermissionError e then
             if dry then logging (InfoWouldFixPermissions p) ;; ret true
             else
               try_except
                 (os_chmod (path_str p) 436 ;;
                  match depth with
                  | O => raise RecursionError
                  | S depth' => set_genre_tag depth' p g dry mb
                  end)
                 (fun perm_e => logging (ErrorPermission p perm_e) ;; ret false)
           else
             logging (ErrorUpdating p e) ;; logging DebugTraceback ;; ret false)
  end.
Proof. destruct depth; reflexivity. Qed.

Lemma keeps_set_genre_tag_dry (depth : nat) (p : Path) (g : str) (mb : bool) :
  keeps_files (set_genre_tag depth p g true mb).
Proof.
  rewrite set_genre_tag_eq.
  destruct (handler_lookup _ _) as [h|].
  - apply keeps_try; [apply keeps_attempt_dry | intros e].
    destruct (is_PermissionError e);
      repeat (apply keeps_bind; [apply keeps_logging | intros]);
      apply keeps_ret.
  - apply keeps_bind; [|intros; apply keeps_ret].
    destruct (str_in _ _); apply keeps_logging.
Qed.

Lemma keeps_get_genre_from_path (p base : Path) :
  keeps_files (get_genre_from_path p base).
Proof.
  unfold get_genre_from_path. apply keeps_try.
  - destruct (relative_to p base) as [[|x parts]|];
      first [apply keeps_ret | apply keeps_raise].
  - intros e. apply keeps_bind; [apply keeps_logging | intros; apply keeps_ret].
Qed.

Lemma keeps_process_file_dry (depth : nat) (p base : Path) (mb : bool)
    (filter : option str) :
  keeps_files (process_file depth (p, base, true, mb, filter)).
Proof.
  unfold process_file.
  apply keeps_bind; [apply keeps_get_genre_from_path | intros genre].
  destruct (negb (truthy genre)); [apply keeps_ret|].
  destruct (truthy filter && _); [apply keeps_ret|].
  apply keeps_bind; [apply keeps_set_genre_tag_dry | intros [|]];
    apply keeps_ret.
Qed.

(** C4: with the dry-run flag, update leaves the whole file table as it
    was - every file keeps its content, tags, permissions and modification
    time, and no file (so no backup) is created - whatever the current tag,
    also for a file without tag block and for a file that cannot be
    accessed; the same holds for the worker [process_file] that calls it. *)
Theorem dry_run_changes_no_file :
  forall (depth : nat) (p : Path) (g : str) (make_backup : bool) (w : world),
    w_fs (snd (set_genre_tag depth p g true make_backup w)) = w_fs w /\
    w_clock (snd (set_genre_tag depth p g true make_backup w)) = w_clock w /\
    forall (base : Path) (filter : option str),
      w_fs (snd (process_file depth (p, base, true, make_backup, filter) w))
        = w_fs w.
Proof.
  intros depth p g mb w.
  destruct (keeps_set_genre_tag_dry depth p g mb w) as [H1 H2].
  repeat split; try assumption.
  intros base filter. apply keeps_process_file_dry.
Qed.

(** ** Computations that never raise *)

Section Total.

Context {A B : Type}.

Lemma total_ret (a : A) : total (ret a).
Proof. intros w. exists a, w. reflexivity. Qed.

Lemma total_bind (m : M A) (k : A -> M B) :
  total m -> (forall a, total (k a)) -> total (bind m k).
Proof.
  intros Hm Hk w. unfold bind. destruct (Hm w) as (a & w' & ->). apply Hk.
Qed.

(** A [try] whose handler never raises never raises. *)
Lemma total_try (m : M A) (h : exn -> M A) :
  (forall e, total (h e)) -> total (try_except m h).
Proof.
  intros Hh w. unfold try_except.
  destruct (m w) as [[a|e] w']; [exists a, w'; reflexivity | apply Hh].
Qed.

End Total.

Lemma total_logging (e : log_event) : total (logging e).
Proof. intros w. eexists _, _. reflexivity. Qed.

Lemma total_emit (e : event) : total (emit e).
Proof. intros w. eexists _, _. reflexivity. Qed.

Lemma total_log_then {A} (e : log_event) (a : A) :
  total (logging e ;; ret a).
Proof. apply total_bind; [apply total_logging | intros; apply total_ret]. Qed.

Lemma total_backup_file (p : Path) : total (backup_file p).
Proof. apply total_try. intros e. apply total_log_then. Qed.

Lemma total_set_genre_tag (depth : nat) (p : Path) (g : str) (dry mb : bool) :
  total (set_genre_tag depth p g dry mb).
Proof.
  rewrite set_genre_tag_eq. destruct (handler_lookup _ _) as [h|].
  - apply total_try. intros e. destruct (is_PermissionError e).
    + destruct dry; [apply total_log_then|].
      apply total_try. intros e'. apply total_log_then.
    + apply total_bind; [apply total_logging | intros; apply total_log_then].
  - apply total_bind; [|intros; apply total_ret].
    destruct (str_in _ _); apply total_logging.
Qed.

Lemma total_get_genre_from_path (p base : Path) :
  total (get_genre_from_path p base).
Proof. apply total_try. intros e. apply total_log_then. Qed.

Lemma process_file_returns (depth : nat) (args : worker_args) (w : world) :
  exists msg w', process_file depth args w = (Ok (path_str (args_path args), msg), w').
Proof.
  destruct args as [[[[p base] dry] mb] filter]. unfold process_file, bind.
  destruct (total_get_genre_from_path p base w) as (genre & w1 & ->).
  destruct (negb (truthy genre)); [eexists _, _; reflexivity|].
  destruct (truthy filter && _); [eexists _, _; reflexivity|].
  destruct (total_set_genre_tag depth p (default [] genre) dry mb w1)
    as (b & w2 & ->).
  destruct b; eexists _, _; reflexivity.
Qed.

Lemma run_worker_returns (depth : nat) (args : worker_args) (w : world) :
  exists msg w', run_worker depth args w = (Ok (path_str (args_path args), msg), w').
Proof.
  unfold run_worker, bind, emit.
  match goal with |- context [process_file depth args ?w1] =>
    destruct (process_file_returns depth args w1) as (msg & w' & ->) end.
  eexists _, _; reflexivity.
Qed.

Lemma pool_map_returns (depth : nat) (batch : list worker_args) (w : world) :
  exists results w',
    pool_map (run_worker depth) batch w = (Ok results, w') /\
    List.map fst results = List.map (fun a => path_str (args_path a)) batch.
Proof.
  revert w. induction batch as [|a batch IH]; intros w; simpl.
  - exists [], w. split; reflexivity.
  - unfold bind.
    destruct (run_worker_returns depth a w) as (msg & w1 & ->).
    destruct (IH w1) as (rs & w2 & -> & Hrs).
    eexists _, _. split; [reflexivity|]. simpl. rewrite Hrs. reflexivity.
Qed.

(** ** The format table *)

Lemma handler_lookup_In (ext : str) (table : list (str * handler)) (h : handler) :
  handler_lookup ext table = Some h -> In h (List.map snd table).
Proof.
  induction table as [|[k h'] table IH]; simpl; [discriminate|].
  destruct (str_eqb ext k); [intros [= ->]; left; reflexivity | auto].
Qed.

(** Every entry reads the tag as it is and stores the genre as a
    one-element list. *)
Lemma handler_shape (ext : str) (cls : AudioClass) (key : str)
    (getter : getter_t) (setter : setter_t) :
  handler_lookup ext FORMAT_HANDLERS = Some (cls, key, getter, setter) ->
  getter = get_same /\ forall a g, stored (setter a g) = [g].
Proof.
  intros H. apply handler_lookup_In in H.
  assert (F : Forall (fun h : handler =>
                        snd (fst h) = get_same /\
                        forall a g, stored (snd h a g) = [g])
                (List.map snd FORMAT_HANDLERS))
    by (repeat constructor).
  rewrite Forall_forall in F. apply list_elem_of_In in H.
  apply (F _ H).
Qed.

(** ** Tag blocks *)

Lemma tag_lookup_store (k : str) (v : list str) (t : tagmap) :
  tag_lookup k (tag_store k v t) = Some v.
Proof.
  induction t as [|[k' v'] t IH]; simpl.
  - rewrite str_eqb_refl. reflexivity.
  - destruct (str_eqb k k') eqn:E; simpl; rewrite ?str_eqb_refl, ?E; auto.
Qed.

(** ** Paths *)

Lemma backup_path_ne (p : Path) : backup_path p <> path_str p.
Proof.
  unfold backup_path. intros H. apply (f_equal (@length char)) in H.
  rewrite length_app in H. simpl in H. lia.
Qed.

(** ** What the calls into mutagen and the system do *)

Lemma open_audio_world (cls : AudioClass) (fn : str) (w : world) :
  snd (open_audio cls fn w) = w.
Proof.
  unfold open_audio. destruct (w_fs w !! fn) as [f|]; [|reflexivity].
  destruct (f_readable f); simpl; [|reflexivity].
  destruct (f_body f); [| destruct cls |]; reflexivity.
Qed.

Lemma open_audio_Ok (cls : AudioClass) (fn : str) (w w' : world) (a : audio) :
  open_audio cls fn w = (Ok a, w') ->
  w' = w /\ a_filename a = fn /\ a_class a = cls /\
  exists f, w_fs w !! fn = Some f /\ f_readable f = true /\
            f_body f <> Garbage /\
            a_tags a = match f_body f with Tagged t => Some t | _ => None end.
Proof.
  unfold open_audio. destruct (w_fs w !! fn) as [f|]; [|discriminate].
  destruct (f_readable f) eqn:R; simpl; [|discriminate].
  destruct (f_body f) eqn:Bd; [discriminate | |].
  - destruct cls; try discriminate; intros [= <- <-];
      (repeat split; try reflexivity; exists f; rewrite Bd; repeat split; auto; discriminate).
  - intros [= <- <-]. repeat split; try reflexivity.
    exists f. rewrite Bd. repeat split; auto; discriminate.
Qed.

Lemma open_audio_tagged (cls : AudioClass) (fn : str) (w : world) (f : file)
    (t : tagmap) :
  w_fs w !! fn = Some f -> f_readable f = true -> f_body f = Tagged t ->
  open_audio cls fn w = (Ok (mkAudio cls fn (Some t)), w).
Proof. intros H R Bd. unfold open_audio. rewrite H, R, Bd. reflexivity. Qed.

Lemma save_Ok (a : audio) (w w' : world) :
  save a w = (Ok tt, w') ->
  (a_tags a = None /\ w' = w) \/
  exists t f,
    a_tags a = Some t /\ w_fs w !! a_filename a = Some f /\
    f_writable f = true /\ f_io_error f = false /\
    w' = mkWorld
           (<[a_filename a :=
                mkFile (f_readable f) (f_writable f) (f_mode f) (f_chmod f)
                  (f_io_error f) (f_dir_writable f) (f_copy_failure f)
                  (w_clock w) (Tagged t)]>
              (w_fs w))
           (w_clock w + 1) (w_log w) (w_trace w).
Proof.
  unfold save. destruct (a_tags a) as [t|]; [|intros [= <-]; left; auto].
  destruct (w_fs w !! a_filename a) as [f|]; [|discriminate].
  destruct (f_writable f) eqn:Wr; simpl; [|discriminate].
  destruct (f_io_error f) eqn:Io; [discriminate|].
  intros [= <-]. right. exists t, f. rewrite Wr, Io.
  repeat split; reflexivity.
Qed.

(** What [backup_file] does: nothing when a backup is there, a copy when
    none is there and the copy goes through, and otherwise only a log
    entry.  It never raises. *)
Lemma backup_file_present (p : Path) (w : world) (d : file) :
  w_fs w !! backup_path p = Some d -> backup_file p w = (Ok true, w).
Proof.
  intros Hb. unfold backup_file, try_except, bind, os_path_exists.
  rewrite Hb. reflexivity.
Qed.

Lemma backup_file_absent (p : Path) (w : world) :
  w_fs w !! backup_path p = None ->
  (exists f, w_fs w !! path_str p = Some f /\
             f_readable f = true /\ f_dir_writable f = true /\
             backup_file p w
               = (Ok true, set_fs (<[backup_path p := f]> (w_fs w)) w))
  \/
  (exists e w1,
      backup_file p w = (Ok false, logged (ErrorBackup p e) w1) /\
      (w1 = w \/
       exists d, w1 = set_fs (<[backup_path p := d]> (w_fs w)) w)).
Proof.
  intros Hb. unfold backup_file, try_except, bind, os_path_exists.
  rewrite Hb. simpl. unfold shutil_copy2. rewrite Hb.
  destruct (w_fs w !! path_str p) as [f|] eqn:Hp;
    [|right; eexists _, w; split; [reflexivity | left; reflexivity]].
  destruct (f_readable f) eqn:R; simpl;
    [|right; eexists _, w; split; [reflexivity | left; reflexivity]].
  destruct (f_dir_writable f) eqn:D; simpl.
  - left. exists f. rewrite R, D. repeat split; reflexivity.
  - right. destruct (copy_remains f (w_clock w)) as [d|].
    + eexists _, _. split; [reflexivity|]. right. exists d. reflexivity.
    + eexists _, w. split; [reflexivity | left; reflexivity].
Qed.

(** A copy that the directory does not admit: the backup step logs the
    exception and returns [False], and what the copy left stays. *)
Lemma backup_file_fails (p : Path) (w : world) (f : file) :
  w_fs w !! backup_path p = None ->
  w_fs w !! path_str p = Some f -> f_readable f = true ->
  f_dir_writable f = false ->
  backup_file p w
    = (Ok false,
       logged (ErrorBackup p (copy_failure_exn (f_copy_failure f)))
         match copy_remains f (w_clock w) with
         | Some d => set_fs (<[backup_path p := d]> (w_fs w)) w
         | None => w
         end).
Proof.
  intros Hb Hf Hr Hd.
  unfold backup_file, try_except, bind, os_path_exists, shutil_copy2.
  rewrite Hb. simpl. rewrite Hf, Hb, Hr, Hd. reflexivity.
Qed.

(** The backup step leaves the file itself, and the clock, as they are. *)
Lemma backup_file_keeps_file (p : Path) (w : world) :
  w_fs (snd (backup_file p w)) !! path_str p = w_fs w !! path_str p /\
  w_clock (snd (backup_file p w)) = w_clock w.
Proof.
  destruct (w_fs w !! backup_path p) as [d|] eqn:Hb.
  - rewrite (backup_file_present p w d Hb). split; reflexivity.
  - destruct (backup_file_absent p w Hb)
      as [(f & _ & _ & _ & ->) | (e & w1 & -> & [-> | (d & ->)])];
      simpl; try (split; reflexivity);
      (split; [|reflexivity]); apply lookup_insert_ne, backup_path_ne.
Qed.

(** ** The update of a file that already carries the genre *)



(** ** The state a successful update leaves *)

Lemma get_first_world (values : list (option str)) (w : world) :
  snd (get_first values w) = w.
Proof. destruct values; reflexivity. Qed.

Lemma read_current_world (a : audio) (key : str) (getter : getter_t)
    (w : world) :
  snd (read_current a key getter w) = w.
Proof.
  unfold read_current. simpl. unfold bind.
  pose proof (get_first_world (audio_get a key) w) as H.
  destruct (get_first (audio_get a key) w) as [[v|e] w']; simpl in *;
    congruence.
Qed.

Lemma open_container_Ok (ext : str) (cls : AudioClass) (p : Path)
    (w w' : world) (step : flow audio) :
  open_container ext cls p false w = (Ok step, w') ->
  exists a, step = Continue a /\ a_filename a = path_str p /\
    a_class a = cls /\
    exists f, w_fs w' !! path_str p = Some f /\ f_readable f = true.
Proof.
  assert (Hdirect : forall w0 w1 s,
    (a <- open_audio cls (path_str p) ;; ret (Continue a)) w0 = (Ok s, w1) ->
    exists a, s = Continue a /\ a_filename a = path_str p /\
      a_class a = cls /\
      exists f, w_fs w1 !! path_str p = Some f /\ f_readable f = true).
  { intros w0 w1 s. unfold bind.
    destruct (open_audio cls (path_str p) w0) as [[a|e] w2] eqn:Ho;
      [|discriminate].
    intros [= <- <-].
    apply open_audio_Ok in Ho as (-> & Hn & Hc & f & Hf & Hr & _).
    exists a. repeat split; [assumption | assumption |].
    exists f. split; assumption. }
  unfold open_container. destruct (str_eqb ext (lit ".mp3")); [|apply Hdirect].
  unfold try_except.
  destruct ((a <- open_audio cls (path_str p) ;; ret (Continue a)) w)
    as [[s|e] w1] eqn:Ho.
  - intros [= <- <-]. eapply Hdirect, Ho.
  - unfold bind at 1.
    destruct (open_audio MP3 (path_str p) w1) as [[a1|e1] w2]; [|discriminate].
    unfold bind at 1.
    destruct (add_tags a1 w2) as [[a2|e2] w3]; [|discriminate].
    unfold bind at 1.
    destruct (save a2 w3) as [[[]|e3] w4]; [|discriminate].
    apply Hdirect.
Qed.

(** What assigning the genre through either interface does: it stores the
    genre as the only value under the key, unless the container's tags are
    an ID3 tag or are missing, where the assignment raises. *)
Lemma assign_genre_outcome (a : audio) (key g : str) (setter : setter_t)
    (w : world) :
  (forall a g, stored (setter a g) = [g]) ->
  (exists t0,
     id3_backed (a_class a) = false /\
     (if has_tags a then tags_setitem a key (setter a g)
      else setitem a key (setter a g)) w
     = (Ok (mkAudio (a_class a) (a_filename a)
              (Some (tag_store key [g] t0))), w))
  \/ exists what,
       (if has_tags a then tags_setitem a key (setter a g)
        else setitem a key (setter a g)) w = (Raise (OtherError what), w).
Proof.
  intros Hst. destruct (has_tags a) eqn:Ht.
  - unfold tags_setitem. destruct (a_tags a) as [t0|].
    + destruct (id3_backed (a_class a)) eqn:Hid.
      * right. eexists. reflexivity.
      * left. exists t0. rewrite Hst. split; reflexivity.
    + right. eexists. reflexivity.
  - left. exists (default [] (a_tags a)). split.
    + unfold has_tags in Ht. destruct (a_class a); first [discriminate Ht | reflexivity].
    + unfold setitem. rewrite Hst. reflexivity.
Qed.

Lemma compare_and_write_success (a : audio) (key : str) (getter : getter_t)
    (setter : setter_t) (p : Path) (g : str) (mb : bool) (w w1 : world) :
  a_filename a = path_str p ->
  (exists f, w_fs w !! path_str p = Some f /\ f_readable f = true) ->
  (forall a g, stored (setter a g) = [g]) ->
  compare_and_write a key getter setter p g false mb w = (Ok true, w1) ->
  updated_file p key g w1 /\ id3_backed (a_class a) = false.
Proof.
  intros Hn (f & Hf & Hr) Hst. unfold compare_and_write. unfold bind at 1.
  pose proof (read_current_world a key getter w) as Hw.
  destruct (read_current a key getter w) as [[cur|e] w0]; simpl in Hw;
    [subst w0 | discriminate].
  destruct (genre_eqb cur g); [discriminate|].
  unfold bind at 1.
  assert (Hb : exists w2,
    (if mb then _ <- backup_file p ;; ret tt else ret tt) w = (Ok tt, w2) /\
    w_fs w2 !! path_str p = Some f).
  { destruct mb.
    - unfold bind. pose proof (backup_file_keeps_file p w) as [Hk _].
      destruct (total_backup_file p w) as (b & w2 & E). rewrite E in *.
      exists w2. split; [reflexivity|]. simpl in Hk. congruence.
    - exists w. split; [reflexivity | assumption]. }
  destruct Hb as (w2 & -> & Hf2).
  unfold bind at 1.
  destruct (assign_genre_outcome a key g setter w2 Hst)
    as [(t0 & Hid & ->) | (what & ->)]; [|discriminate].
  unfold bind at 1.
  match goal with |- context [save ?a' w2] =>
    destruct (save a' w2) as [[[]|e] w3] eqn:Hsv; [|discriminate] end.
  intros [= <-]. split; [|exact Hid].
  apply save_Ok in Hsv as [[Hnone _] | (t & f2 & Ht & Hf2' & Hw2 & _ & ->)];
    [discriminate|].
  simpl in Ht, Hf2'. injection Ht as <-. rewrite Hn in Hf2'.
  rewrite Hf2 in Hf2'. injection Hf2' as <-.
  eexists _, _. simpl. rewrite Hn, lookup_insert_eq.
  split; [reflexivity|]. simpl.
  repeat split; [assumption | apply tag_lookup_store].
Qed.

Lemma attempt_success (ext : str) (cls : AudioClass) (key : str)
    (getter : getter_t) (setter : setter_t) (p : Path) (g : str) (mb : bool)
    (w w1 : world) :
  (forall a g, stored (setter a g) = [g]) ->
  attempt ext (cls, key, getter, setter) p g false mb w = (Ok true, w1) ->
  updated_file p key g w1 /\ id3_backed cls = false.
Proof.
  intros Hst. unfold attempt. unfold bind at 1.
  destruct (open_container ext cls p false w) as [[step|e] w0] eqn:Ho;
    [|discriminate].
  apply open_container_Ok in Ho as (a & -> & Hn & <- & Hf).
  apply compare_and_write_success; assumption.
Qed.

Lemma set_genre_tag_success (depth : nat) (p : Path) (g : str) (mb : bool)
    (w w1 : world) :
  set_genre_tag depth p g false mb w = (Ok true, w1) ->
  exists cls key getter setter,
    handler_lookup (lower (path_suffix p)) FORMAT_HANDLERS
      = Some (cls, key, getter, setter) /\
    id3_backed cls = false /\
    updated_file p key g w1.
Proof.
  revert w. induction depth as [|depth IH]; intros w;
    rewrite set_genre_tag_eq;
    (destruct (handler_lookup _ _) as [[[[cls key] getter] setter]|] eqn:Hh;
     [|unfold bind; destruct (str_in _ _); simpl; discriminate]);
    destruct (handler_shape _ _ _ _ _ Hh) as [_ Hst];
    unfold try_except at 1;
    (destruct (attempt _ _ p g false mb w) as [[b|e] w0] eqn:Ha;
     [ intros [= -> <-]; exists cls, key, getter, setter;
       destruct (attempt_success _ _ _ _ _ _ _ _ _ _ Hst Ha) as [U I];
       repeat split; assumption |]);
    (destruct (is_PermissionError e);
     [| unfold bind, logging, ret; discriminate]);
    unfold try_except; unfold bind at 1;
    (destruct (os_chmod (path_str p) 436 w0) as [[[]|e'] w2];
     [| unfold bind, logging, ret; discriminate]).
  - unfold raise, bind, logging, ret. discriminate.
  - destruct (set_genre_tag depth p g false mb w2) as [[b|e'] w3] eqn:Hr.
    + intros [= -> <-]. apply IH in Hr.
      destruct Hr as (cls' & key' & getter' & setter' & E & I & U).
      try rewrite Hh in E. injection E as <- <- <- <-.
      exists cls, key, getter, setter. repeat split; assumption.
    + unfold bind, logging, ret. discriminate.
Qed.





(** ** Updating a readable, tagged file *)

Lemma open_container_tagged (ext : str) (cls : AudioClass) (p : Path)
    (dry : bool) (w : world) (f : file) (t : tagmap) :
  w_fs w !! path_str p = Some f -> f_readable f = true ->
  f_body f = Tagged t ->
  open_container ext cls p dry w
    = (Ok (Continue (mkAudio cls (path_str p) (Some t))), w).
Proof.
  intros Hf Hr Hb. unfold open_container.
  destruct (str_eqb ext (lit ".mp3")); unfold try_except, bind;
    rewrite (open_audio_tagged cls _ w f t Hf Hr Hb); reflexivity.
Qed.

Lemma str_eqb_neq (a b : str) : a <> b -> str_eqb a b = false.
Proof.
  intros H. destruct (str_eqb a b) eqn:E; [|reflexivity].
  apply str_eqb_eq in E. contradiction.
Qed.

Lemma read_current_differs (cls : AudioClass) (fn key g : str) (t : tagmap)
    (w : world) :
  genre_differs cls key g t ->
  exists cur,
    read_current (mkAudio cls fn (Some t)) key get_same w = (Ok cur, w) /\
    genre_eqb cur g = false.
Proof.
  unfold genre_differs, read_current, bind, audio_get. simpl.
  destruct (tag_lookup key t) as [text|].
  - destruct (presented cls key text) as [|v l]; [intros []|].
    intros Hv. exists (Some v). split; [reflexivity|].
    simpl. apply str_eqb_neq, Hv.
  - intros _. exists None. split; reflexivity.
Qed.

(** Assigning the genre through either interface stores it as the only
    value under the key, where the container's tags are not an ID3 tag. *)
Lemma assign_genre (cls : AudioClass) (fn key g : str) (t : tagmap)
    (setter : setter_t) (w : world) :
  (forall a g, stored (setter a g) = [g]) ->
  id3_backed cls = false ->
  let a := mkAudio cls fn (Some t) in
  (if has_tags a then tags_setitem a key (setter a g)
   else setitem a key (setter a g)) w
  = (Ok (mkAudio cls fn (Some (tag_store key [g] t))), w).
Proof.
  intros Hst Hid a. destruct (has_tags a); unfold tags_setitem, setitem; simpl;
    rewrite ?Hid, Hst; reflexivity.
Qed.

(** The update of a readable, writable file that carries another genre,
    without backup: the genre is written and the file is stamped. *)
Lemma set_genre_tag_writes (depth : nat) (p : Path) (g : str) (w : world)
    (cls : AudioClass) (key : str) (getter : getter_t) (setter : setter_t)
    (f : file) (t : tagmap) :
  handler_lookup (lower (path_suffix p)) FORMAT_HANDLERS
    = Some (cls, key, getter, setter) ->
  id3_backed cls = false ->
  w_fs w !! path_str p = Some f ->
  f_readable f = true -> f_writable f = true -> f_io_error f = false ->
  f_body f = Tagged t -> genre_differs cls key g t ->
  set_genre_tag depth p g false false w
    = (Ok true,
       mkWorld
         (<[path_str p :=
              mkFile true true (f_mode f) (f_chmod f) false
                (f_dir_writable f) (f_copy_failure f) (w_clock w)
                (Tagged (tag_store key [g] t))]>
            (w_fs w))
         (w_clock w + 1) (w_log w) (w_trace w)).
Proof.
  intros Hh Hid Hf Hr Hw Hio Hb Hdiff.
  destruct (handler_shape _ _ _ _ _ Hh) as [-> Hst].
  rewrite set_genre_tag_eq, Hh. unfold try_except, attempt. unfold bind at 1.
  rewrite (open_container_tagged _ cls p false w f t Hf Hr Hb).
  unfold compare_and_write. unfold bind at 1.
  destruct (read_current_differs cls (path_str p) key g t w Hdiff)
    as (cur & -> & ->).
  unfold bind at 1. unfold ret at 1. unfold bind at 1.
  rewrite (assign_genre cls (path_str p) key g t setter _ Hst Hid).
  unfold bind, save. simpl. rewrite Hf, Hw, Hio. simpl.
  rewrite Hr. reflexivity.
Qed.

(** C10: with [make_backup] set, a backup copy that fails (the directory
    does not admit it) is logged by [backup_file] and is otherwise ignored:
    update goes on, writes the genre and returns [True], and leaves the
    file as a run without backup leaves it.  At the backup path there is
    what the failed copy left: nothing when the copy was refused, so a
    successful update does not imply that a backup exists.  This holds for
    the containers that take the genre at all, those whose tags are not an
    ID3 tag. *)
Theorem failed_backup_does_not_stop_update (depth : nat) (p : Path) (g : str)
    (w : world) (cls : AudioClass) (key : str) (getter : getter_t)
    (setter : setter_t) (f : file) (t : tagmap) :
  handler_lookup (lower (path_suffix p)) FORMAT_HANDLERS
    = Some (cls, key, getter, setter) ->
  id3_backed cls = false ->
  w_fs w !! path_str p = Some f ->
  f_readable f = true -> f_writable f = true -> f_io_error f = false ->
  f_body f = Tagged t -> genre_differs cls key g t ->
  w_fs w !! backup_path p = None -> f_dir_writable f = false ->
  exists w',
    set_genre_tag depth p g false true w = (Ok true, w') /\
    w_log w'
      = w_log w ++ [ErrorBackup p (copy_failure_exn (f_copy_failure f))] /\
    w_fs w' !! backup_path p = copy_remains f (w_clock w) /\
    (f_copy_failure f = CopyRefused -> w_fs w' !! backup_path p = None) /\
    updated_file p key g w' /\
    w_fs w' !! path_str p
      = w_fs (snd (set_genre_tag depth p g false false w)) !! path_str p.
Proof.
  intros Hh Hid Hf Hr Hw Hio Hb Hdiff Hbak Hd.
  rewrite (set_genre_tag_writes depth p g w cls key getter setter f t)
    by assumption.
  destruct (handler_shape _ _ _ _ _ Hh) as [-> Hst].
  rewrite set_genre_tag_eq, Hh. unfold try_except, attempt. unfold bind at 1.
  rewrite (open_container_tagged _ cls p false w f t Hf Hr Hb).
  unfold compare_and_write. unfold bind at 1.
  destruct (read_current_differs cls (path_str p) key g t w Hdiff)
    as (cur & -> & ->).
  unfold bind at 1. unfold bind at 1.
  rewrite (backup_file_fails p w f Hbak Hf Hr Hd).
  unfold ret at 1. unfold bind at 1.
  rewrite (assign_genre cls (path_str p) key g t setter _ Hst Hid).
  assert (Hrem : copy_remains f (w_clock w) = None ->
                 f_copy_failure f = CopyRefused)
    by (unfold copy_remains; destruct (f_copy_failure f);
        [reflexivity | discriminate | discriminate]).
  assert (Href : f_copy_failure f = CopyRefused ->
                 copy_remains f (w_clock w) = None)
    by (unfold copy_remains; intros ->; reflexivity).
  unfold bind, save. simpl.
  destruct (copy_remains f (w_clock w)) as [d|] eqn:Hc; simpl;
    rewrite ?lookup_insert_ne by apply backup_path_ne;
    rewrite Hf, Hw, Hio; simpl;
    (eexists; split; [reflexivity|]); simpl;
    (split; [reflexivity|]);
    rewrite !lookup_insert_eq;
    rewrite ?(lookup_insert_ne _ (path_str p) (backup_path p))
      by (apply not_eq_sym, backup_path_ne);
    rewrite ?lookup_insert_eq, ?Hbak;
    (split; [reflexivity|]);
    (split; [intros E; first [ reflexivity | specialize (Href E); discriminate ] |]);
    (split; [| rewrite Hr; reflexivity]);
    unfold updated_file; simpl; eexists _, _;
    rewrite lookup_insert_eq; (split; [reflexivity|]); simpl;
    (repeat split; [assumption | apply tag_lookup_store]).
Qed.

Lemma failed_backup_does_not_stop_update_witness :
  let f := file_in_readonly_dir (Tagged []) in
  let w := one_file_world track_flac f in
  let g := lit "Rock - Goth" in
  (w_fs w !! path_str track_flac = Some f /\
   w_fs w !! backup_path track_flac = None /\ f_dir_writable f = false) /\
  exists w',
    set_genre_tag 2 track_flac g false true w = (Ok true, w') /\
    w_log w'
      = w_log w ++ [ErrorBackup track_flac (copy_failure_exn (f_copy_failure f))] /\
    w_fs w' !! backup_path track_flac = copy_remains f (w_clock w) /\
    (f_copy_failure f = CopyRefused ->
     w_fs w' !! backup_path track_flac = None) /\
    updated_file track_flac (lit "genre") g w' /\
    w_fs w' !! path_str track_flac
      = w_fs (snd (set_genre_tag 2 track_flac g false false w))
          !! path_str track_flac.
Proof.
  intros f w g. split; [repeat split; reflexivity|].
  apply (failed_backup_does_not_stop_update 2 track_flac g
           w FLAC (lit "genre") get_same set_list f []);
    first [reflexivity | exact I].
Defined.

(** ** The footprint of one attempt *)

Section Footprint.

Variable p : Path.

Lemma attrs_eq_refl (f : file) : attrs_eq f f.
Proof. repeat split. Qed.

Lemma attrs_eq_trans (f1 f2 f3 : file) :
  attrs_eq f1 f2 -> attrs_eq f2 f3 -> attrs_eq f1 f3.
Proof.
  unfold attrs_eq. intros (?&?&?&?&?&?) (?&?&?&?&?&?).
  repeat split; congruence.
Qed.

Lemma footprint_refl (w : world) : footprint p w w.
Proof.
  repeat split; auto.
  destruct (w_fs w !! path_str p); [apply attrs_eq_refl | exact I].
Qed.

Lemma footprint_trans (w1 w2 w3 : world) :
  footprint p w1 w2 -> footprint p w2 w3 -> footprint p w1 w3.
Proof.
  intros (T1 & O1 & A1 & B1) (T2 & O2 & A2 & B2).
  split; [congruence|]. split; [|split].
  - intros k H1 H2. rewrite O2, O1 by assumption. reflexivity.
  - destruct (w_fs w1 !! path_str p), (w_fs w2 !! path_str p),
      (w_fs w3 !! path_str p); try contradiction; try exact I.
    eapply attrs_eq_trans; eassumption.
  - intros d H. apply B2, B1, H.
Qed.

(** Log entries and trace-free changes of other fields do not count. *)
Lemma footprint_same_fs (w w' : world) :
  w_fs w' = w_fs w -> w_trace w' = w_trace w -> footprint p w w'.
Proof.
  intros Hfs Htr. unfold footprint. rewrite Hfs, Htr.
  repeat split; auto.
  destruct (w_fs w !! path_str p); [apply attrs_eq_refl | exact I].
Qed.

Lemma footprint_logging (e : log_event) (w : world) :
  footprint p w (snd (logging e w)).
Proof. apply footprint_same_fs; reflexivity. Qed.

Lemma footprint_open_audio (cls : AudioClass) (fn : str) (w : world) :
  footprint p w (snd (open_audio cls fn w)).
Proof. rewrite open_audio_world. apply footprint_refl. Qed.

Lemma footprint_save (a : audio) (w : world) :
  a_filename a = path_str p -> footprint p w (snd (save a w)).
Proof.
  intros Hn. unfold save. destruct (a_tags a) as [t|]; [|apply footprint_refl].
  rewrite Hn.
  destruct (w_fs w !! path_str p) as [f|] eqn:Hf; [|apply footprint_refl].
  destruct (f_writable f) eqn:Wr; simpl; [|apply footprint_refl].
  destruct (f_io_error f) eqn:Io; [apply footprint_refl|].
  unfold footprint. simpl. split; [reflexivity|]. split; [|split].
  - intros k H1 _. apply lookup_insert_ne. congruence.
  - rewrite Hf, lookup_insert_eq. repeat split; simpl; congruence.
  - intros d H. rewrite lookup_insert_ne; [assumption|].
    apply not_eq_sym, backup_path_ne.
Qed.

Lemma footprint_backup_file (w : world) :
  footprint p w (snd (backup_file p w)).
Proof.
  destruct (w_fs w !! backup_path p) as [d|] eqn:Hb.
  - rewrite (backup_file_present p w d Hb). apply footprint_refl.
  - assert (Hins : forall d, footprint p w
                       (set_fs (<[backup_path p := d]> (w_fs w)) w)).
    { intros d. unfold footprint. simpl. split; [reflexivity|].
      split; [|split].
      + intros k _ H2. apply lookup_insert_ne. congruence.
      + rewrite lookup_insert_ne by apply backup_path_ne.
        destruct (w_fs w !! path_str p); [apply attrs_eq_refl | exact I].
      + intros d' H. congruence. }
    destruct (backup_file_absent p w Hb)
      as [(f & _ & _ & _ & ->) | (e & w1 & -> & [-> | (d & ->)])]; simpl.
    + apply Hins.
    + apply footprint_same_fs; reflexivity.
    + eapply footprint_trans; [apply Hins|].
      apply footprint_same_fs; reflexivity.
Qed.

(** Opening the container: only the file itself may change (an MP3 file
    that gets a tag block), and the opened object names the file. *)
Lemma footprint_open_container (ext : str) (cls : AudioClass) (dry : bool)
    (w w' : world) (r : result (flow audio)) :
  open_container ext cls p dry w = (r, w') ->
  footprint p w w' /\
  forall a, r = Ok (Continue a) -> a_filename a = path_str p.
Proof.
  assert (Hdirect : forall w0 w1 r0,
    (a <- open_audio cls (path_str p) ;; ret (Continue a)) w0 = (r0, w1) ->
    footprint p w0 w1 /\
    forall a, r0 = Ok (Continue a) -> a_filename a = path_str p).
  { intros w0 w1 r0. unfold bind.
    pose proof (open_audio_world cls (path_str p) w0) as Hw.
    destruct (open_audio cls (path_str p) w0) as [[a|e] w2] eqn:Ho;
      simpl in Hw; subst w2; intros [= <- <-].
    - apply open_audio_Ok in Ho as (_ & Hn & _).
      split; [apply footprint_refl | intros a' [= <-]; exact Hn].
    - split; [apply footprint_refl | discriminate]. }
  unfold open_container. destruct (str_eqb ext (lit ".mp3")); [|apply Hdirect].
  unfold try_except.
  destruct ((a <- open_audio cls (path_str p) ;; ret (Continue a)) w)
    as [[s|e] w1] eqn:Ho.
  - intros [= <- <-]. eapply Hdirect, Ho.
  - apply Hdirect in Ho as [F1 _].
    destruct dry; [intros [= <- <-]; split; [exact F1 | discriminate]|].
    unfold bind at 1.
    pose proof (open_audio_world MP3 (path_str p) w1) as Hw.
    destruct (open_audio MP3 (path_str p) w1) as [[a1|e1] w2] eqn:Ho1;
      simpl in Hw; subst w2;
      [|intros [= <- <-]; split; [exact F1 | discriminate]].
    apply open_audio_Ok in Ho1 as (_ & Hn1 & _).
    unfold bind at 1. unfold add_tags.
    destruct (a_tags a1);
      [intros [= <- <-]; split; [exact F1 | discriminate]|].
    unfold ret at 1. unfold bind at 1.
    match goal with |- context [save ?a2 w1] =>
      pose proof (footprint_save a2 w1 Hn1) as F2;
      destruct (save a2 w1) as [[[]|e3] w4] end;
      simpl in F2;
      [|intros [= <- <-];
        split; [eapply footprint_trans; eassumption | discriminate]].
    intros H. apply Hdirect in H as [F3 Hn]. split; [|exact Hn].
    eapply footprint_trans; [exact F1|].
    eapply footprint_trans; [exact F2 | exact F3].
Qed.

Lemma footprint_compare_and_write (a : audio) (key : str) (getter : getter_t)
    (setter : setter_t) (g : str) (dry mb : bool) (w : world) :
  a_filename a = path_str p ->
  footprint p w (snd (compare_and_write a key getter setter p g dry mb w)).
Proof.
  intros Hn. unfold compare_and_write. unfold bind at 1.
  pose proof (read_current_world a key getter w) as Hw.
  destruct (read_current a key getter w) as [[cur|e] w0]; simpl in Hw;
    subst w0; [|apply footprint_refl].
  destruct (genre_eqb cur g); [apply footprint_refl|].
  destruct dry; [apply footprint_same_fs; reflexivity|].
  unfold bind at 1.
  assert (Hb : exists w2,
    (if mb then _ <- backup_file p ;; ret tt else ret tt) w = (Ok tt, w2) /\
    footprint p w w2).
  { destruct mb.
    - unfold bind. pose proof (footprint_backup_file w) as F.
      destruct (total_backup_file p w) as (b & w2 & E). rewrite E in *.
      exists w2. split; [reflexivity | exact F].
    - exists w. split; [reflexivity | apply footprint_refl]. }
  destruct Hb as (w2 & -> & F1).
  unfold bind at 1.
  assert (Hs : (exists a', a_filename a' = path_str p /\
    (if has_tags a then tags_setitem a key (setter a g)
     else setitem a key (setter a g)) w2 = (Ok a', w2))
    \/ exists e, (if has_tags a then tags_setitem a key (setter a g)
                  else setitem a key (setter a g)) w2 = (Raise e, w2)).
  { destruct (has_tags a).
    - unfold tags_setitem. destruct (a_tags a) as [t0|].
      + destruct (id3_backed (a_class a)).
        * right. eexists. reflexivity.
        * left. eexists. split; [|reflexivity]. exact Hn.
      + right. eexists. reflexivity.
    - left. eexists. split; [|reflexivity]. exact Hn. }
  destruct Hs as [(a' & Hn' & ->) | (e & ->)]; [|exact F1].
  unfold bind at 1. pose proof (footprint_save a' w2 Hn') as F2.
  destruct (save a' w2) as [[[]|e] w3]; simpl in F2;
    eapply footprint_trans; eassumption.
Qed.

Lemma footprint_attempt (ext : str) (h : handler) (g : str) (dry mb : bool)
    (w : world) :
  footprint p w (snd (attempt ext h p g dry mb w)).
Proof.
  destruct h as [[[cls key] getter] setter]. unfold attempt. unfold bind at 1.
  destruct (open_container ext cls p dry w) as [r w1] eqn:Ho.
  apply footprint_open_container in Ho as [F1 Hn].
  destruct r as [[b|a]|e]; simpl; try exact F1.
  eapply footprint_trans; [exact F1|].
  apply footprint_compare_and_write, Hn. reflexivity.
Qed.

End Footprint.

(** ** Permission failures

    Nothing that an attempt calls raises [PermissionError]: mutagen hands a
    refused permission on as its own error, and the backup step catches what
    the copy raises.  So the handler for [PermissionError] is never entered
    from an attempt. *)

Section NeverPermission.

Context {A B : Type}.

Lemma never_permission_ret (a : A) : never_permission (ret a).
Proof. intros w. reflexivity. Qed.

Lemma never_permission_raise (what : string) :
  never_permission (@raise A (OtherError what)).
Proof. intros w. reflexivity. Qed.

Lemma never_permission_bind (m : M A) (k : A -> M B) :
  never_permission m -> (forall a, never_permission (k a)) ->
  never_permission (bind m k).
Proof.
  intros Hm Hk w. unfold bind. specialize (Hm w).
  destruct (m w) as [[a|e] w']; simpl in *; [apply Hk | exact Hm].
Qed.

Lemma never_permission_try (m : M A) (h : exn -> M A) :
  (forall e, never_permission (h e)) -> never_permission (try_except m h).
Proof.
  intros Hh w. unfold try_except.
  destruct (m w) as [[a|e] w']; simpl; [reflexivity | apply Hh].
Qed.

Lemma never_permission_total (m : M A) : total m -> never_permission m.
Proof. intros Hm w. destruct (Hm w) as (a & w' & ->). reflexivity. Qed.

End NeverPermission.

Lemma never_permission_open_audio (cls : AudioClass) (fn : str) :
  never_permission (open_audio cls fn).
Proof.
  intros w. unfold open_audio.
  destruct (w_fs w !! fn) as [f|]; [|reflexivity].
  destruct (f_readable f); simpl; [|reflexivity].
  destruct (f_body f); [| destruct cls |]; reflexivity.
Qed.

Lemma never_permission_save (a : audio) : never_permission (save a).
Proof.
  intros w. unfold save. destruct (a_tags a); [|reflexivity].
  destruct (w_fs w !! a_filename a) as [f|]; [|reflexivity].
  destruct (f_writable f); simpl; [|reflexivity].
  destruct (f_io_error f); reflexivity.
Qed.

Lemma never_permission_add_tags (a : audio) : never_permission (add_tags a).
Proof. intros w. unfold add_tags. destruct (a_tags a); reflexivity. Qed.

Lemma never_permission_assign (a : audio) (key : str) (v : pyval) :
  never_permission (if has_tags a then tags_setitem a key v
                    else setitem a key v).
Proof.
  intros w. destruct (has_tags a); [|reflexivity].
  unfold tags_setitem. destruct (a_tags a); [|reflexivity].
  destruct (id3_backed (a_class a)); reflexivity.
Qed.

Lemma never_permission_read_current (a : audio) (key : str)
    (getter : getter_t) :
  never_permission (read_current a key getter).
Proof.
  assert (G : forall l, never_permission (get_first l))
    by (intros [|v l] w; reflexivity).
  unfold read_current.
  destruct (has_get a); [|destruct (has_tags a && tags_truthy a)];
    try apply never_permission_ret;
    (apply never_permission_bind; [apply G | intros; apply never_permission_ret]).
Qed.

Lemma never_permission_open_container (ext : str) (cls : AudioClass)
    (p : Path) (dry : bool) :
  never_permission (open_container ext cls p dry).
Proof.
  assert (D : forall c, never_permission
                (a <- open_audio c (path_str p) ;; ret (Continue a)))
    by (intros c; apply never_permission_bind;
        [apply never_permission_open_audio
        | intros; apply never_permission_ret]).
  unfold open_container. destruct (str_eqb ext (lit ".mp3")); [|apply D].
  apply never_permission_try. intros _.
  destruct dry; [apply never_permission_ret|].
  apply never_permission_bind; [apply never_permission_open_audio|intros a1].
  apply never_permission_bind; [apply never_permission_add_tags|intros a2].
  apply never_permission_bind; [apply never_permission_save|intros _].
  apply D.
Qed.

Lemma never_permission_compare_and_write (a : audio) (key : str)
    (getter : getter_t) (setter : setter_t) (p : Path) (g : str)
    (dry mb : bool) :
  never_permission (compare_and_write a key getter setter p g dry mb).
Proof.
  unfold compare_and_write.
  apply never_permission_bind;
    [apply never_permission_read_current | intros cur].
  destruct (genre_eqb cur g); [apply never_permission_ret|].
  destruct dry.
  - apply never_permission_total, total_log_then.
  - apply never_permission_bind.
    + destruct mb; [|apply never_permission_ret].
      apply never_permission_total, total_bind;
        [apply total_backup_file | intros; apply total_ret].
    + intros _. apply never_permission_bind;
        [apply never_permission_assign | intros a'].
      apply never_permission_bind; [apply never_permission_save | intros _].
      apply never_permission_ret.
Qed.

(** No attempt raises [PermissionError]. *)
Lemma never_permission_attempt (ext : str) (h : handler) (p : Path) (g : str)
    (dry mb : bool) :
  never_permission (attempt ext h p g dry mb).
Proof.
  destruct h as [[[cls key] getter] setter]. unfold attempt.
  apply never_permission_bind;
    [apply never_permission_open_container | intros [b|a]].
  - apply never_permission_ret.
  - apply never_permission_compare_and_write.
Qed.

(** What an update does with the outcome of its attempt: a value is
    returned as it is; an exception is logged and gives [False]. *)
Lemma set_genre_tag_after_attempt (depth : nat) (p : Path) (g : str)
    (dry mb : bool) (w : world) (h : handler) :
  handler_lookup (lower (path_suffix p)) FORMAT_HANDLERS = Some h ->
  set_genre_tag depth p g dry mb w
  = match attempt (lower (path_suffix p)) h p g dry mb w with
    | (Ok b, w1) => (Ok b, w1)
    | (Raise e, w1) =>
        (Ok false, logged DebugTraceback (logged (ErrorUpdating p e) w1))
    end.
Proof.
  intros Hh. rewrite set_genre_tag_eq, Hh. unfold try_except.
  pose proof (never_permission_attempt (lower (path_suffix p)) h p g dry mb w)
    as Hn.
  destruct (attempt (lower (path_suffix p)) h p g dry mb w) as [[b|e] w1];
    [reflexivity|].
  simpl in Hn. destruct e; [discriminate Hn | reflexivity | reflexivity].
Qed.

(** An update never changes a permission: no [chmod] is called, so the
    trace stays as it is. *)
Lemma set_genre_tag_trace (depth : nat) (p : Path) (g : str)
    (dry mb : bool) (w : world) :
  w_trace (snd (set_genre_tag depth p g dry mb w)) = w_trace w.
Proof.
  destruct (handler_lookup (lower (path_suffix p)) FORMAT_HANDLERS)
    as [h|] eqn:Hh.
  - rewrite (set_genre_tag_after_attempt depth p g dry mb w h Hh).
    pose proof (footprint_attempt p (lower (path_suffix p)) h g dry mb w)
      as (Ht & _).
    destruct (attempt (lower (path_suffix p)) h p g dry mb w) as [[b|e] w1];
      simpl in *; exact Ht.
  - rewrite set_genre_tag_eq, Hh. unfold bind.
    destruct (str_in _ _); reflexivity.
Qed.

(** A file that cannot be opened for reading: every container class
    fails on it with mutagen's own error. *)
Lemma open_audio_unreadable (cls : AudioClass) (fn : str) (w : world)
    (f : file) :
  w_fs w !! fn = Some f -> f_readable f = false ->
  open_audio cls fn w = (Raise (OtherError "MutagenError"), w).
Proof. intros Hf Hr. unfold open_audio. rewrite Hf, Hr. reflexivity. Qed.

Lemma set_genre_tag_unreadable (depth : nat) (p : Path) (g : str)
    (dry mb : bool) (w : world) (h : handler) (f : file) :
  handler_lookup (lower (path_suffix p)) FORMAT_HANDLERS = Some h ->
  w_fs w !! path_str p = Some f -> f_readable f = false ->
  dry = false \/ str_eqb (lower (path_suffix p)) (lit ".mp3") = false ->
  set_genre_tag depth p g dry mb w
  = (Ok false,
     logged DebugTraceback
       (logged (ErrorUpdating p (OtherError "MutagenError")) w)).
Proof.
  intros Hh Hf Hr Hd.
  rewrite (set_genre_tag_after_attempt depth p g dry mb w h Hh).
  destruct h as [[[cls key] getter] setter].
  unfold attempt. unfold bind at 1. unfold open_container.
  destruct (str_eqb (lower (path_suffix p)) (lit ".mp3")).
  - destruct Hd as [-> | Hd]; [|discriminate].
    unfold try_except, bind.
    rewrite !(open_audio_unreadable _ _ w f Hf Hr). reflexivity.
  - unfold bind. rewrite (open_audio_unreadable _ _ w f Hf Hr). reflexivity.
Qed.

(** A readable file that cannot be opened for writing: the save fails
    with mutagen's own error, after the backup step where one is asked
    for. *)
Lemma set_genre_tag_unwritable (depth : nat) (p : Path) (g : str)
    (w : world) (cls : AudioClass) (key : str) (getter : getter_t)
    (setter : setter_t) (f : file) (t : tagmap) :
  handler_lookup (lower (path_suffix p)) FORMAT_HANDLERS
    = Some (cls, key, getter, setter) ->
  id3_backed cls = false ->
  w_fs w !! path_str p = Some f ->
  f_readable f = true -> f_writable f = false ->
  f_body f = Tagged t -> genre_differs cls key g t ->
  set_genre_tag depth p g false false w
  = (Ok false,
     logged DebugTraceback
       (logged (ErrorUpdating p (OtherError "MutagenError")) w)).
Proof.
  intros Hh Hid Hf Hr Hw Hb Hdiff.
  rewrite (set_genre_tag_after_attempt depth p g false false w _ Hh).
  destruct (handler_shape _ _ _ _ _ Hh) as [-> Hst].
  unfold attempt. unfold bind at 1.
  rewrite (open_container_tagged _ cls p false w f t Hf Hr Hb).
  unfold compare_and_write. unfold bind at 1.
  destruct (read_current_differs cls (path_str p) key g t w Hdiff)
    as (cur & -> & ->).
  unfold bind at 1. unfold ret at 1. unfold bind at 1.
  rewrite (assign_genre cls (path_str p) key g t setter _ Hst Hid).
  unfold bind, save. simpl. rewrite Hf, Hw. reflexivity.
Qed.

(** C2: the recovery the claim describes does not take place.  A file
    that the process may not read, or may read and not write, makes the
    attempt fail with mutagen's own error, not with [PermissionError]; so
    the update takes the handler for other exceptions: it logs the error
    and returns [False] (in a dry run too, an [.mp3] file apart).  No
    permission is relaxed and nothing is retried: no update, of any file in
    any state, calls [chmod]. *)
Theorem permission_failure_is_not_recovered (depth : nat) (p : Path)
    (g : str) (w : world) (cls : AudioClass) (key : str) (getter : getter_t)
    (setter : setter_t) (f : file) :
  handler_lookup (lower (path_suffix p)) FORMAT_HANDLERS
    = Some (cls, key, getter, setter) ->
  w_fs w !! path_str p = Some f ->
  (f_readable f = false ->
   forall dry_run make_backup,
     dry_run = false \/
       str_eqb (lower (path_suffix p)) (lit ".mp3") = false ->
     set_genre_tag depth p g dry_run make_backup w
     = (Ok false,
        logged DebugTraceback
          (logged (ErrorUpdating p (OtherError "MutagenError")) w))) /\
  (forall t,
     f_readable f = true -> f_writable f = false ->
     id3_backed cls = false ->
     f_body f = Tagged t -> genre_differs cls key g t ->
     set_genre_tag depth p g false false w
     = (Ok false,
        logged DebugTraceback
          (logged (ErrorUpdating p (OtherError "MutagenError")) w))) /\
  (forall (depth' : nat) (g' : str) (dry_run make_backup : bool)
          (w' : world),
     w_trace (snd (set_genre_tag depth' p g' dry_run make_backup w'))
       = w_trace w').
Proof.
  intros Hh Hf. split; [|split].
  - intros Hr dry mb Hd. eapply set_genre_tag_unreadable; eassumption.
  - intros t Hr Hw Hid Hb Hdiff.
    eapply set_genre_tag_unwritable; eassumption.
  - intros depth' g' dry mb w'. apply set_genre_tag_trace.
Qed.

Lemma permission_failure_is_not_recovered_witness :
  let f := locked_file ChmodApplies (Tagged []) in
  let w := one_file_world track_flac f in
  let g := lit "Rock - Goth" in
  f_readable f = false /\
  set_genre_tag 2 track_flac g false false w
    = (Ok false,
       logged DebugTraceback
         (logged (ErrorUpdating track_flac (OtherError "MutagenError")) w)) /\
  w_fs (snd (set_genre_tag 2 track_flac g false false w)) = w_fs w /\
  w_trace (snd (set_genre_tag 2 track_flac g false false w)) = [].
Proof.
  intros f w g.
  pose proof (permission_failure_is_not_recovered 2 track_flac g w FLAC
                (lit "genre") get_same set_list f eq_refl eq_refl)
    as (H1 & _ & H3).
  split; [reflexivity|].
  split; [exact (H1 eq_refl false false (or_introl eq_refl))|].
  split; [rewrite (H1 eq_refl false false (or_introl eq_refl)); reflexivity|].
  exact (H3 2%nat g false false w).
Defined.

(** ** The outcomes of an update and how they are reported *)


(** A container that cannot be parsed: outside the dry-run of an MP3 file,
    the update logs the error and returns [False]. *)
Lemma set_genre_tag_garbage (depth : nat) (p : Path) (g : str) (dry mb : bool)
    (w : world) (h : handler) (f : file) :
  handler_lookup (lower (path_suffix p)) FORMAT_HANDLERS = Some h ->
  w_fs w !! path_str p = Some f -> f_readable f = true ->
  f_body f = Garbage ->
  dry = false \/ str_eqb (lower (path_suffix p)) (lit ".mp3") = false ->
  set_genre_tag depth p g dry mb w
    = (Ok false,
       logged DebugTraceback
         (logged (ErrorUpdating p (OtherError "HeaderNotFoundError")) w)).
Proof.
  intros Hh Hf Hr Hb Hd. rewrite set_genre_tag_eq, Hh.
  destruct h as [[[cls key] getter] setter].
  assert (Ho : forall c, open_audio c (path_str p) w
                         = (Raise (OtherError "HeaderNotFoundError"), w))
    by (intros c; unfold open_audio; rewrite Hf, Hr, Hb; reflexivity).
  unfold try_except at 1, attempt. unfold bind at 1. unfold open_container.
  destruct (str_eqb (lower (path_suffix p)) (lit ".mp3")).
  - destruct Hd as [-> | Hd]; [|discriminate].
    unfold try_except, bind. rewrite !Ho. reflexivity.
  - unfold bind. rewrite Ho. reflexivity.
Qed.

(** In the dry-run of an MP3 file the same container is reported as a file
    that would be updated. *)
Lemma set_genre_tag_garbage_mp3_dry (depth : nat) (p : Path) (g : str)
    (mb : bool) (w : world) (h : handler) (f : file) :
  handler_lookup (lower (path_suffix p)) FORMAT_HANDLERS = Some h ->
  w_fs w !! path_str p = Some f -> f_readable f = true ->
  f_body f = Garbage ->
  str_eqb (lower (path_suffix p)) (lit ".mp3") = true ->
  set_genre_tag depth p g true mb w = (Ok true, w).
Proof.
  intros Hh Hf Hr Hb Hd. rewrite set_genre_tag_eq, Hh.
  destruct h as [[[cls key] getter] setter].
  unfold try_except at 1, attempt. unfold bind at 1. unfold open_container.
  rewrite Hd. unfold try_except, bind, open_audio. rewrite Hf, Hr, Hb.
  reflexivity.
Qed.





(** The write of a genre that the container does not present yet, outside
    dry-run: it fails where the container's tags are an ID3 tag, where the
    file cannot be opened for writing and where the writing fails;
    otherwise it succeeds. *)
Lemma compare_and_write_outcome (cls : AudioClass) (key : str)
    (setter : setter_t) (p : Path) (g : str) (mb : bool) (w : world)
    (f : file) (t : tagmap) :
  (forall a g, stored (setter a g) = [g]) ->
  w_fs w !! path_str p = Some f ->
  genre_differs cls key g t ->
  fst (compare_and_write (mkAudio cls (path_str p) (Some t)) key get_same
         setter p g false mb w)
  = if id3_backed cls then Raise (OtherError "TypeError")
    else if negb (f_writable f) then Raise (OtherError "MutagenError")
    else if f_io_error f then Raise (OtherError "MutagenError")
    else Ok true.
Proof.
  intros Hst Hf Hdiff. unfold compare_and_write. unfold bind at 1.
  destruct (read_current_differs cls (path_str p) key g t w Hdiff)
    as (cur & -> & ->).
  unfold bind at 1.
  assert (Hb : exists w2,
    (if mb then _ <- backup_file p ;; ret tt else ret tt) w = (Ok tt, w2) /\
    w_fs w2 !! path_str p = Some f).
  { destruct mb.
    - unfold bind. pose proof (backup_file_keeps_file p w) as [Hk _].
      destruct (total_backup_file p w) as (b & w2 & E). rewrite E in *.
      exists w2. split; [reflexivity|]. simpl in Hk. congruence.
    - exists w. split; [reflexivity | assumption]. }
  destruct Hb as (w2 & -> & Hf2).
  unfold bind at 1.
  destruct (id3_backed cls) eqn:Hid.
  - assert (Ht : has_tags (mkAudio cls (path_str p) (Some t)) = true)
      by (destruct cls; first [discriminate Hid | reflexivity]).
    rewrite Ht. unfold tags_setitem. simpl. rewrite Hid. reflexivity.
  - rewrite (assign_genre cls (path_str p) key g t setter _ Hst Hid).
    unfold bind, save. simpl. rewrite Hf2.
    destruct (f_writable f); simpl; [|reflexivity].
    destruct (f_io_error f); reflexivity.
Qed.

Lemma set_genre_tag_write_outcome (depth : nat) (p : Path) (g : str)
    (mb : bool) (w : world) (cls : AudioClass) (key : str)
    (getter : getter_t) (setter : setter_t) (f : file) (t : tagmap) :
  handler_lookup (lower (path_suffix p)) FORMAT_HANDLERS
    = Some (cls, key, getter, setter) ->
  w_fs w !! path_str p = Some f -> f_readable f = true ->
  f_body f = Tagged t -> genre_differs cls key g t ->
  fst (set_genre_tag depth p g false mb w)
  = Ok (negb (id3_backed cls) && f_writable f && negb (f_io_error f)).
Proof.
  intros Hh Hf Hr Hb Hdiff.
  rewrite (set_genre_tag_after_attempt depth p g false mb w _ Hh).
  destruct (handler_shape _ _ _ _ _ Hh) as [-> Hst].
  unfold attempt. unfold bind at 1.
  rewrite (open_container_tagged _ cls p false w f t Hf Hr Hb).
  pose proof (compare_and_write_outcome cls key setter p g mb w f t Hst Hf
                Hdiff) as Hc.
  destruct (compare_and_write _ key get_same setter p g false mb w)
    as [[b|e] w1]; simpl in Hc |- *;
    destruct (id3_backed cls), (f_writable f), (f_io_error f);
    simpl in Hc |- *; congruence.
Qed.

(** In dry-run the same file is reported as one that would be updated,
    whatever its container and its permissions. *)
Lemma set_genre_tag_would_update (depth : nat) (p : Path) (g : str)
    (mb : bool) (w : world) (cls : AudioClass) (key : str)
    (getter : getter_t) (setter : setter_t) (f : file) (t : tagmap) :
  handler_lookup (lower (path_suffix p)) FORMAT_HANDLERS
    = Some (cls, key, getter, setter) ->
  w_fs w !! path_str p = Some f -> f_readable f = true ->
  f_body f = Tagged t -> genre_differs cls key g t ->
  exists cur,
    set_genre_tag depth p g true mb w
    = (Ok true, logged (InfoWouldUpdate p cur g) w).
Proof.
  intros Hh Hf Hr Hb Hdiff.
  rewrite (set_genre_tag_after_attempt depth p g true mb w _ Hh).
  destruct (handler_shape _ _ _ _ _ Hh) as [-> Hst].
  unfold attempt. unfold bind at 1.
  rewrite (open_container_tagged _ cls p true w f t Hf Hr Hb).
  unfold compare_and_write. unfold bind at 1.
  destruct (read_current_differs cls (path_str p) key g t w Hdiff)
    as (cur & -> & ->).
  exists cur. reflexivity.
Qed.



(** ** Backups *)

Section Backup.

Variable p : Path.

Lemma update_frame_refl (w : world) : update_frame p w w.
Proof. repeat split; auto. Qed.

Lemma update_frame_trans (w1 w2 w3 : world) :
  update_frame p w1 w2 -> update_frame p w2 w3 -> update_frame p w1 w3.
Proof.
  intros (O1 & S1 & B1) (O2 & S2 & B2). split; [|split].
  - intros k H1 H2. rewrite O2, O1 by assumption. reflexivity.
  - rewrite S2. exact S1.
  - intros d H. apply B2, B1, H.
Qed.

Lemma footprint_update_frame (w w' : world) :
  footprint p w w' -> update_frame p w w'.
Proof.
  intros (_ & O & A & B). split; [exact O|]. split; [|exact B].
  destruct (w_fs w !! path_str p), (w_fs w' !! path_str p);
    try contradiction; split; intros [x Hx]; try discriminate; eauto.
Qed.

Lemma update_frame_same_fs (w w' : world) :
  w_fs w' = w_fs w -> update_frame p w w'.
Proof. intros H. unfold update_frame. rewrite H. repeat split; auto. Qed.

Lemma update_frame_chmod (mode : N) (w : world) :
  update_frame p w (snd (os_chmod (path_str p) mode w)).
Proof.
  unfold os_chmod, bind, emit. simpl.
  destruct (w_fs w !! path_str p) as [f|] eqn:Hf;
    [|apply update_frame_same_fs; reflexivity].
  destruct (f_chmod f); try (apply update_frame_same_fs; reflexivity).
  unfold update_frame. simpl. split; [|split].
  - intros k H1 _. apply lookup_insert_ne. congruence.
  - rewrite lookup_insert_eq, Hf. split; eauto.
  - intros d H. rewrite lookup_insert_ne; [exact H|].
    apply not_eq_sym, backup_path_ne.
Qed.

(** A whole update changes no file but [p] and creates none but a backup of
    [p]; a backup that exists is left as it is. *)
Lemma update_frame_set_genre_tag (depth : nat) (g : str) (dry mb : bool)
    (w : world) :
  update_frame p w (snd (set_genre_tag depth p g dry mb w)).
Proof.
  revert w. induction depth as [|depth IH]; intros w;
    rewrite set_genre_tag_eq;
    (destruct (handler_lookup _ _) as [h|];
     [| unfold bind; destruct (str_in _ _);
        apply update_frame_same_fs; reflexivity ]);
    unfold try_except at 1;
    pose proof (footprint_attempt p (lower (path_suffix p)) h g dry mb w) as F;
    apply footprint_update_frame in F;
    (destruct (attempt _ h p g dry mb w) as [[b|e] w1]; simpl in F;
     [exact F|]);
    (destruct (is_PermissionError e);
     [| eapply update_frame_trans; [exact F|];
        apply update_frame_same_fs; reflexivity ]);
    (destruct dry;
     [ eapply update_frame_trans; [exact F|];
       apply update_frame_same_fs; reflexivity |]);
    unfold try_except; unfold bind at 1;
    pose proof (update_frame_chmod 436 w1) as C;
    (destruct (os_chmod (path_str p) 436 w1) as [[[]|e'] w2]; simpl in C;
     [| eapply update_frame_trans; [exact F|];
        eapply update_frame_trans; [exact C|];
        apply update_frame_same_fs; reflexivity ]).
  - eapply update_frame_trans; [exact F|].
    eapply update_frame_trans; [exact C|].
    apply update_frame_same_fs; reflexivity.
  - pose proof (IH w2) as R.
    destruct (set_genre_tag depth p g false mb w2) as [[b|e'] w3];
      simpl in R;
      (eapply update_frame_trans; [exact F|];
       eapply update_frame_trans; [exact C|]);
      [exact R|].
    eapply update_frame_trans; [exact R|].
    apply update_frame_same_fs; reflexivity.
Qed.

(** An existing backup is never overwritten. *)
Lemma set_genre_tag_keeps_backup (depth : nat) (g : str) (dry mb : bool)
    (w : world) (d : file) :
  w_fs w !! backup_path p = Some d ->
  w_fs (snd (set_genre_tag depth p g dry mb w)) !! backup_path p = Some d.
Proof. apply update_frame_set_genre_tag. Qed.

Lemma backup_file_copies (w : world) (f : file) :
  w_fs w !! backup_path p = None -> w_fs w !! path_str p = Some f ->
  f_readable f = true -> f_dir_writable f = true ->
  backup_file p w = (Ok true, set_fs (<[backup_path p := f]> (w_fs w)) w).
Proof.
  intros Hb Hf Hr Hd.
  unfold backup_file, try_except, bind, os_path_exists, shutil_copy2.
  rewrite Hb. simpl. rewrite Hf, Hb, Hr, Hd. reflexivity.
Qed.

Lemma attempt_unreadable (ext : str) (h : handler) (g : str) (mb : bool)
    (w : world) (f : file) :
  w_fs w !! path_str p = Some f -> f_readable f = false ->
  attempt ext h p g false mb w = (Raise (OtherError "MutagenError"), w).
Proof.
  intros Hf Hr. destruct h as [[[cls key] getter] setter].
  assert (Ho : forall c, open_audio c (path_str p) w
                         = (Raise (OtherError "MutagenError"), w))
    by (intros c; unfold open_audio; rewrite Hf, Hr; reflexivity).
  unfold attempt, open_container. unfold bind at 1.
  destruct (str_eqb ext (lit ".mp3")); unfold try_except, bind;
    rewrite !Ho; reflexivity.
Qed.

(** One attempt on a file with a tag block, with [make_backup] set: if it
    writes the genre, a backup holds the state the file had before; if it
    does not, the file still has that state. *)
Lemma attempt_backs_up (ext : str) (cls : AudioClass) (key : str)
    (setter : setter_t) (g : str) (w w' : world) (r : result bool)
    (t0 : tagmap) (m : N) :
  (forall a g, stored (setter a g) = [g]) ->
  pristine p (Tagged t0) m w ->
  attempt ext (cls, key, get_same, setter) p g false true w = (r, w') ->
  match r with
  | Ok true => backed_up p (Tagged t0) m w'
  | _ => pristine p (Tagged t0) m w'
  end.
Proof.
  intros Hst HP Ha. pose proof HP as [(f & Hf & Hb & Hm & Hd) Hbak].
  destruct (f_readable f) eqn:Hr.
  2:{ rewrite (attempt_unreadable ext _ g true w f Hf Hr) in Ha.
      injection Ha as <- <-. exact HP. }
  unfold attempt in Ha. unfold bind at 1 in Ha.
  rewrite (open_container_tagged ext cls p false w f t0 Hf Hr Hb) in Ha.
  unfold compare_and_write in Ha. unfold bind at 1 in Ha.
  pose proof (read_current_world (mkAudio cls (path_str p) (Some t0)) key
                get_same w) as Hw.
  destruct (read_current _ key get_same w) as [[cur|e] w0]; simpl in Hw;
    subst w0; [|injection Ha as <- <-; exact HP].
  destruct (genre_eqb cur g); [injection Ha as <- <-; exact HP|].
  unfold bind at 1 in Ha.
  assert (Hbk : exists wb,
    (_ <- backup_file p ;; ret tt) w = (Ok tt, wb) /\
    w_fs wb !! path_str p = Some f /\ w_clock wb = w_clock w /\
    backed_up p (Tagged t0) m wb).
  { unfold bind. destruct Hbak as [Hn | (fb & Hfb & Hbb & Hbm)].
    - rewrite (backup_file_copies w f Hn Hf Hr Hd). eexists.
      split; [reflexivity|]. simpl.
      split; [rewrite lookup_insert_ne by apply backup_path_ne; exact Hf|].
      split; [reflexivity|].
      exists f. simpl. rewrite lookup_insert_eq. auto.
    - rewrite (backup_file_present p w fb Hfb). exists w.
      split; [reflexivity|]. split; [exact Hf|]. split; [reflexivity|].
      exists fb. auto. }
  destruct Hbk as (wb & Hstep & Hfb & Hck & HB).
  rewrite Hstep in Ha. unfold bind at 1 in Ha.
  assert (HPb : pristine p (Tagged t0) m wb).
  { split; [exists f; auto | right; exact HB]. }
  destruct (assign_genre_outcome (mkAudio cls (path_str p) (Some t0)) key g
              setter wb Hst) as [(t1 & _ & E) | (what & E)];
    rewrite E in Ha; [|injection Ha as <- <-; exact HPb].
  unfold bind, save in Ha. simpl in Ha. rewrite Hfb in Ha.
  destruct (f_writable f); simpl in Ha;
    [|injection Ha as <- <-; exact HPb].
  destruct (f_io_error f); injection Ha as <- <-; [exact HPb|].
  destruct HB as (fb & Hfb' & Hbb & Hbm). exists fb. simpl.
  rewrite lookup_insert_ne by (apply not_eq_sym, backup_path_ne). auto.
Qed.

Lemma pristine_same_fs (b : container) (m : N) (w w' : world) :
  w_fs w' = w_fs w -> pristine p b m w -> pristine p b m w'.
Proof.
  intros H. unfold pristine, backed_up. rewrite H. auto.
Qed.

Lemma pristine_chmod (b : container) (m : N) (mode : N) (w : world) :
  pristine p b m w -> pristine p b m (snd (os_chmod (path_str p) mode w)).
Proof.
  intros HP. pose proof HP as [(f & Hf & Hb & Hm & Hd) Hbak].
  unfold os_chmod, bind, emit. simpl. rewrite Hf.
  destruct (f_chmod f);
    try (eapply pristine_same_fs; [|exact HP]; reflexivity).
  unfold pristine, backed_up. simpl. rewrite lookup_insert_eq.
  rewrite lookup_insert_ne by (apply not_eq_sym, backup_path_ne).
  split; [eexists; split; [reflexivity|]; simpl; auto | exact Hbak].
Qed.

(** A successful update with [make_backup] set, started on a file with a
    tag block and no backup, leaves a backup of the state before. *)
Lemma set_genre_tag_backs_up (depth : nat) (g : str) (w w1 : world)
    (t0 : tagmap) (m : N) :
  pristine p (Tagged t0) m w ->
  set_genre_tag depth p g false true w = (Ok true, w1) ->
  backed_up p (Tagged t0) m w1.
Proof.
  revert w. induction depth as [|depth IH]; intros w HP;
    rewrite set_genre_tag_eq;
    (destruct (handler_lookup _ _) as [[[[cls key] getter] setter]|] eqn:Hh;
     [|unfold bind; destruct (str_in _ _); simpl; discriminate]);
    destruct (handler_shape _ _ _ _ _ Hh) as [-> Hst];
    unfold try_except at 1;
    (destruct (attempt _ _ p g false true w) as [r w0] eqn:Ha);
    apply (attempt_backs_up _ _ _ _ _ _ _ _ t0 m Hst HP) in Ha;
    (destruct r as [[|]|e];
     [intros [= <-]; exact Ha | discriminate |]);
    (destruct (is_PermissionError e);
     [| unfold bind, logging, ret; discriminate]);
    unfold try_except; unfold bind at 1;
    pose proof (pristine_chmod _ m 436 w0 Ha) as HC;
    (destruct (os_chmod (path_str p) 436 w0) as [[[]|e'] w2]; simpl in HC;
     [| unfold bind, logging, ret; discriminate]).
  - unfold raise, bind, logging, ret. discriminate.
  - destruct (set_genre_tag depth p g false true w2) as [[b|e'] w3] eqn:Hr.
    + intros [= -> <-]. eapply IH; eassumption.
    + unfold bind, logging, ret. discriminate.
Qed.

End Backup.

(** C7, as stated, fails.  With a read-only directory the copy fails on
    both runs (the failure is only logged), so two modifying runs leave no
    backup at all.  And an MP3 file without tag block is given an empty tag
    block, which is saved, before the backup step runs: its one backup
    holds the file with the empty tag block, not the file as it was. *)
Lemma backup_missing_or_not_original :
  let g1 := lit "Rock - Goth" in
  let g2 := lit "Rock" in
  let run (p : Path) (g : str) (w : world) :=
    set_genre_tag 3 p g false true w in
  let wa := one_file_world track_flac (file_in_readonly_dir (Tagged [])) in
  let wb := one_file_world track_mp3 (plain_file Untagged) in
  (fst (run track_flac g1 wa) = Ok true /\
   fst (run track_flac g2 (snd (run track_flac g1 wa))) = Ok true /\
   w_fs (snd (run track_flac g2 (snd (run track_flac g1 wa))))
     !! backup_path track_flac = None) /\
  (fst (run track_mp3 g1 wb) = Ok true /\
   fst (run track_mp3 g2 (snd (run track_mp3 g1 wb))) = Ok true /\
   f_body <$> w_fs wb !! path_str track_mp3 = Some Untagged /\
   f_body <$> w_fs (snd (run track_mp3 g2 (snd (run track_mp3 g1 wb))))
                !! backup_path track_mp3 = Some (Tagged [])).
Proof. vm_compute. repeat split. Qed.

(** C7 (amended): with [make_backup] set and dry-run off, the backup step
    copies the file to its backup path only if nothing exists there.  For
    a file that has a tag block, whose directory admits new files and that
    has no backup yet, two consecutive runs that both modify it leave
    exactly one new file, the backup; it is written by the first run, not
    touched by the second (nor by any later update), and holds the content
    and modification time the file had before the first run. *)
Theorem backup_once (d1 d2 : nat) (p : Path) (g1 g2 : str)
    (w0 w1 w2 : world) (f0 : file) (t0 : tagmap) :
  w_fs w0 !! path_str p = Some f0 ->
  f_body f0 = Tagged t0 ->
  f_dir_writable f0 = true ->
  w_fs w0 !! backup_path p = None ->
  set_genre_tag d1 p g1 false true w0 = (Ok true, w1) ->
  set_genre_tag d2 p g2 false true w1 = (Ok true, w2) ->
  exists fb,
    w_fs w1 !! backup_path p = Some fb /\
    w_fs w2 !! backup_path p = Some fb /\
    f_body fb = f_body f0 /\ f_mtime fb = f_mtime f0 /\
    (forall k, k <> backup_path p ->
               (is_Some (w_fs w2 !! k) <-> is_Some (w_fs w0 !! k))) /\
    (forall d3 g3 dry mb,
       w_fs (snd (set_genre_tag d3 p g3 dry mb w2)) !! backup_path p
         = Some fb).
Proof.
  intros Hf Hb Hd Hn H1 H2.
  assert (HP : pristine p (Tagged t0) (f_mtime f0) w0)
    by (split; [exists f0; auto | left; exact Hn]).
  destruct (set_genre_tag_backs_up p d1 g1 w0 w1 t0 _ HP H1)
    as (fb & Hfb & Hbb & Hbm).
  pose proof (set_genre_tag_keeps_backup p d2 g2 false true w1 fb Hfb) as Hfb2.
  rewrite H2 in Hfb2. simpl in Hfb2.
  exists fb. repeat split; try congruence.
  - intros Hk. 
    pose proof (update_frame_set_genre_tag p d1 g1 false true w0) as (O1 & S1 & _).
    pose proof (update_frame_set_genre_tag p d2 g2 false true w1) as (O2 & S2 & _).
    rewrite H1 in O1, S1. rewrite H2 in O2, S2. simpl in *.
    destruct (decide (k = path_str p)) as [->|Hne].
    + apply S1, S2, Hk.
    + rewrite <- O1, <- O2 by assumption. exact Hk.
  - intros Hk.
    pose proof (update_frame_set_genre_tag p d1 g1 false true w0) as (O1 & S1 & _).
    pose proof (update_frame_set_genre_tag p d2 g2 false true w1) as (O2 & S2 & _).
    rewrite H1 in O1, S1. rewrite H2 in O2, S2. simpl in *.
    destruct (decide (k = path_str p)) as [->|Hne].
    + apply S2, S1, Hk.
    + rewrite O2, O1 by assumption. exact Hk.
  - intros d3 g3 dry mb. apply set_genre_tag_keeps_backup, Hfb2.
Qed.

Lemma backup_once_witness :
  let g1 := lit "Rock - Goth" in
  let g2 := lit "Rock" in
  let f0 := plain_file (Tagged []) in
  let w0 := one_file_world track_flac f0 in
  let w1 := snd (set_genre_tag 3 track_flac g1 false true w0) in
  let w2 := snd (set_genre_tag 3 track_flac g2 false true w1) in
  (w_fs w0 !! backup_path track_flac = None /\
   set_genre_tag 3 track_flac g1 false true w0 = (Ok true, w1) /\
   set_genre_tag 3 track_flac g2 false true w1 = (Ok true, w2)) /\
  exists fb,
    w_fs w1 !! backup_path track_flac = Some fb /\
    w_fs w2 !! backup_path track_flac = Some fb /\
    f_body fb = f_body f0 /\ f_mtime fb = f_mtime f0 /\
    (forall k, k <> backup_path track_flac ->
               (is_Some (w_fs w2 !! k) <-> is_Some (w_fs w0 !! k))) /\
    (forall d3 g3 dry mb,
       w_fs (snd (set_genre_tag d3 track_flac g3 dry mb w2))
         !! backup_path track_flac = Some fb).
Proof.
  intros g1 g2 f0 w0 w1 w2.
  split; [repeat split; vm_compute; reflexivity|].
  apply (backup_once 3 3 track_flac g1 g2 w0 w1 w2 f0 []);
    vm_compute; reflexivity.
Defined.


(** ** Outcomes do not depend on the log *)

Lemma same_files_refl (w : world) : same_files w w.
Proof. split; reflexivity. Qed.

Lemma same_files_sym (w1 w2 : world) : same_files w1 w2 -> same_files w2 w1.
Proof. intros [H1 H2]. split; congruence. Qed.

Lemma same_files_trans (w1 w2 w3 : world) :
  same_files w1 w2 -> same_files w2 w3 -> same_files w1 w3.
Proof. intros [H1 H2] [H3 H4]. split; congruence. Qed.

Section FilesOnly.

Context {A B : Type}.

Lemma files_only_ret (a : A) : files_only (ret a).
Proof. intros w1 w2 H. split; [reflexivity | exact H]. Qed.

Lemma files_only_raise (e : exn) : files_only (@raise A e).
Proof. intros w1 w2 H. split; [reflexivity | exact H]. Qed.

Lemma files_only_bind (m : M A) (k : A -> M B) :
  files_only m -> (forall a, files_only (k a)) -> files_only (bind m k).
Proof.
  intros Hm Hk w1 w2 H. unfold bind. destruct (Hm w1 w2 H) as [Hr Hw].
  destruct (m w1) as [[a1|e1] w1'], (m w2) as [[a2|e2] w2'];
    simpl in Hr, Hw; try discriminate.
  - injection Hr as ->. apply Hk, Hw.
  - injection Hr as ->. split; [reflexivity | exact Hw].
Qed.

Lemma files_only_try (m : M A) (h : exn -> M A) :
  files_only m -> (forall e, files_only (h e)) ->
  files_only (try_except m h).
Proof.
  intros Hm Hh w1 w2 H. unfold try_except. destruct (Hm w1 w2 H) as [Hr Hw].
  destruct (m w1) as [[a1|e1] w1'], (m w2) as [[a2|e2] w2'];
    simpl in Hr, Hw; try discriminate.
  - injection Hr as ->. split; [reflexivity | exact Hw].
  - injection Hr as ->. apply Hh, Hw.
Qed.

End FilesOnly.

Lemma files_only_logging (e : log_event) : files_only (logging e).
Proof. intros w1 w2 H. split; [reflexivity | exact H]. Qed.

Lemma files_only_emit (e : event) : files_only (emit e).
Proof. intros w1 w2 H. split; [reflexivity | exact H]. Qed.

Lemma files_only_log_then {A} (e : log_event) (a : A) :
  files_only (logging e ;; ret a).
Proof.
  apply files_only_bind; [apply files_only_logging|].
  intros; apply files_only_ret.
Qed.

Lemma files_only_open_audio (cls : AudioClass) (fn : str) :
  files_only (open_audio cls fn).
Proof.
  intros w1 w2 H. rewrite !open_audio_world. split; [|exact H].
  destruct H as [Hfs _]. unfold open_audio. rewrite Hfs.
  destruct (w_fs w2 !! fn) as [f|]; [|reflexivity].
  destruct (f_readable f); simpl; [|reflexivity].
  destruct (f_body f); [| destruct cls |]; reflexivity.
Qed.

Lemma files_only_get_first (values : list (option str)) :
  files_only (get_first values).
Proof.
  destruct values; first [apply files_only_ret | apply files_only_raise].
Qed.

Lemma files_only_tags_setitem (a : audio) (key : str) (v : pyval) :
  files_only (tags_setitem a key v).
Proof.
  unfold tags_setitem. destruct (a_tags a); [|apply files_only_raise].
  destruct (id3_backed (a_class a));
    first [apply files_only_ret | apply files_only_raise].
Qed.

Lemma files_only_setitem (a : audio) (key : str) (v : pyval) :
  files_only (setitem a key v).
Proof. apply files_only_ret. Qed.

Lemma files_only_add_tags (a : audio) : files_only (add_tags a).
Proof.
  unfold add_tags. destruct (a_tags a);
    first [apply files_only_ret | apply files_only_raise].
Qed.

Lemma files_only_save (a : audio) : files_only (save a).
Proof.
  unfold save. destruct (a_tags a) as [t|]; [|apply files_only_ret].
  intros w1 w2 [Hfs Hck]. rewrite Hfs, Hck.
  destruct (w_fs w2 !! a_filename a) as [f|]; [|same_outcome].
  destruct (f_writable f); simpl; [|same_outcome].
  destruct (f_io_error f); same_outcome.
Qed.

Lemma files_only_os_chmod (p : str) (mode : N) : files_only (os_chmod p mode).
Proof.
  unfold os_chmod. apply files_only_bind; [apply files_only_emit | intros _].
  intros w1 w2 [Hfs Hck]. rewrite Hfs.
  destruct (w_fs w2 !! p) as [f|]; [|same_outcome].
  destruct (f_chmod f); same_outcome.
Qed.

Lemma files_only_os_path_exists (p : str) : files_only (os_path_exists p).
Proof.
  intros w1 w2 [Hfs Hck]. unfold os_path_exists. rewrite Hfs. same_outcome.
Qed.

Lemma files_only_shutil_copy2 (src dst : str) :
  files_only (shutil_copy2 src dst).
Proof.
  intros w1 w2 [Hfs Hck]. unfold shutil_copy2. rewrite Hfs.
  destruct (w_fs w2 !! src) as [f|]; [|same_outcome].
  destruct (f_readable f); simpl; [|same_outcome].
  destruct (w_fs w2 !! dst) as [d|].
  - destruct (f_writable d); simpl; [|same_outcome].
    destruct (f_io_error d); same_outcome.
  - destruct (f_dir_writable f); [same_outcome|]. rewrite Hck.
    destruct (copy_remains f (w_clock w2)); same_outcome.
Qed.

Lemma files_only_backup_file (p : Path) : files_only (backup_file p).
Proof.
  unfold backup_file. apply files_only_try.
  - apply files_only_bind; [apply files_only_os_path_exists | intros b].
    apply files_only_bind; [|intros; apply files_only_ret].
    destruct (negb b); [apply files_only_shutil_copy2 | apply files_only_ret].
  - intros e. apply files_only_log_then.
Qed.

Lemma files_only_open_container (ext : str) (cls : AudioClass) (p : Path)
    (dry : bool) :
  files_only (open_container ext cls p dry).
Proof.
  assert (Hd : files_only
            (a <- open_audio cls (path_str p) ;; ret (Continue a)))
    by (apply files_only_bind; [apply files_only_open_audio |
                                intros; apply files_only_ret]).
  unfold open_container. destruct (str_eqb ext (lit ".mp3")); [|exact Hd].
  apply files_only_try; [exact Hd | intros _].
  destruct dry; [apply files_only_ret|].
  apply files_only_bind; [apply files_only_open_audio | intros a1].
  apply files_only_bind; [apply files_only_add_tags | intros a2].
  apply files_only_bind; [apply files_only_save | intros _].
  exact Hd.
Qed.

Lemma files_only_read_current (a : audio) (key : str) (getter : getter_t) :
  files_only (read_current a key getter).
Proof.
  unfold read_current.
  destruct (has_get a); [|destruct (has_tags a && tags_truthy a)];
    try apply files_only_ret;
    (apply files_only_bind; [apply files_only_get_first |
                             intros; apply files_only_ret]).
Qed.

Lemma files_only_compare_and_write (a : audio) (key : str)
    (getter : getter_t) (setter : setter_t) (p : Path) (g : str)
    (dry mb : bool) :
  files_only (compare_and_write a key getter setter p g dry mb).
Proof.
  unfold compare_and_write.
  apply files_only_bind; [apply files_only_read_current | intros cur].
  destruct (genre_eqb cur g); [apply files_only_ret|].
  destruct dry; [apply files_only_log_then|].
  apply files_only_bind.
  { destruct mb; [|apply files_only_ret].
    apply files_only_bind; [apply files_only_backup_file |
                            intros; apply files_only_ret]. }
  intros _. apply files_only_bind.
  { destruct (has_tags a);
      [apply files_only_tags_setitem | apply files_only_setitem]. }
  intros a'. apply files_only_bind; [apply files_only_save |
                                     intros; apply files_only_ret].
Qed.

Lemma files_only_attempt (ext : str) (h : handler) (p : Path) (g : str)
    (dry mb : bool) :
  files_only (attempt ext h p g dry mb).
Proof.
  destruct h as [[[cls key] getter] setter]. unfold attempt.
  apply files_only_bind; [apply files_only_open_container | intros [b|a]].
  - apply files_only_ret.
  - apply files_only_compare_and_write.
Qed.

Lemma files_only_set_genre_tag (depth : nat) (p : Path) (g : str)
    (dry mb : bool) :
  files_only (set_genre_tag depth p g dry mb).
Proof.
  induction depth as [|depth IH]; rewrite set_genre_tag_eq;
    (destruct (handler_lookup _ _) as [h|];
     [| apply files_only_bind; [|intros; apply files_only_ret];
        destruct (str_in _ _); apply files_only_logging ]);
    (apply files_only_try; [apply files_only_attempt | intros e]);
    (destruct (is_PermissionError e);
     [| apply files_only_bind; [apply files_only_logging |
                                intros; apply files_only_log_then] ]);
    (destruct dry; [apply files_only_log_then|]);
    (apply files_only_try; [|intros; apply files_only_log_then]);
    (apply files_only_bind; [apply files_only_os_chmod | intros _]).
  - apply files_only_raise.
  - exact IH.
Qed.

Lemma files_only_get_genre_from_path (p base : Path) :
  files_only (get_genre_from_path p base).
Proof.
  unfold get_genre_from_path. apply files_only_try.
  - destruct (relative_to p base) as [[|x parts]|];
      first [apply files_only_ret | apply files_only_raise].
  - intros e. apply files_only_log_then.
Qed.

Lemma files_only_process_file (depth : nat) (args : worker_args) :
  files_only (process_file depth args).
Proof.
  destruct args as [[[[p base] dry] mb] filter]. unfold process_file.
  apply files_only_bind; [apply files_only_get_genre_from_path | intros genre].
  destruct (negb (truthy genre)); [apply files_only_ret|].
  destruct (truthy filter && _); [apply files_only_ret|].
  apply files_only_bind; [apply files_only_set_genre_tag | intros [|]];
    apply files_only_ret.
Qed.

Lemma files_only_run_worker (depth : nat) (args : worker_args) :
  files_only (run_worker depth args).
Proof.
  unfold run_worker.
  apply files_only_bind; [apply files_only_emit | intros _].
  apply files_only_process_file.
Qed.

Lemma files_only_pool_map (depth : nat) (batch : list worker_args) :
  files_only (pool_map (run_worker depth) batch).
Proof.
  induction batch as [|a batch IH]; simpl; [apply files_only_ret|].
  apply files_only_bind; [apply files_only_run_worker | intros y].
  apply files_only_bind; [exact IH | intros; apply files_only_ret].
Qed.

(** ** The batch: one outcome per file, whatever happens to the others *)

Lemma pool_map_app (depth : nat) (xs ys : list worker_args)
    (w w1 w2 : world) (rs1 rs2 : list (str * str)) :
  pool_map (run_worker depth) xs w = (Ok rs1, w1) ->
  pool_map (run_worker depth) ys w1 = (Ok rs2, w2) ->
  pool_map (run_worker depth) (xs ++ ys) w = (Ok (rs1 ++ rs2), w2).
Proof.
  revert w rs1. induction xs as [|x xs IH]; intros w rs1; simpl.
  - intros [= <- <-] H. exact H.
  - intros H1 H2. unfold bind in H1.
    destruct (run_worker depth x w) as [[r|e] w0] eqn:Hx; [|discriminate].
    destruct (pool_map (run_worker depth) xs w0) as [[rs|e] w3] eqn:Hxs;
      [|discriminate].
    injection H1 as <- <-. unfold bind.
    rewrite Hx, (IH _ _ Hxs H2). reflexivity.
Qed.

Lemma pool_map_length (depth : nat) (batch : list worker_args) (w w' : world)
    (rs : list (str * str)) :
  pool_map (run_worker depth) batch w = (Ok rs, w') ->
  length rs = length batch.
Proof.
  intros H. destruct (pool_map_returns depth batch w) as (rs' & w'' & E & Hm).
  rewrite E in H. injection H as -> ->.
  apply (f_equal (@length str)) in Hm.
  rewrite !length_map in Hm. exact Hm.
Qed.

(** A file whose container cannot be parsed is processed without any
    change to the files. *)
Lemma container_error_changes_no_file (depth : nat) (p base : Path)
    (dry mb : bool) (filter : option str) (w : world) (h : handler)
    (f : file) :
  handler_lookup (lower (path_suffix p)) FORMAT_HANDLERS = Some h ->
  w_fs w !! path_str p = Some f -> f_readable f = true ->
  f_body f = Garbage ->
  same_files (snd (run_worker depth (p, base, dry, mb, filter) w)) w.
Proof.
  intros Hh Hf Hr Hb.
  assert (Hs : forall g w0, w_fs w0 = w_fs w -> w_clock w0 = w_clock w ->
    same_files (snd (set_genre_tag depth p g dry mb w0)) w).
  { intros g w0 Hfs Hck. rewrite <- Hfs in Hf.
    destruct (str_eqb (lower (path_suffix p)) (lit ".mp3")) eqn:E;
      [destruct dry|].
    - rewrite (set_genre_tag_garbage_mp3_dry depth p g mb w0 h f); auto.
      split; assumption.
    - rewrite (set_genre_tag_garbage depth p g false mb w0 h f); auto.
      split; assumption.
    - rewrite (set_genre_tag_garbage depth p g dry mb w0 h f); auto.
      split; assumption. }
  unfold run_worker, process_file, bind, emit. simpl.
  match goal with |- context [get_genre_from_path p base ?w0] =>
    pose proof (keeps_get_genre_from_path p base w0) as [K1 K2];
    destruct (get_genre_from_path p base w0) as [[genre|e] w1] end;
    simpl in K1, K2; [|split; assumption].
  destruct (negb (truthy genre)); [split; assumption|].
  destruct (truthy filter && _); [split; assumption|].
  specialize (Hs (default [] genre) w1 K1 K2).
  destruct (set_genre_tag depth p (default [] genre) dry mb w1)
    as [[[|]|e] w2]; exact Hs.
Qed.

(** C8: the worker never raises - for every input tuple and every state of
    the files it returns the file's path with a message - so a batch yields
    one outcome per file, in order.  A file whose processing changes no file
    (as when its container cannot be opened) does not influence the others:
    they get the outcomes they would get in a batch without that file. *)
Theorem worker_failure_is_isolated :
  forall depth : nat,
    (forall args w, exists msg w',
        process_file depth args w
          = (Ok (path_str (args_path args), msg), w')) /\
    (forall batch w, exists results w',
        pool_map (run_worker depth) batch w = (Ok results, w') /\
        List.map fst results
          = List.map (fun a => path_str (args_path a)) batch) /\
    (forall pre a post w,
        same_files
          (snd (run_worker depth a (snd (pool_map (run_worker depth) pre w))))
          (snd (pool_map (run_worker depth) pre w)) ->
        exists rs_pre r rs_post,
          fst (pool_map (run_worker depth) (pre ++ a :: post) w)
            = Ok (rs_pre ++ r :: rs_post) /\
          fst (pool_map (run_worker depth) (pre ++ post) w)
            = Ok (rs_pre ++ rs_post) /\
          length rs_pre = length pre /\
          fst r = path_str (args_path a)) /\
    (forall p base dry mb filter w h f,
        handler_lookup (lower (path_suffix p)) FORMAT_HANDLERS = Some h ->
        w_fs w !! path_str p = Some f -> f_readable f = true ->
        f_body f = Garbage ->
        same_files (snd (run_worker depth (p, base, dry, mb, filter) w)) w).
Proof.
  intros depth. split; [apply process_file_returns|].
  split; [apply pool_map_returns|]. split.
  - intros pre a post w Hsame.
    destruct (pool_map_returns depth pre w) as (rs_pre & w1 & Hpre & _).
    rewrite Hpre in Hsame. simpl in Hsame.
    destruct (run_worker_returns depth a w1) as (msg & w2 & Ha).
    rewrite Ha in Hsame. simpl in Hsame.
    destruct (pool_map_returns depth post w2) as (rs2 & w3 & Hp2 & _).
    destruct (pool_map_returns depth post w1) as (rs1 & w4 & Hp1 & _).
    pose proof (files_only_pool_map depth post w2 w1 Hsame) as [Heq _].
    rewrite Hp2, Hp1 in Heq. simpl in Heq. injection Heq as ->.
    exists rs_pre, (path_str (args_path a), msg), rs1.
    assert (Hcons : pool_map (run_worker depth) (a :: post) w1
                    = (Ok ((path_str (args_path a), msg) :: rs1), w3)).
    { simpl. unfold bind. rewrite Ha, Hp2. reflexivity. }
    rewrite (pool_map_app depth pre (a :: post) w w1 w3 _ _ Hpre Hcons).
    rewrite (pool_map_app depth pre post w w1 w4 _ _ Hpre Hp1).
    repeat split. eapply pool_map_length, Hpre.
  - intros p base dry mb filter w h f.
    apply container_error_changes_no_file.
Qed.

Lemma worker_failure_is_isolated_witness :
  let args (p : Path) : worker_args := (p, music_root, false, true, None) in
  let pre := [args track_flac] in
  let post := [args track_mp3] in
  let w := three_file_world in
  let run := pool_map (run_worker 3) in
  same_files (snd (run_worker 3 (args track_bad) (snd (run pre w))))
    (snd (run pre w)) /\
  exists rs_pre r rs_post,
    fst (run (pre ++ args track_bad :: post) w)
      = Ok (rs_pre ++ r :: rs_post) /\
    fst (run (pre ++ post) w) = Ok (rs_pre ++ rs_post) /\
    length rs_pre = length pre /\
    fst r = path_str (args_path (args track_bad)).
Proof.
  intros args pre post w run.
  assert (H : same_files
                (snd (run_worker 3 (args track_bad) (snd (run pre w))))
                (snd (run pre w)))
    by (split; vm_compute; reflexivity).
  split; [exact H|].
  destruct (worker_failure_is_isolated 3) as (_ & _ & Hiso & _).
  exact (Hiso pre (args track_bad) post w H).
Defined.

(** ** Batches: [range] and slices *)

Section Chunks.

Context {A : Type}.

Lemma py_slice_chunk (l : list A) (i bs : Z) :
  (0 <= i)%Z -> (0 < bs)%Z ->
  py_slice l i (i + bs) = take (Z.to_nat bs) (drop (Z.to_nat i) l).
Proof.
  intros Hi Hb. unfold py_slice, slice_index.
  destruct (Z.ltb_spec i 0); [lia|].
  destruct (Z.ltb_spec (i + bs) 0); [lia|].
  destruct (Z_le_gt_dec i (Z.of_nat (length l))) as [Hle|Hgt].
  - rewrite (Z.min_l i) by lia.
    destruct (Z_le_gt_dec (i + bs) (Z.of_nat (length l))) as [Hle2|Hgt2].
    + rewrite Z.min_l by lia. f_equal. lia.
    + rewrite Z.min_r by lia.
      rewrite !take_ge; [reflexivity | |]; rewrite length_drop; lia.
  - rewrite !Z.min_r by lia. rewrite Z.sub_diag. simpl.
    rewrite drop_ge by lia. rewrite drop_ge by lia.
    destruct (Z.to_nat bs); reflexivity.
Qed.

(** Cutting a list into [cnt] pieces of [b] elements and gluing them gives
    the list back, when the pieces cover it. *)
Lemma chunks_concat (b cnt : nat) (l : list A) :
  (length l <= cnt * b)%nat ->
  concat (List.map (fun k => take b (drop (k * b) l)) (seq 0 cnt)) = l.
Proof.
  revert l. induction cnt as [|cnt IH]; intros l Hl.
  - destruct l; [reflexivity | simpl in Hl; lia].
  - rewrite <- cons_seq, <- seq_shift. cbn [List.map concat].
    rewrite List.map_map. rewrite Nat.mul_0_l, drop_0.
    rewrite <- (take_drop b l) at 2. f_equal.
    rewrite <- (IH (drop b l)) by (rewrite length_drop; lia).
    f_equal. apply List.map_ext. intros k.
    rewrite drop_drop. reflexivity.
Qed.

End Chunks.

Lemma py_range_pos (n bs : Z) :
  (0 < bs)%Z ->
  py_range 0 n bs
    = Some (List.map (fun k => (Z.of_nat k * bs)%Z)
              (seq 0 (Z.to_nat ((n + bs - 1) / bs)))).
Proof.
  intros Hb. unfold py_range.
  destruct (Z.eqb_spec bs 0); [lia|].
  destruct (Z.ltb_spec 0 bs); [|lia].
  rewrite Z.sub_0_r. reflexivity.
Qed.

Lemma batch_count_covers (n : nat) (bs : Z) :
  (0 < bs)%Z -> (n <= batch_count n bs * Z.to_nat bs)%nat.
Proof.
  intros Hb. unfold batch_count.
  pose proof (Z.mul_succ_div_gt (Z.of_nat n + bs - 1) bs Hb).
  pose proof (Z.div_pos (Z.of_nat n + bs - 1) bs ltac:(lia) Hb).
  nia.
Qed.

Lemma batch_count_tight (n : nat) (bs : Z) :
  (0 < bs)%Z -> (0 < batch_count n bs)%nat ->
  ((batch_count n bs - 1) * Z.to_nat bs < n)%nat.
Proof.
  intros Hb Hc. unfold batch_count in *.
  pose proof (Z.mul_div_le (Z.of_nat n + bs - 1) bs Hb).
  nia.
Qed.

Lemma batches_pos {A} (files : list A) (bs : Z) :
  (0 < bs)%Z ->
  batches files bs
    = List.map (fun k => take (Z.to_nat bs) (drop (k * Z.to_nat bs) files))
        (seq 0 (batch_count (length files) bs)).
Proof.
  intros Hb. unfold batches. rewrite py_range_pos by exact Hb.
  rewrite List.map_map. apply List.map_ext. intros k.
  rewrite py_slice_chunk by lia. f_equal. f_equal. nia.
Qed.

Lemma batches_concat {A} (files : list A) (bs : Z) :
  (0 < bs)%Z -> concat (batches files bs) = files.
Proof.
  intros Hb. rewrite batches_pos by exact Hb.
  apply chunks_concat, batch_count_covers, Hb.
Qed.

Lemma batches_length {A} (files : list A) (bs : Z) :
  (0 < bs)%Z -> length (batches files bs) = batch_count (length files) bs.
Proof.
  intros Hb. rewrite batches_pos by exact Hb.
  rewrite length_map, length_seq. reflexivity.
Qed.

(** Every batch is full, except that the last one may be shorter; none is
    empty. *)
Lemma batches_sizes {A} (files : list A) (bs : Z) (k : nat) (bt : list A) :
  (0 < bs)%Z -> batches files bs !! k = Some bt ->
  (1 <= length bt <= Z.to_nat bs)%nat /\
  (S k < length (batches files bs) -> length bt = Z.to_nat bs)%nat.
Proof.
  intros Hb Hk. rewrite batches_length by exact Hb.
  rewrite batches_pos in Hk by exact Hb.
  rewrite list_lookup_fmap in Hk.
  destruct (seq 0 (batch_count (length files) bs) !! k) as [k'|] eqn:Hs;
    [|discriminate].
  apply lookup_seq in Hs as [-> Hlt]. simpl in Hk, Hlt. injection Hk as <-.
  rewrite length_take, length_drop.
  pose proof (batch_count_tight (length files) bs Hb ltac:(lia)).
  split; [|intros Hlast]; nia.
Qed.

(** ** The trace of the scheduler *)

Lemma sched_events_app (a b : list event) :
  sched_events (a ++ b) = sched_events a ++ sched_events b.
Proof. apply List.filter_app. Qed.

Lemma os_chmod_trace (p : str) (mode : N) (w : world) :
  w_trace (snd (os_chmod p mode w)) = w_trace w ++ [Chmod p mode].
Proof.
  unfold os_chmod, bind, emit. simpl.
  destruct (w_fs w !! p) as [f|]; [|reflexivity].
  destruct (f_chmod f); reflexivity.
Qed.

(** An update adds nothing but [chmod] calls to the trace. *)
Lemma set_genre_tag_sched (depth : nat) (p : Path) (g : str) (dry mb : bool)
    (w : world) :
  sched_events (w_trace (snd (set_genre_tag depth p g dry mb w)))
    = sched_events (w_trace w).
Proof.
  revert w. induction depth as [|depth IH]; intros w;
    rewrite set_genre_tag_eq;
    (destruct (handler_lookup _ _) as [h|];
     [| unfold bind; destruct (str_in _ _); reflexivity ]);
    unfold try_except at 1;
    pose proof (footprint_attempt p (lower (path_suffix p)) h g dry mb w)
      as (F & _);
    (destruct (attempt _ h p g dry mb w) as [[b|e] w1]; simpl in F;
     [simpl; rewrite F; reflexivity|]);
    (destruct (is_PermissionError e); [|simpl; rewrite F; reflexivity]);
    (destruct dry; [simpl; rewrite F; reflexivity|]);
    unfold try_except; unfold bind at 1;
    pose proof (os_chmod_trace (path_str p) 436 w1) as C;
    assert (S1 : sched_events (w_trace w1 ++ [Chmod (path_str p) 436])
                 = sched_events (w_trace w))
      by (rewrite sched_events_app, F; apply app_nil_r);
    rewrite <- C in S1;
    (destruct (os_chmod (path_str p) 436 w1) as [[[]|e'] w2]; simpl in S1;
     [| exact S1 ]).
  - exact S1.
  - specialize (IH w2).
    destruct (set_genre_tag depth p g false mb w2) as [[b|e'] w3];
      simpl in IH |- *; rewrite IH; exact S1.
Qed.

Lemma get_genre_from_path_trace (p base : Path) (w : world) :
  w_trace (snd (get_genre_from_path p base w)) = w_trace w.
Proof.
  unfold get_genre_from_path, try_except.
  destruct (relative_to p base) as [[|x parts]|]; reflexivity.
Qed.

Lemma process_file_sched (depth : nat) (args : worker_args) (w : world) :
  sched_events (w_trace (snd (process_file depth args w)))
    = sched_events (w_trace w).
Proof.
  destruct args as [[[[p base] dry] mb] filter]. unfold process_file.
  unfold bind at 1.
  pose proof (get_genre_from_path_trace p base w) as G.
  destruct (get_genre_from_path p base w) as [[genre|e] w1]; simpl in G;
    [|simpl; rewrite G; reflexivity].
  destruct (negb (truthy genre)); [simpl; rewrite G; reflexivity|].
  destruct (truthy filter && _); [simpl; rewrite G; reflexivity|].
  unfold bind.
  pose proof (set_genre_tag_sched depth p (default [] genre) dry mb w1) as S1.
  destruct (set_genre_tag depth p (default [] genre) dry mb w1)
    as [[[|]|e] w2]; simpl in S1 |- *; rewrite S1, G; reflexivity.
Qed.

Lemma run_worker_sched (depth : nat) (args : worker_args) (w : world) :
  sched_events (w_trace (snd (run_worker depth args w)))
    = sched_events (w_trace w) ++ [Processed (args_path args)].
Proof.
  unfold run_worker, bind, emit.
  match goal with |- context [process_file depth args ?w1] =>
    pose proof (process_file_sched depth args w1) as P;
    destruct (process_file depth args w1) as [[r|e] w2] end;
    simpl in P |- *; rewrite P, sched_events_app; reflexivity.
Qed.

Lemma pool_map_sched (depth : nat) (batch : list worker_args) (w : world) :
  sched_events (w_trace (snd (pool_map (run_worker depth) batch w)))
    = sched_events (w_trace w)
        ++ List.map (fun a => Processed (args_path a)) batch.
Proof.
  revert w. induction batch as [|a batch IH]; intros w; simpl.
  - rewrite app_nil_r. reflexivity.
  - unfold bind.
    pose proof (run_worker_sched depth a w) as R.
    destruct (run_worker_returns depth a w) as (msg & w1 & E).
    rewrite E in *. simpl in R.
    specialize (IH w1).
    destruct (pool_map_returns depth batch w1) as (rs & w2 & E2 & _).
    rewrite E2 in *. simpl in IH |- *.
    rewrite IH, R, <- app_assoc. reflexivity.
Qed.

Lemma report_result_sched (tqdm : bool) (r : str * str) (w : world) :
  exists w', report_result tqdm r w = (Ok tt, w') /\
             sched_events (w_trace w') = sched_events (w_trace w).
Proof.
  destruct r as [fpath result]. unfold report_result, bind.
  destruct (contains result (lit "Genre set to")),
    (contains result (lit "Already correct")),
    (contains result (lit "Skipped")), tqdm;
    eexists; (split; [reflexivity|]); simpl;
    rewrite ?sched_events_app, ?app_nil_r; reflexivity.
Qed.

Lemma report_results_sched (tqdm : bool) (rs : list (str * str)) (w : world) :
  exists w', for_each rs (report_result tqdm) w = (Ok tt, w') /\
             sched_events (w_trace w') = sched_events (w_trace w).
Proof.
  revert w. induction rs as [|r rs IH]; intros w; simpl.
  - exists w. split; reflexivity.
  - unfold bind. destruct (report_result_sched tqdm r w) as (w1 & -> & S1).
    destruct (IH w1) as (w2 & -> & S2). exists w2.
    split; [reflexivity | congruence].
Qed.

(** One batch: the pool is opened, every file of the batch is processed,
    the results are reported, the pool is closed. *)
Lemma batch_sched (depth : nat) (tqdm : bool) (nw : Z)
    (batch : list worker_args) (w : world) :
  (1 <= nw)%Z ->
  exists w',
    with_pool nw
      (results <- pool_map (run_worker depth) batch ;;
       for_each results (report_result tqdm)) w = (Ok tt, w') /\
    sched_events (w_trace w')
      = sched_events (w_trace w) ++ batch_events nw batch.
Proof.
  intros Hnw. unfold with_pool.
  destruct (Z.ltb_spec nw 1); [lia|].
  unfold bind at 1. unfold emit at 1. unfold bind.
  set (w0 := mkWorld _ _ _ (w_trace w ++ [PoolOpen nw])).
  pose proof (pool_map_sched depth batch w0) as P.
  destruct (pool_map_returns depth batch w0) as (rs & w1 & E & _).
  rewrite E in *. simpl in P.
  destruct (report_results_sched tqdm rs w1) as (w2 & -> & R).
  eexists. split; [reflexivity|]. simpl.
  rewrite sched_events_app, R, P. unfold w0. simpl.
  rewrite sched_events_app. unfold batch_events. simpl.
  rewrite <- !app_assoc. reflexivity.
Qed.

Lemma batches_sched (depth : nat) (tqdm : bool) (nw : Z)
    (files : list worker_args) (bs : Z) (starts : list Z) (w : world) :
  (1 <= nw)%Z ->
  exists w',
    for_each starts
      (fun i =>
         let batch := py_slice files i (i + bs) in
         with_pool nw
           (results <- pool_map (run_worker depth) batch ;;
            for_each results (report_result tqdm))) w = (Ok tt, w') /\
    sched_events (w_trace w')
      = sched_events (w_trace w)
          ++ concat (List.map (batch_events nw)
                       (List.map (fun i => py_slice files i (i + bs)) starts)).
Proof.
  intros Hnw. revert w. induction starts as [|i starts IH]; intros w.
  - exists w. simpl. rewrite app_nil_r. split; reflexivity.
  - destruct (batch_sched depth tqdm nw (py_slice files i (i + bs)) w Hnw)
      as (w1 & E1 & S1).
    destruct (IH w1) as (w2 & E2 & S2). exists w2.
    split.
    + cbn [for_each]. unfold bind at 1. cbv beta zeta. rewrite E1. exact E2.
    + cbn [List.map concat]. rewrite S2, S1, <- app_assoc. reflexivity.
Qed.

Lemma processed_paths_app (a b : list event) :
  processed_paths (a ++ b) = processed_paths a ++ processed_paths b.
Proof.
  induction a as [|e a IH]; [reflexivity|].
  destruct e; simpl; rewrite IH; reflexivity.
Qed.

Lemma processed_paths_sched (tr : list event) :
  processed_paths (sched_events tr) = processed_paths tr.
Proof.
  induction tr as [|e tr IH]; [reflexivity|].
  destruct e; simpl; rewrite ?IH; reflexivity.
Qed.

Lemma processed_paths_batches (nw : Z) (bts : list (list worker_args)) :
  processed_paths (concat (List.map (batch_events nw) bts))
    = List.map args_path (concat bts).
Proof.
  induction bts as [|bt bts IH]; [reflexivity|]. simpl.
  rewrite List.map_app, <- IH. rewrite <- app_assoc, processed_paths_app.
  f_equal. clear IH. induction bt as [|a bt IH]; [reflexivity|].
  simpl. rewrite IH. reflexivity.
Qed.

(** The batch size is not validated: a batch size of zero makes [range]
    raise, and a negative one yields no batch, so that no file is
    processed. *)
Lemma batch_size_zero_raises (depth : nat) (tqdm : bool)
    (files : list worker_args) (nw : Z) (w : world) :
  process_files_in_batches depth tqdm files 0 nw w
    = (Raise (OtherError "ValueError"),
       logged (InfoProcessing (length files) 0) w).
Proof. reflexivity. Qed.

Lemma batch_size_negative_skips (depth : nat) (tqdm : bool)
    (files : list worker_args) (bs nw : Z) (w : world) :
  (bs < 0)%Z ->
  process_files_in_batches depth tqdm files bs nw w
    = (Ok tt, logged (InfoProcessing (length files) bs) w).
Proof.
  intros Hb. unfold process_files_in_batches, bind, py_range. simpl.
  destruct (Z.eqb_spec bs 0); [lia|].
  destruct (Z.ltb_spec 0 bs); [lia|].
  assert (Hn : (Z.to_nat ((0 - Z.of_nat (length files) - bs - 1) / - bs)
                = 0)%nat).
  { assert ((0 - Z.of_nat (length files) - bs - 1) / - bs < 1)%Z; [|lia].
    apply Z.div_lt_upper_bound; lia. }
  rewrite Hn. reflexivity.
Qed.

(** ** The results the scheduler reports *)

Section Quiet.

Context {A B : Type}.

Lemma quiet_same_log (m : M A) :
  (forall w, w_log (snd (m w)) = w_log w) -> quiet m.
Proof. intros H w. rewrite H. reflexivity. Qed.

Lemma quiet_ret (a : A) : quiet (ret a).
Proof. intros w. reflexivity. Qed.

Lemma quiet_raise (e : exn) : quiet (@raise A e).
Proof. intros w. reflexivity. Qed.

Lemma quiet_bind (m : M A) (k : A -> M B) :
  quiet m -> (forall a, quiet (k a)) -> quiet (bind m k).
Proof.
  intros Hm Hk w. unfold bind. specialize (Hm w).
  destruct (m w) as [[a|e] w']; simpl in Hm.
  - rewrite Hk. exact Hm.
  - exact Hm.
Qed.

Lemma quiet_try (m : M A) (h : exn -> M A) :
  quiet m -> (forall e, quiet (h e)) -> quiet (try_except m h).
Proof.
  intros Hm Hh w. unfold try_except. specialize (Hm w).
  destruct (m w) as [[a|e] w']; simpl in Hm.
  - exact Hm.
  - rewrite Hh. exact Hm.
Qed.

End Quiet.

Lemma result_entries_app (a b : list log_event) :
  result_entries (a ++ b) = result_entries a ++ result_entries b.
Proof. apply List.filter_app. Qed.

Lemma quiet_logging (e : log_event) :
  is_result_entry e = false -> quiet (logging e).
Proof.
  intros He w. simpl. rewrite result_entries_app. simpl.
  unfold result_entries at 2. simpl. rewrite He. apply app_nil_r.
Qed.

Lemma quiet_emit (e : event) : quiet (emit e).
Proof. intros w. reflexivity. Qed.

Lemma quiet_log_then {A} (e : log_event) (a : A) :
  is_result_entry e = false -> quiet (logging e ;; ret a).
Proof.
  intros He. apply quiet_bind; [apply quiet_logging, He|].
  intros; apply quiet_ret.
Qed.

Lemma quiet_open_audio (cls : AudioClass) (fn : str) :
  quiet (open_audio cls fn).
Proof. apply quiet_same_log. intros w. rewrite open_audio_world. reflexivity. Qed.

Lemma quiet_get_first (values : list (option str)) : quiet (get_first values).
Proof. destruct values; first [apply quiet_ret | apply quiet_raise]. Qed.

Lemma quiet_tags_setitem (a : audio) (key : str) (v : pyval) :
  quiet (tags_setitem a key v).
Proof.
  unfold tags_setitem. destruct (a_tags a); [|apply quiet_raise].
  destruct (id3_backed (a_class a));
    first [apply quiet_ret | apply quiet_raise].
Qed.

Lemma quiet_setitem (a : audio) (key : str) (v : pyval) :
  quiet (setitem a key v).
Proof. apply quiet_ret. Qed.

Lemma quiet_add_tags (a : audio) : quiet (add_tags a).
Proof.
  unfold add_tags. destruct (a_tags a);
    first [apply quiet_ret | apply quiet_raise].
Qed.

Lemma quiet_save (a : audio) : quiet (save a).
Proof.
  unfold save. destruct (a_tags a) as [t|]; [|apply quiet_ret].
  apply quiet_same_log. intros w.
  destruct (w_fs w !! a_filename a) as [f|]; [|reflexivity].
  destruct (f_writable f); simpl; [|reflexivity].
  destruct (f_io_error f); reflexivity.
Qed.

Lemma quiet_os_chmod (p : str) (mode : N) : quiet (os_chmod p mode).
Proof.
  unfold os_chmod. apply quiet_bind; [apply quiet_emit | intros _].
  apply quiet_same_log. intros w.
  destruct (w_fs w !! p) as [f|]; [|reflexivity].
  destruct (f_chmod f); reflexivity.
Qed.

Lemma quiet_os_path_exists (p : str) : quiet (os_path_exists p).
Proof. intros w. reflexivity. Qed.

Lemma quiet_shutil_copy2 (src dst : str) : quiet (shutil_copy2 src dst).
Proof.
  apply quiet_same_log. intros w. unfold shutil_copy2.
  destruct (w_fs w !! src) as [f|]; [|reflexivity].
  destruct (f_readable f); simpl; [|reflexivity].
  destruct (w_fs w !! dst) as [d|].
  - destruct (f_writable d); simpl; [|reflexivity].
    destruct (f_io_error d); reflexivity.
  - destruct (f_dir_writable f); [reflexivity|].
    destruct (copy_remains f (w_clock w)); reflexivity.
Qed.

Lemma quiet_backup_file (p : Path) : quiet (backup_file p).
Proof.
  unfold backup_file. apply quiet_try.
  - apply quiet_bind; [apply quiet_os_path_exists | intros b].
    apply quiet_bind; [|intros; apply quiet_ret].
    destruct (negb b); [apply quiet_shutil_copy2 | apply quiet_ret].
  - intros e. apply quiet_log_then. reflexivity.
Qed.

Lemma quiet_open_container (ext : str) (cls : AudioClass) (p : Path)
    (dry : bool) :
  quiet (open_container ext cls p dry).
Proof.
  assert (Hd : quiet (a <- open_audio cls (path_str p) ;; ret (Continue a)))
    by (apply quiet_bind; [apply quiet_open_audio | intros; apply quiet_ret]).
  unfold open_container. destruct (str_eqb ext (lit ".mp3")); [|exact Hd].
  apply quiet_try; [exact Hd | intros _].
  destruct dry; [apply quiet_ret|].
  apply quiet_bind; [apply quiet_open_audio | intros a1].
  apply quiet_bind; [apply quiet_add_tags | intros a2].
  apply quiet_bind; [apply quiet_save | intros _].
  exact Hd.
Qed.

Lemma quiet_read_current (a : audio) (key : str) (getter : getter_t) :
  quiet (read_current a key getter).
Proof.
  unfold read_current.
  destruct (has_get a); [|destruct (has_tags a && tags_truthy a)];
    try apply quiet_ret;
    (apply quiet_bind; [apply quiet_get_first | intros; apply quiet_ret]).
Qed.

Lemma quiet_compare_and_write (a : audio) (key : str)
    (getter : getter_t) (setter : setter_t) (p : Path) (g : str)
    (dry mb : bool) :
  quiet (compare_and_write a key getter setter p g dry mb).
Proof.
  unfold compare_and_write.
  apply quiet_bind; [apply quiet_read_current | intros cur].
  destruct (genre_eqb cur g); [apply quiet_ret|].
  destruct dry; [apply quiet_log_then; reflexivity|].
  apply quiet_bind.
  { destruct mb; [|apply quiet_ret].
    apply quiet_bind; [apply quiet_backup_file | intros; apply quiet_ret]. }
  intros _. apply quiet_bind.
  { destruct (has_tags a); [apply quiet_tags_setitem | apply quiet_setitem]. }
  intros a'. apply quiet_bind; [apply quiet_save | intros; apply quiet_ret].
Qed.

Lemma quiet_attempt (ext : str) (h : handler) (p : Path) (g : str)
    (dry mb : bool) :
  quiet (attempt ext h p g dry mb).
Proof.
  destruct h as [[[cls key] getter] setter]. unfold attempt.
  apply quiet_bind; [apply quiet_open_container | intros [b|a]].
  - apply quiet_ret.
  - apply quiet_compare_and_write.
Qed.

Lemma quiet_set_genre_tag (depth : nat) (p : Path) (g : str)
    (dry mb : bool) :
  quiet (set_genre_tag depth p g dry mb).
Proof.
  induction depth as [|depth IH]; rewrite set_genre_tag_eq;
    (destruct (handler_lookup _ _) as [h|];
     [| apply quiet_bind; [|intros; apply quiet_ret];
        destruct (str_in _ _); apply quiet_logging; reflexivity ]);
    (apply quiet_try; [apply quiet_attempt | intros e]);
    (destruct (is_PermissionError e);
     [| apply quiet_bind; [apply quiet_logging; reflexivity |
                           intros; apply quiet_log_then; reflexivity] ]);
    (destruct dry; [apply quiet_log_then; reflexivity|]);
    (apply quiet_try; [|intros; apply quiet_log_then; reflexivity]);
    (apply quiet_bind; [apply quiet_os_chmod | intros _]).
  - apply quiet_raise.
  - exact IH.
Qed.

Lemma quiet_get_genre_from_path (p base : Path) :
  quiet (get_genre_from_path p base).
Proof.
  unfold get_genre_from_path. apply quiet_try.
  - destruct (relative_to p base) as [[|x parts]|];
      first [apply quiet_ret | apply quiet_raise].
  - intros e. apply quiet_log_then. reflexivity.
Qed.

Lemma quiet_process_file (depth : nat) (args : worker_args) :
  quiet (process_file depth args).
Proof.
  destruct args as [[[[p base] dry] mb] filter]. unfold process_file.
  apply quiet_bind; [apply quiet_get_genre_from_path | intros genre].
  destruct (negb (truthy genre)); [apply quiet_ret|].
  destruct (truthy filter && _); [apply quiet_ret|].
  apply quiet_bind; [apply quiet_set_genre_tag | intros [|]];
    apply quiet_ret.
Qed.

(** A worker of the pool does what [process_file] does to the files, and
    returns what it returns. *)
Lemma run_worker_as_process_file (depth : nat) (a : worker_args)
    (w ws : world) :
  same_files w ws ->
  exists msg w1 ws1,
    run_worker depth a w = (Ok (path_str (args_path a), msg), w1) /\
    process_file depth a ws = (Ok (path_str (args_path a), msg), ws1) /\
    same_files w1 ws1 /\
    result_entries (w_log w1) = result_entries (w_log w).
Proof.
  intros Hs. unfold run_worker, bind, emit.
  set (w0 := mkWorld _ _ _ _).
  assert (Hs0 : same_files w0 ws) by exact Hs.
  pose proof (files_only_process_file depth a w0 ws Hs0) as [Hr Hw].
  pose proof (quiet_process_file depth a w0) as Hq.
  destruct (process_file_returns depth a w0) as (msg & w1 & E).
  destruct (process_file_returns depth a ws) as (msg' & ws1 & E').
  rewrite E, E' in *. simpl in Hr, Hw, Hq. injection Hr as ->.
  exists msg', w1, ws1. repeat split; try reflexivity; try apply Hw.
  exact Hq.
Qed.

Lemma pool_map_as_process_file (depth : nat) (batch : list worker_args)
    (w ws : world) :
  same_files w ws ->
  exists rs w1 ws1,
    pool_map (run_worker depth) batch w = (Ok rs, w1) /\
    pool_map (process_file depth) batch ws = (Ok rs, ws1) /\
    same_files w1 ws1 /\
    result_entries (w_log w1) = result_entries (w_log w) /\
    List.map fst rs = List.map (fun a => path_str (args_path a)) batch.
Proof.
  revert w ws. induction batch as [|a batch IH]; intros w ws Hs; simpl.
  - exists [], w, ws. repeat split; try reflexivity; apply Hs.
  - unfold bind.
    destruct (run_worker_as_process_file depth a w ws Hs)
      as (msg & w1 & ws1 & -> & -> & Hs1 & Hq1).
    destruct (IH w1 ws1 Hs1) as (rs & w2 & ws2 & -> & -> & Hs2 & Hq2 & Hm).
    eexists _, w2, ws2. split; [reflexivity|]. split; [reflexivity|].
    split; [exact Hs2|]. split; [congruence|]. simpl. rewrite Hm. reflexivity.
Qed.

Lemma pool_map_process_app (depth : nat) (xs ys : list worker_args)
    (w w1 w2 : world) (rs1 rs2 : list (str * str)) :
  pool_map (process_file depth) xs w = (Ok rs1, w1) ->
  pool_map (process_file depth) ys w1 = (Ok rs2, w2) ->
  pool_map (process_file depth) (xs ++ ys) w = (Ok (rs1 ++ rs2), w2).
Proof.
  revert w rs1. induction xs as [|x xs IH]; intros w rs1; simpl.
  - intros [= <- <-] H. exact H.
  - intros H1 H2. unfold bind in H1.
    destruct (process_file depth x w) as [[r|e] w0] eqn:Hx; [|discriminate].
    destruct (pool_map (process_file depth) xs w0) as [[rs|e] w3] eqn:Hxs;
      [|discriminate].
    injection H1 as <- <-. unfold bind.
    rewrite Hx, (IH _ _ Hxs H2). reflexivity.
Qed.

(** Reporting the results changes no file, and logs one entry per result,
    in the order of the results. *)
Lemma report_result_log (tqdm : bool) (r : str * str) (w : world) :
  exists w', report_result tqdm r w = (Ok tt, w') /\
             same_files w' w /\
             result_entries (w_log w')
               = result_entries (w_log w) ++ [report_entry r].
Proof.
  destruct r as [fpath result]. unfold report_result, report_entry, bind.
  destruct (contains result (lit "Genre set to")),
    (contains result (lit "Already correct")),
    (contains result (lit "Skipped")), tqdm;
    eexists; (split; [reflexivity|]); (split; [split; reflexivity|]);
    simpl; rewrite result_entries_app; reflexivity.
Qed.

Lemma report_results_log (tqdm : bool) (rs : list (str * str)) (w : world) :
  exists w', for_each rs (report_result tqdm) w = (Ok tt, w') /\
             same_files w' w /\
             result_entries (w_log w')
               = result_entries (w_log w) ++ List.map report_entry rs.
Proof.
  revert w. induction rs as [|r rs IH]; intros w; simpl.
  - exists w. rewrite app_nil_r. repeat split; reflexivity.
  - unfold bind. destruct (report_result_log tqdm r w) as (w1 & -> & S1 & L1).
    destruct (IH w1) as (w2 & -> & S2 & L2). exists w2.
    split; [reflexivity|]. split.
    + destruct S1, S2. split; congruence.
    + rewrite L2, L1, <- app_assoc. reflexivity.
Qed.

(** One batch: what the pool does to the files is what [process_file] does
    to them, one file of the batch after the other, and the results
    reported are the values it returns. *)
Lemma batch_results (depth : nat) (tqdm : bool) (nw : Z)
    (batch : list worker_args) (w ws : world) :
  (1 <= nw)%Z -> same_files w ws ->
  exists w' rs ws',
    with_pool nw
      (results <- pool_map (run_worker depth) batch ;;
       for_each results (report_result tqdm)) w = (Ok tt, w') /\
    pool_map (process_file depth) batch ws = (Ok rs, ws') /\
    List.map fst rs = List.map (fun a => path_str (args_path a)) batch /\
    same_files w' ws' /\
    result_entries (w_log w')
      = result_entries (w_log w) ++ List.map report_entry rs.
Proof.
  intros Hnw Hs. unfold with_pool.
  destruct (Z.ltb_spec nw 1); [lia|].
  unfold bind at 1. unfold emit at 1. unfold bind.
  set (w0 := mkWorld _ _ _ (w_trace w ++ [PoolOpen nw])).
  assert (Hs0 : same_files w0 ws) by exact Hs.
  destruct (pool_map_as_process_file depth batch w0 ws Hs0)
    as (rs & w1 & ws1 & -> & E & Hs1 & Hq & Hm).
  destruct (report_results_log tqdm rs w1) as (w2 & -> & S2 & L2).
  eexists _, rs, ws1. split; [reflexivity|]. split; [exact E|].
  split; [exact Hm|]. split.
  - destruct S2, Hs1. split; simpl; congruence.
  - simpl. rewrite L2, Hq. reflexivity.
Qed.

Lemma batches_results (depth : nat) (tqdm : bool) (nw : Z)
    (files : list worker_args) (bs : Z) (starts : list Z) (w ws : world) :
  (1 <= nw)%Z -> same_files w ws ->
  exists w' rs ws',
    for_each starts
      (fun i =>
         let batch := py_slice files i (i + bs) in
         with_pool nw
           (results <- pool_map (run_worker depth) batch ;;
            for_each results (report_result tqdm))) w = (Ok tt, w') /\
    pool_map (process_file depth)
      (concat (List.map (fun i => py_slice files i (i + bs)) starts)) ws
      = (Ok rs, ws') /\
    List.map fst rs
      = List.map (fun a => path_str (args_path a))
          (concat (List.map (fun i => py_slice files i (i + bs)) starts)) /\
    same_files w' ws' /\
    result_entries (w_log w')
      = result_entries (w_log w) ++ List.map report_entry rs.
Proof.
  intros Hnw. revert w ws. induction starts as [|i starts IH]; intros w ws Hs.
  - exists w, [], ws. simpl. rewrite app_nil_r. repeat split; try reflexivity;
      apply Hs.
  - destruct (batch_results depth tqdm nw (py_slice files i (i + bs)) w ws
                Hnw Hs) as (w1 & rs1 & ws1 & E1 & P1 & M1 & S1 & L1).
    destruct (IH w1 ws1 S1) as (w2 & rs2 & ws2 & E2 & P2 & M2 & S2 & L2).
    exists w2, (rs1 ++ rs2), ws2.
    split; [|split; [|split; [|split]]].
    + cbn [for_each]. unfold bind at 1. cbv beta zeta. rewrite E1. exact E2.
    + cbn [List.map concat]. apply (pool_map_process_app _ _ _ _ _ _ _ _ P1 P2).
    + cbn [List.map concat]. rewrite !List.map_app, M1, M2. reflexivity.
    + exact S2.
    + rewrite L2, L1, List.map_app, <- app_assoc. reflexivity.
Qed.

(** C9: for a batch size of at least one and a pool of at least one worker
    the scheduler cuts the file list into contiguous batches - all of
    [batch_size] files, the last one possibly shorter, none empty - whose
    concatenation in order is the file list, and it returns.  For each
    batch in turn the trace shows the pool opened, the files of that batch
    handed to a worker, and the pool closed before the pool of the next
    batch is opened; every file is handed to a worker once, in the order of
    the list.  The files are left as [process_file] leaves them when it is
    run on each file of the list once, in that order; and the results
    logged are the values these runs return, one per file, each under the
    path of its file. *)
Theorem scheduler_batches (depth : nat) (tqdm_available : bool)
    (files : list worker_args) (batch_size num_workers : Z) (w : world) :
  (0 < batch_size)%Z -> (1 <= num_workers)%Z ->
  concat (batches files batch_size) = files /\
  (forall k bt, batches files batch_size !! k = Some bt ->
     (1 <= length bt <= Z.to_nat batch_size)%nat /\
     (S k < length (batches files batch_size) ->
      length bt = Z.to_nat batch_size)%nat) /\
  exists w' results w_seq,
    process_files_in_batches depth tqdm_available files batch_size
      num_workers w = (Ok tt, w') /\
    sched_events (w_trace w')
      = sched_events (w_trace w)
          ++ concat (List.map (batch_events num_workers)
                       (batches files batch_size)) /\
    processed_paths (w_trace w')
      = processed_paths (w_trace w) ++ List.map args_path files /\
    pool_map (process_file depth) files w = (Ok results, w_seq) /\
    List.map fst results
      = List.map (fun a => path_str (args_path a)) files /\
    same_files w' w_seq /\
    result_entries (w_log w')
      = result_entries (w_log w) ++ List.map report_entry results.
Proof.
  intros Hb Hnw.
  split; [apply batches_concat, Hb|].
  split; [intros k bt; apply batches_sizes, Hb|].
  pose proof (batches_concat files batch_size Hb) as Hc.
  unfold batches in Hc. rewrite py_range_pos in Hc by exact Hb.
  unfold process_files_in_batches, batches. unfold bind at 1. simpl.
  rewrite py_range_pos by exact Hb.
  match goal with |- context [for_each ?starts _ ?w0] =>
    assert (Hs : same_files w0 w) by (split; reflexivity);
    destruct (batches_sched depth tqdm_available num_workers files batch_size
                starts w0 Hnw) as (w' & E & S1);
    destruct (batches_results depth tqdm_available num_workers files
                batch_size starts w0 w Hnw Hs)
      as (w'' & rs & ws & E' & P & Hm & Hsf & Hl)
  end.
  rewrite E in E'. injection E' as <-.
  rewrite Hc in P, Hm.
  exists w', rs, ws. split; [exact E|]. split; [exact S1|].
  split; [|split; [exact P|split; [exact Hm|split; [exact Hsf|]]]].
  - rewrite <- (processed_paths_sched (w_trace w')), S1.
    rewrite processed_paths_app, processed_paths_sched.
    simpl. f_equal. rewrite processed_paths_batches. f_equal. exact Hc.
  - rewrite Hl. simpl. rewrite result_entries_app. simpl.
    rewrite app_nil_r. reflexivity.
Qed.

Lemma scheduler_batches_witness :
  let args (p : Path) : worker_args := (p, music_root, false, false, None) in
  let files := [args track_flac; args track_bad; args track_mp3] in
  let w := three_file_world in
  ((0 < 2)%Z /\ (1 <= 4)%Z) /\
  concat (batches files 2) = files /\
  (forall k bt, batches files 2 !! k = Some bt ->
     (1 <= length bt <= Z.to_nat 2)%nat /\
     (S k < length (batches files 2) -> length bt = Z.to_nat 2)%nat) /\
  exists w' results w_seq,
    process_files_in_batches 3 true files 2 4 w = (Ok tt, w') /\
    sched_events (w_trace w')
      = sched_events (w_trace w)
          ++ concat (List.map (batch_events 4) (batches files 2)) /\
    processed_paths (w_trace w')
      = processed_paths (w_trace w) ++ List.map args_path files /\
    pool_map (process_file 3) files w = (Ok results, w_seq) /\
    List.map fst results
      = List.map (fun a => path_str (args_path a)) files /\
    same_files w' w_seq /\
    result_entries (w_log w')
      = result_entries (w_log w) ++ List.map report_entry results.
Proof.
  intros args files w. split; [split; lia|].
  apply (scheduler_batches 3 true files 2 4 w); lia.
Defined.

(** The batch size and the number of workers are taken as they are given.
    With a negative batch size the scheduler returns as after a complete
    run, yet there is no batch, no file is handed to a worker, no file is
    changed and no result is logged, where a batch size of two updates two
    of the three files; a batch size of zero, or a pool of no worker, ends
    the run with [ValueError]. *)
Lemma scheduler_needs_positive_sizes :
  let args (p : Path) : worker_args := (p, music_root, false, false, None) in
  let files := [args track_flac; args track_bad; args track_mp3] in
  let w := three_file_world in
  let run bs nw := process_files_in_batches 3 true files bs nw w in
  fst (run (-2)%Z 4%Z) = Ok tt /\
  batches files (-2) = [] /\
  concat (batches files (-2)) <> files /\
  processed_paths (w_trace (snd (run (-2)%Z 4%Z))) = [] /\
  w_fs (snd (run (-2)%Z 4%Z)) = w_fs w /\
  result_entries (w_log (snd (run (-2)%Z 4%Z))) = [] /\
  processed_paths (w_trace (snd (run 2%Z 4%Z)))
    = [track_flac; track_bad; track_mp3] /\
  List.map (fun e => match e with
                     | InfoResult p _ => Some p
                     | _ => None
                     end) (result_entries (w_log (snd (run 2%Z 4%Z))))
    = [Some (path_str track_flac); None; Some (path_str track_mp3)] /\
  fst (run 0%Z 4%Z) = Raise (OtherError "ValueError") /\
  fst (run 2%Z 0%Z) = Raise (OtherError "ValueError").
Proof.
  intros args files w run.
  split; [reflexivity|]. split; [reflexivity|]. split; [discriminate|].
  split; [reflexivity|]. split; [reflexivity|]. split; [reflexivity|].
  split; [vm_compute; reflexivity|]. split; [vm_compute; reflexivity|].
  split; reflexivity.
Qed.

Example three_files_in_two_batches :
  let args (p : Path) : worker_args := (p, music_root, false, false, None) in
  let files := [args track_flac; args track_bad; args track_mp3] in
  batches files 2 = [[args track_flac; args track_bad]; [args track_mp3]] /\
  sched_events
    (w_trace (snd (process_files_in_batches 3 true files 2 4
                     three_file_world)))
    = [PoolOpen 4; Processed track_flac; Processed track_bad; PoolClose;
       PoolOpen 4; Processed track_mp3; PoolClose].
Proof. vm_compute. split; reflexivity. Qed.

(** ** More on genre normalisation *)

Section NormalizeMore.

Lemma split_go_nil_iff (s : str) :
  split_go s = ([], []) <-> forallb is_space s = true.
Proof.
  induction s as [|c s IH]; simpl; [tauto|].
  destruct (split_go s) as [w ws]. destruct (is_space c); simpl.
  - rewrite <- IH. destruct w; simpl;
      split; intros H; first [exact H | discriminate H].
  - split; discriminate.
Qed.

Lemma split_nil_iff (s : str) : split s = [] <-> forallb is_space s = true.
Proof.
  rewrite <- split_go_nil_iff. unfold split.
  destruct (split_go s) as [w ws]. destruct w; simpl;
    split; intros H;
    first [discriminate H | congruence | subst; reflexivity].
Qed.

Lemma upper_char_nonempty (c : char) : upper_char c <> [].
Proof.
  unfold upper_char.
  destruct (is_lower_az c), (c =? 223), (c =? 383); discriminate.
Qed.

Lemma title_char_nonempty (c : char) : title_char c <> [].
Proof.
  unfold title_char.
  destruct (is_lower_az c), (c =? 223), (c =? 383); discriminate.
Qed.

Lemma normalize_word_nonempty (w : str) : w <> [] -> normalize_word w <> [].
Proof.
  destruct w as [|c w]; [congruence|]. intros _. unfold normalize_word.
  destruct (str_in _ _); simpl.
  - pose proof (upper_char_nonempty c). destruct (upper_char c);
      [congruence | discriminate].
  - pose proof (title_char_nonempty c). destruct (title_char c);
      [congruence | discriminate].
Qed.

Lemma join_nil_iff (sep : str) (ws : list str) :
  Forall (fun w => w <> []) ws -> (join sep ws = [] <-> ws = []).
Proof.
  intros H. destruct H as [|w ws Hw Hws]; [tauto|].
  split; [|discriminate]. destruct w; [congruence|].
  destruct ws; simpl; discriminate.
Qed.

Lemma rstrip_word (w : str) : is_word w -> rstrip w = w.
Proof.
  intros [Hne Hsf]. induction Hsf as [|c w Hc Hsf IH]; [congruence|].
  simpl. destruct w as [|c' w].
  - simpl. rewrite Hc. reflexivity.
  - rewrite IH by discriminate. reflexivity.
Qed.

Lemma rstrip_app_word (s w : str) : is_word w -> rstrip (s ++ w) = s ++ w.
Proof.
  intros Hw. induction s as [|c s IH]; simpl; [apply rstrip_word, Hw|].
  rewrite IH. destruct (s ++ w) eqn:E; [|reflexivity].
  apply app_eq_nil in E as [_ ->]. destruct Hw as [Hne _]. congruence.
Qed.

Lemma join_words_last (ws : list str) :
  Forall is_word ws -> ws <> [] ->
  exists s w, join (lit " ") ws = s ++ w /\ is_word w.
Proof.
  induction 1 as [|w ws Hw Hws IH]; [congruence|]. intros _.
  destruct ws as [|w2 ws].
  - exists [], w. split; [reflexivity | exact Hw].
  - destruct (IH ltac:(discriminate)) as (s & wl & E & Hl).
    exists (w ++ lit " " ++ s), wl. split; [|exact Hl].
    change (join (lit " ") (w :: w2 :: ws))
      with (w ++ lit " " ++ join (lit " ") (w2 :: ws)).
    rewrite E, <- !app_assoc. reflexivity.
Qed.

Lemma lstrip_join_words (ws : list str) :
  Forall is_word ws -> lstrip (join (lit " ") ws) = join (lit " ") ws.
Proof.
  intros H. destruct H as [|w ws [Hne Hsf] Hws]; [reflexivity|].
  destruct Hsf as [|c w Hc Hsf]; [congruence|].
  destruct ws; simpl; rewrite Hc; reflexivity.
Qed.

Lemma strip_join_words (ws : list str) :
  Forall is_word ws -> strip (join (lit " ") ws) = join (lit " ") ws.
Proof.
  intros H. unfold strip. rewrite lstrip_join_words by exact H.
  destruct ws as [|w ws]; [reflexivity|].
  destruct (join_words_last (w :: ws) H ltac:(discriminate))
    as (s & wl & -> & Hl).
  apply rstrip_app_word, Hl.
Qed.

Lemma normalized_words (x : str) :
  ascii_only x ->
  Forall is_word (List.map normalize_word (split x)) /\
  Forall (fun w => ascii_only w) (List.map normalize_word (split x)).
Proof.
  intros Ha. pose proof (split_words x) as Hw.
  pose proof (split_Forall _ x Ha) as Hs.
  induction (split x) as [|w ws IH]; simpl; [split; constructor|].
  apply Forall_cons in Hw as [Hw Hws]. apply Forall_cons in Hs as [Hs Hss].
  destruct (IH Hws Hss) as [I1 I2].
  destruct (normalize_word_word w Hs Hw) as [N1 N2].
  split; constructor; assumption.
Qed.

Lemma join_ascii (ws : list str) :
  Forall (fun w => ascii_only w) ws -> ascii_only (join (lit " ") ws).
Proof.
  induction 1 as [|w ws Hw Hws IH]; [constructor|].
  destruct ws as [|w2 ws]; [exact Hw|].
  change (join (lit " ") (w :: w2 :: ws))
    with (w ++ 32 :: join (lit " ") (w2 :: ws)).
  apply Forall_app. split; [exact Hw|]. constructor; [reflexivity | exact IH].
Qed.

End NormalizeMore.

(** X1: the label depends on the words of the folder name only: names that
    split into the same words - whatever whitespace leads, trails or
    separates them - get the same label. *)
Theorem normalize_genre_ignores_whitespace (x y : str) :
  split x = split y -> normalize_genre x = normalize_genre y.
Proof. intros H. rewrite !normalize_genre_split, H. reflexivity. Qed.

Lemma normalize_genre_ignores_whitespace_witness :
  split (9 :: lit " uk    garage  ") = split (lit "uk garage") /\
  normalize_genre (9 :: lit " uk    garage  ") = normalize_genre (lit "uk garage").
Proof.
  split; [reflexivity|].
  apply (normalize_genre_ignores_whitespace (9 :: lit " uk    garage  ")
           (lit "uk garage")).
  reflexivity.
Defined.

(** X2: the label of an ASCII folder name is in canonical form: it is ASCII,
    it has no leading or trailing whitespace, its words are the normalised
    words of the name, in order, and they are separated by exactly one
    space. *)
Theorem normalize_genre_canonical_form (x : str) :
  ascii_text x = true ->
  ascii_text (normalize_genre x) = true /\
  strip (normalize_genre x) = normalize_genre x /\
  split (normalize_genre x) = List.map normalize_word (split x) /\
  normalize_genre x = join (lit " ") (split (normalize_genre x)).
Proof.
  intros H. apply ascii_text_Forall in H.
  destruct (normalized_words x H) as [Hw Ha].
  rewrite normalize_genre_split.
  split; [apply ascii_text_Forall, join_ascii, Ha|].
  split; [apply strip_join_words, Hw|].
  rewrite split_join by exact Hw. split; reflexivity.
Qed.

Lemma normalize_genre_canonical_form_witness :
  let x := lit "  drum   and BASS " in
  ascii_text x = true /\
  ascii_text (normalize_genre x) = true /\
  strip (normalize_genre x) = normalize_genre x /\
  split (normalize_genre x) = List.map normalize_word (split x) /\
  normalize_genre x = join (lit " ") (split (normalize_genre x)).
Proof.
  intros x. split; [reflexivity|].
  apply (normalize_genre_canonical_form x). reflexivity.
Defined.

(** X3: the label is empty exactly for a folder name that is empty or made
    of whitespace only. *)
Theorem normalize_genre_empty_iff (x : str) :
  normalize_genre x = [] <-> forallb is_space x = true.
Proof.
  rewrite normalize_genre_split, <- split_nil_iff.
  rewrite join_nil_iff.
  - split; [|intros ->; reflexivity].
    destruct (split x); [reflexivity | discriminate].
  - pose proof (split_words x) as Hw.
    induction (split x) as [|w ws IH]; simpl; constructor.
    + apply Forall_cons in Hw as [[Hne _] _].
      apply normalize_word_nonempty, Hne.
    + apply IH. apply Forall_cons in Hw as [_ Hws]. exact Hws.
Qed.

Section CaseInsensitive.

Lemma ascii_upper_case (c : char) :
  is_ascii c = true ->
  exists u, upper_char c = [u] /\ is_ascii u = true /\
            is_space u = is_space c /\
            lower_char u = lower_char c /\ title_char u = title_char c.
Proof.
  intros Hc.
  assert (H : ascii_upper_check c = true)
    by (revert c Hc; apply ascii_forallb; vm_compute; reflexivity).
  destruct (ascii_case c Hc) as (u & l & t & Hu & _ & _ & Hau & _ & _ & Hsu & _).
  unfold ascii_upper_check in H. rewrite Hu in H.
  apply andb_prop in H as [H1 H2].
  apply str_eqb_eq in H1. apply str_eqb_eq in H2.
  exists u. repeat split; assumption.
Qed.

Lemma lower_upper (s : str) : ascii_only s -> lower (upper s) = lower s.
Proof.
  induction 1 as [|c s Hc _ IH]; simpl; [reflexivity|].
  destruct (ascii_upper_case c Hc) as (u & -> & _ & _ & Hl & _).
  simpl. fold (lower (upper s)). rewrite Hl, IH. reflexivity.
Qed.

Lemma capitalize_upper (s : str) :
  ascii_only s -> capitalize (upper s) = capitalize s.
Proof.
  destruct 1 as [|c s Hc Hs]; simpl; [reflexivity|].
  destruct (ascii_upper_case c Hc) as (u & -> & _ & _ & _ & Ht).
  simpl. fold (upper s). rewrite Ht, lower_upper by assumption. reflexivity.
Qed.

Lemma normalize_word_upper (w : str) :
  ascii_only w -> normalize_word (upper w) = normalize_word w.
Proof.
  intros Ha. unfold normalize_word.
  rewrite upper_upper, capitalize_upper by assumption. reflexivity.
Qed.

Lemma push_word_upper (w : str) (ws : list str) :
  ascii_only w ->
  push_word (upper w) (List.map upper ws) = List.map upper (push_word w ws).
Proof.
  destruct 1 as [|c w Hc Hw]; [reflexivity|]. simpl.
  destruct (ascii_upper_case c Hc) as (u & -> & _). reflexivity.
Qed.

Lemma split_go_upper (s : str) :
  ascii_only s ->
  split_go (upper s)
    = (upper (fst (split_go s)), List.map upper (snd (split_go s))).
Proof.
  induction 1 as [|c s Hc Hs IH]; simpl; [reflexivity|].
  destruct (ascii_upper_case c Hc) as (u & Hu & _ & Hsp & _).
  rewrite Hu. simpl. fold (upper s). rewrite IH, Hsp.
  pose proof (split_go_Forall _ s Hs) as [Hw _].
  destruct (split_go s) as [w ws]; simpl in *.
  destruct (is_space c); simpl.
  - rewrite push_word_upper by exact Hw. reflexivity.
  - rewrite Hu. reflexivity.
Qed.

Lemma split_upper (s : str) :
  ascii_only s -> split (upper s) = List.map upper (split s).
Proof.
  intros Ha. unfold split. rewrite split_go_upper by exact Ha.
  pose proof (split_go_Forall _ s Ha) as [Hw _].
  destruct (split_go s) as [w ws]; simpl in *.
  apply push_word_upper, Hw.
Qed.

Lemma normalize_genre_upper (x : str) :
  ascii_only x -> normalize_genre (upper x) = normalize_genre x.
Proof.
  intros Ha. rewrite !normalize_genre_split, split_upper by exact Ha.
  f_equal. rewrite List.map_map.
  pose proof (split_Forall _ x Ha) as Hs.
  induction (split x) as [|w ws IH]; [reflexivity|]. simpl.
  apply Forall_cons in Hs as [Hw Hws].
  rewrite normalize_word_upper by exact Hw. f_equal. apply IH, Hws.
Qed.

End CaseInsensitive.

(** X4: on ASCII text the label does not depend on the case the folder name
    is written in: two names that agree up to case get the same label. *)
Theorem normalize_genre_ignores_case (x y : str) :
  ascii_text x = true -> ascii_text y = true -> upper x = upper y ->
  normalize_genre x = normalize_genre y.
Proof.
  intros Hx Hy H. apply ascii_text_Forall in Hx, Hy.
  rewrite <- (normalize_genre_upper x Hx), <- (normalize_genre_upper y Hy), H.
  reflexivity.
Qed.

Lemma normalize_genre_ignores_case_witness :
  (ascii_text (lit "UK gaRAGE") = true /\ ascii_text (lit "uk Garage") = true /\
   upper (lit "UK gaRAGE") = upper (lit "uk Garage")) /\
  normalize_genre (lit "UK gaRAGE") = normalize_genre (lit "uk Garage").
Proof.
  split; [repeat split; reflexivity|].
  apply (normalize_genre_ignores_case (lit "UK gaRAGE") (lit "uk Garage"));
    reflexivity.
Defined.

(** ** Resolving the genre of a path *)

Lemma relative_to_app (base q : Path) : relative_to (base ++ q) base = Some q.
Proof.
  induction base as [|b base IH]; simpl; [destruct q; reflexivity|].
  rewrite str_eqb_refl. exact IH.
Qed.

Lemma relative_to_Some (p base q : Path) :
  relative_to p base = Some q -> p = base ++ q.
Proof.
  revert p. induction base as [|b base IH]; intros p; simpl.
  - destruct p; simpl; intros [= <-]; reflexivity.
  - destruct p as [|x p]; simpl; [discriminate|].
    destruct (str_eqb b x) eqn:E; [|discriminate].
    apply str_eqb_eq in E as ->. intros H. rewrite (IH _ H). reflexivity.
Qed.

Lemma get_genre_from_path_below (base : Path) (folder : str) (rest : Path)
    (w : world) :
  get_genre_from_path (base ++ folder :: rest) base w
    = (Ok (Some (normalize_genre folder)), w).
Proof.
  unfold get_genre_from_path, try_except. rewrite relative_to_app. reflexivity.
Qed.

(** X5: the genre of a path below the base folder is the normalised name of
    the first component below the base, however deep the file lies; for a
    file directly in the base folder that component is the file name. The
    world is left as it is. *)
Theorem genre_is_first_component_below_base :
  forall (base : Path) (folder : str) (rest : Path) (w : world),
    get_genre_from_path (base ++ folder :: rest) base w
      = (Ok (Some (normalize_genre folder)), w).
Proof. exact get_genre_from_path_below. Qed.

(** X6: for a path that is not below the base folder the genre is [None]
    and the failure is logged; for the base folder itself it is [None]
    without a log entry.  No exception leaves the function. *)
Theorem genre_of_path_outside_base (p base : Path) (w : world) :
  (forall q, p <> base ++ q) ->
  get_genre_from_path p base w
    = (Ok None, logged (ErrorGenreFromPath p (OtherError "ValueError")) w) /\
  get_genre_from_path base base w = (Ok None, w).
Proof.
  intros H. split.
  - unfold get_genre_from_path, try_except.
    destruct (relative_to p base) as [q|] eqn:E; [|reflexivity].
    apply relative_to_Some in E. destruct (H q E).
  - unfold get_genre_from_path, try_except.
    pose proof (relative_to_app base []) as R. rewrite app_nil_r in R.
    rewrite R. reflexivity.
Qed.

Lemma genre_of_path_outside_base_witness :
  let p := [lit "Downloads"; lit "track.flac"] in
  get_genre_from_path p music_root (one_file_world p (plain_file Untagged))
    = (Ok None,
       logged (ErrorGenreFromPath p (OtherError "ValueError"))
         (one_file_world p (plain_file Untagged))) /\
  get_genre_from_path music_root music_root
    (one_file_world p (plain_file Untagged))
    = (Ok None, one_file_world p (plain_file Untagged)).
Proof.
  intros p.
  apply (genre_of_path_outside_base p music_root
           (one_file_world p (plain_file Untagged))).
  intros q H. discriminate H.
Defined.

(** ** The backup step on its own *)

(** X7: [backup_file] never raises.  When it returns [True] a file
    exists at the backup path afterwards; when it returns [False] the
    failure was logged, and the failed copy may still have left a file
    there.  It changes no other path and not the clock; it leaves a world
    that already has a backup as it is; and whenever a file is at the backup
    path afterwards, complete or not, a second call takes it for the backup:
    it returns [True] and changes nothing. *)
Theorem backup_file_outcome :
  forall (p : Path) (w : world),
  exists b w',
    backup_file p w = (Ok b, w') /\
    (b = true -> is_Some (w_fs w' !! backup_path p)) /\
    (b = false -> exists e, w_log w' = w_log w ++ [ErrorBackup p e]) /\
    (forall k, k <> backup_path p -> w_fs w' !! k = w_fs w !! k) /\
    (is_Some (w_fs w !! backup_path p) -> b = true /\ w' = w) /\
    w_clock w' = w_clock w /\
    (is_Some (w_fs w' !! backup_path p) ->
     backup_file p w' = (Ok true, w')).
Proof.
  intros p w. destruct (w_fs w !! backup_path p) as [d|] eqn:Hb.
  - exists true, w. rewrite (backup_file_present p w d Hb), Hb.
    split; [reflexivity|]. split; [eauto|]. split; [discriminate|].
    split; [reflexivity|]. split; [auto|]. split; [reflexivity|].
    intros _. reflexivity.
  - destruct (backup_file_absent p w Hb)
      as [(f & Hf & _ & _ & E) | (e & w1 & E & [-> | (d & ->)])];
      rewrite E; (eexists _, _; split; [reflexivity|]); simpl.
    + split; [intros _; rewrite lookup_insert_eq; eauto|].
      split; [discriminate|].
      split; [intros k Hk; apply lookup_insert_ne; congruence|].
      split; [intros [x Hx]; discriminate|].
      split; [reflexivity|].
      intros _. eapply backup_file_present. simpl. apply lookup_insert_eq.
    + split; [discriminate|].
      split; [intros _; eexists; reflexivity|].
      split; [reflexivity|].
      split; [intros [x Hx]; discriminate|].
      split; [reflexivity|].
      intros [x Hx]. rewrite Hb in Hx. discriminate.
    + split; [discriminate|].
      split; [intros _; eexists; reflexivity|].
      split; [intros k Hk; apply lookup_insert_ne; congruence|].
      split; [intros [x Hx]; discriminate|].
      split; [reflexivity|].
      intros _. eapply backup_file_present. simpl. apply lookup_insert_eq.
Qed.

(** ** The worker: missing genre, filter, and a plain update *)

Lemma process_file_below (depth : nat) (base : Path) (folder : str)
    (rest : Path) (dry mb : bool) (filter : option str) (w : world) :
  process_file depth (base ++ folder :: rest, base, dry, mb, filter) w
  = let p := base ++ folder :: rest in
    let g := normalize_genre folder in
    if negb (truthy (Some g)) then (Ok (path_str p, msg_genre_not_found), w)
    else if truthy filter
            && negb (contains (lower g) (lower (default [] filter)))
    then (Ok (path_str p, msg_skipped_filter), w)
    else
      let '(r, w') := set_genre_tag depth p g dry mb w in
      match r with
      | Ok true => (Ok (path_str p, msg_genre_set g), w')
      | Ok false => (Ok (path_str p, msg_already_or_failed), w')
      | Raise e => (Raise e, w')
      end.
Proof.
  unfold process_file. unfold bind at 1.
  rewrite get_genre_from_path_below. cbv zeta.
  destruct (negb (truthy (Some (normalize_genre folder)))); [reflexivity|].
  change (default [] (Some (normalize_genre folder)))
    with (normalize_genre folder).
  destruct (truthy filter && _); [reflexivity|].
  unfold bind.
  destruct (set_genre_tag depth (base ++ folder :: rest)
              (normalize_genre folder) dry mb w) as [[[|]|e] w']; reflexivity.
Qed.

(** X8: a file whose first folder below the base has an empty or
    whitespace-only name is reported as [Genre not found]; it is not opened
    and the world is left as it is. *)
Theorem blank_folder_has_no_genre (depth : nat) (base : Path) (folder : str)
    (rest : Path) (dry_run make_backup : bool) (filter : option str)
    (w : world) :
  forallb is_space folder = true ->
  process_file depth
    (base ++ folder :: rest, base, dry_run, make_backup, filter) w
    = (Ok (path_str (base ++ folder :: rest), msg_genre_not_found), w).
Proof.
  intros H. apply normalize_genre_empty_iff in H.
  rewrite process_file_below. cbv zeta. rewrite H. reflexivity.
Qed.

Lemma blank_folder_has_no_genre_witness :
  let p := music_root ++ [lit "  "; lit "track.flac"] in
  let w := one_file_world p (plain_file (Tagged [])) in
  forallb is_space (lit "  ") = true /\
  process_file 3 (p, music_root, false, true, None) w
    = (Ok (path_str p, msg_genre_not_found), w).
Proof.
  intros p w. split; [reflexivity|].
  apply (blank_folder_has_no_genre 3 music_root (lit "  ") [lit "track.flac"]
           false true None w).
  reflexivity.
Defined.

(** X9: with a genre filter that is not contained, ignoring case, in the
    file's genre, the worker reports [Skipped (genre filter)] and leaves
    the world as it is: the file is not opened and nothing is logged. *)
Theorem filtered_file_is_not_touched (depth : nat) (base : Path)
    (folder : str) (rest : Path) (dry_run make_backup : bool) (f : str)
    (w : world) :
  normalize_genre folder <> [] -> f <> [] ->
  contains (lower (normalize_genre folder)) (lower f) = false ->
  process_file depth
    (base ++ folder :: rest, base, dry_run, make_backup, Some f) w
    = (Ok (path_str (base ++ folder :: rest), msg_skipped_filter), w).
Proof.
  intros Hg Hf Hc. rewrite process_file_below. cbv zeta.
  destruct (normalize_genre folder) as [|c g] eqn:E; [congruence|].
  destruct f as [|c' f]; [congruence|].
  simpl truthy. simpl negb at 1. cbv iota.
  change (default [] (Some (c' :: f))) with (c' :: f).
  rewrite Hc. reflexivity.
Qed.

Lemma filtered_file_is_not_touched_witness :
  let w := one_file_world track_flac (plain_file (Tagged [])) in
  (normalize_genre (lit "Rock - Goth") <> [] /\ lit "JAZZ" <> [] /\
   contains (lower (normalize_genre (lit "Rock - Goth"))) (lower (lit "JAZZ"))
     = false) /\
  process_file 3 (track_flac, music_root, false, true, Some (lit "JAZZ")) w
    = (Ok (path_str track_flac, msg_skipped_filter), w).
Proof.
  intros w. split; [repeat split; discriminate || reflexivity|].
  apply (filtered_file_is_not_touched 3 music_root (lit "Rock - Goth")
           [lit "Joy Division"; lit "track.flac"] false true (lit "JAZZ") w);
    first [discriminate | reflexivity].
Defined.

(** ** More on the update of one file *)

(** X10: when an update outside dry-run returns [True], the file's
    extension has a handler whose container takes the genre (its tags are
    not an ID3 tag), and the file, which can be read, stores exactly the
    genre as text under the handler's tag key.  A container opened on the
    file afterwards presents what its class makes of that text: the genre
    itself, except that [EasyID3] presents the genre frame through
    [TCON.genres]. *)
Theorem update_true_means_tag_written (depth : nat) (p : Path) (g : str)
    (make_backup : bool) (w w1 : world) :
  set_genre_tag depth p g false make_backup w = (Ok true, w1) ->
  exists cls key getter setter f t,
    handler_lookup (lower (path_suffix p)) FORMAT_HANDLERS
      = Some (cls, key, getter, setter) /\
    id3_backed cls = false /\
    w_fs w1 !! path_str p = Some f /\ f_readable f = true /\
    f_body f = Tagged t /\ tag_lookup key t = Some [g] /\
    audio_get (mkAudio cls (path_str p) (Some t)) key
      = List.map Some (presented cls key [g]) /\
    (cls <> EasyID3 -> presented cls key [g] = [g]).
Proof.
  intros H. apply set_genre_tag_success in H
    as (cls & key & getter & setter & Hh & Hid & f & t & Hf & Hr & Hb & Ht).
  exists cls, key, getter, setter, f, t.
  repeat split; try assumption.
  - unfold audio_get. simpl. rewrite Ht. reflexivity.
  - intros Hc. destruct cls; first [reflexivity | contradiction].
Qed.

Lemma update_true_means_tag_written_witness :
  let g := lit "Rock - Goth" in
  let w := one_file_world track_mp3 (plain_file Untagged) in
  let w1 := snd (set_genre_tag 3 track_mp3 g false true w) in
  set_genre_tag 3 track_mp3 g false true w = (Ok true, w1) /\
  exists cls key getter setter f t,
    handler_lookup (lower (path_suffix track_mp3)) FORMAT_HANDLERS
      = Some (cls, key, getter, setter) /\
    id3_backed cls = false /\
    w_fs w1 !! path_str track_mp3 = Some f /\ f_readable f = true /\
    f_body f = Tagged t /\ tag_lookup key t = Some [g] /\
    audio_get (mkAudio cls (path_str track_mp3) (Some t)) key
      = List.map Some (presented cls key [g]) /\
    (cls <> EasyID3 -> presented cls key [g] = [g]).
Proof.
  intros g w w1.
  assert (H : set_genre_tag 3 track_mp3 g false true w = (Ok true, w1))
    by (vm_compute; reflexivity).
  split; [exact H|].
  exact (update_true_means_tag_written 3 track_mp3 g true w w1 H).
Defined.

(** X11: an update, in any mode, changes no file other than the file itself
    and its backup path; it neither removes nor creates the file itself, and
    it leaves a backup that exists as it is. *)
Theorem update_touches_only_file_and_backup :
  forall (depth : nat) (p : Path) (g : str) (dry_run make_backup : bool)
         (w : world),
    let w' := snd (set_genre_tag depth p g dry_run make_backup w) in
    (forall k, k <> path_str p -> k <> backup_path p ->
               w_fs w' !! k = w_fs w !! k) /\
    (is_Some (w_fs w' !! path_str p) <-> is_Some (w_fs w !! path_str p)) /\
    (forall d, w_fs w !! backup_path p = Some d ->
               w_fs w' !! backup_path p = Some d).
Proof. intros depth p g dry mb w. apply update_frame_set_genre_tag. Qed.

(** Without [make_backup] the backup path is left alone. *)

Section NoBackup.

Variable p : Path.

Lemma keeps_backup_path_same_fs (w w' : world) :
  w_fs w' = w_fs w -> keeps_backup_path p w w'.
Proof. unfold keeps_backup_path. intros ->. reflexivity. Qed.

Lemma keeps_backup_path_trans (w1 w2 w3 : world) :
  keeps_backup_path p w1 w2 -> keeps_backup_path p w2 w3 ->
  keeps_backup_path p w1 w3.
Proof. unfold keeps_backup_path. congruence. Qed.

Lemma keeps_backup_path_save (a : audio) (w : world) :
  a_filename a = path_str p -> keeps_backup_path p w (snd (save a w)).
Proof.
  intros Hn. unfold save.
  destruct (a_tags a) as [t|]; [|reflexivity]. rewrite Hn.
  destruct (w_fs w !! path_str p) as [f|]; [|reflexivity].
  destruct (f_writable f); simpl; [|reflexivity].
  destruct (f_io_error f); [reflexivity|].
  unfold keeps_backup_path. simpl.
  apply lookup_insert_ne, not_eq_sym, backup_path_ne.
Qed.

Lemma keeps_backup_path_open_container (ext : str) (cls : AudioClass)
    (dry : bool) (w w' : world) (r : result (flow audio)) :
  open_container ext cls p dry w = (r, w') -> keeps_backup_path p w w'.
Proof.
  assert (Hdirect : forall w0 w1 r0,
    (a <- open_audio cls (path_str p) ;; ret (Continue a)) w0 = (r0, w1) ->
    w1 = w0).
  { intros w0 w1 r0. unfold bind.
    pose proof (open_audio_world cls (path_str p) w0) as Hw.
    destruct (open_audio cls (path_str p) w0) as [[a|e] w2];
      simpl in Hw; subst w2; intros [= _ <-]; reflexivity. }
  unfold open_container. destruct (str_eqb ext (lit ".mp3")).
  2:{ intros H. apply Hdirect in H as ->. reflexivity. }
  unfold try_except.
  destruct ((a <- open_audio cls (path_str p) ;; ret (Continue a)) w)
    as [[s|e] w1] eqn:Ho; apply Hdirect in Ho as ->.
  - intros [= _ <-]. reflexivity.
  - destruct dry; [intros [= _ <-]; reflexivity|].
    unfold bind at 1.
    pose proof (open_audio_world MP3 (path_str p) w) as Hw.
    destruct (open_audio MP3 (path_str p) w) as [[a1|e1] w2] eqn:Ho1;
      simpl in Hw; subst w2; [|intros [= _ <-]; reflexivity].
    apply open_audio_Ok in Ho1 as (_ & Hn1 & _).
    unfold bind at 1. unfold add_tags.
    destruct (a_tags a1); [intros [= _ <-]; reflexivity|].
    unfold ret at 1. unfold bind at 1.
    match goal with |- context [save ?a2 w] =>
      pose proof (keeps_backup_path_save a2 w Hn1) as F2;
      destruct (save a2 w) as [[[]|e3] w4] end;
      simpl in F2; [|intros [= _ <-]; exact F2].
    intros H. apply Hdirect in H as ->. exact F2.
Qed.

Lemma keeps_backup_path_compare (a : audio) (key : str) (getter : getter_t)
    (setter : setter_t) (g : str) (dry : bool) (w : world) :
  a_filename a = path_str p ->
  keeps_backup_path p w
    (snd (compare_and_write a key getter setter p g dry false w)).
Proof.
  intros Hn. unfold compare_and_write. unfold bind at 1.
  pose proof (read_current_world a key getter w) as Hw.
  destruct (read_current a key getter w) as [[cur|e] w0]; simpl in Hw;
    subst w0; [|reflexivity].
  destruct (genre_eqb cur g); [reflexivity|].
  destruct dry; [reflexivity|].
  unfold bind at 1. unfold ret at 1. unfold bind at 1.
  destruct (has_tags a).
  - unfold tags_setitem. destruct (a_tags a); [|reflexivity].
    destruct (id3_backed (a_class a)); [reflexivity|].
    unfold ret at 1. unfold bind.
    match goal with |- context [save ?a' w] =>
      pose proof (keeps_backup_path_save a' w Hn) as F;
      destruct (save a' w) as [[[]|e] w3] end; exact F.
  - unfold setitem, ret at 1. unfold bind.
    match goal with |- context [save ?a' w] =>
      pose proof (keeps_backup_path_save a' w Hn) as F;
      destruct (save a' w) as [[[]|e] w3] end; exact F.
Qed.

Lemma keeps_backup_path_attempt (ext : str) (h : handler) (g : str)
    (dry : bool) (w : world) :
  keeps_backup_path p w (snd (attempt ext h p g dry false w)).
Proof.
  destruct h as [[[cls key] getter] setter]. unfold attempt. unfold bind at 1.
  destruct (open_container ext cls p dry w) as [r w1] eqn:Ho.
  pose proof (keeps_backup_path_open_container _ _ _ _ _ _ Ho) as F1.
  apply footprint_open_container in Ho as [_ Hn].
  destruct r as [[b|a]|e]; simpl; try exact F1.
  eapply keeps_backup_path_trans; [exact F1|].
  apply keeps_backup_path_compare, Hn. reflexivity.
Qed.

Lemma keeps_backup_path_chmod (mode : N) (w : world) :
  keeps_backup_path p w (snd (os_chmod (path_str p) mode w)).
Proof.
  unfold os_chmod, bind, emit. simpl.
  destruct (w_fs w !! path_str p) as [f|]; [|reflexivity].
  destruct (f_chmod f); try reflexivity.
  unfold keeps_backup_path. simpl.
  apply lookup_insert_ne, not_eq_sym, backup_path_ne.
Qed.

Lemma keeps_backup_path_set_genre_tag (depth : nat) (g : str) (dry : bool)
    (w : world) :
  keeps_backup_path p w (snd (set_genre_tag depth p g dry false w)).
Proof.
  revert w. induction depth as [|depth IH]; intros w;
    rewrite set_genre_tag_eq;
    (destruct (handler_lookup _ _) as [h|];
     [| unfold bind; destruct (str_in _ _); reflexivity ]);
    unfold try_except at 1;
    pose proof (keeps_backup_path_attempt (lower (path_suffix p)) h g dry w)
      as F;
    (destruct (attempt _ h p g dry false w) as [[b|e] w1]; simpl in F;
     [exact F|]);
    (destruct (is_PermissionError e); [|exact F]);
    (destruct dry; [exact F|]);
    unfold try_except; unfold bind at 1;
    pose proof (keeps_backup_path_chmod 436 w1) as C;
    (destruct (os_chmod (path_str p) 436 w1) as [[[]|e'] w2]; simpl in C;
     [| eapply keeps_backup_path_trans; [exact F | exact C] ]).
  - eapply keeps_backup_path_trans; [exact F | exact C].
  - pose proof (IH w2) as R.
    destruct (set_genre_tag depth p g false false w2) as [[b|e'] w3];
      simpl in R;
      (eapply keeps_backup_path_trans; [exact F|];
       eapply keeps_backup_path_trans; [exact C | exact R]).
Qed.

End NoBackup.

(** X12: without [make_backup] an update creates no file and removes none:
    the backup path is left as it is, and the same paths exist before and
    after. *)
Theorem update_without_backup_creates_no_file :
  forall (depth : nat) (p : Path) (g : str) (dry_run : bool) (w : world),
    let w' := snd (set_genre_tag depth p g dry_run false w) in
    w_fs w' !! backup_path p = w_fs w !! backup_path p /\
    forall k, is_Some (w_fs w' !! k) <-> is_Some (w_fs w !! k).
Proof.
  intros depth p g dry w w'.
  pose proof (keeps_backup_path_set_genre_tag p depth g dry w) as B.
  pose proof (update_frame_set_genre_tag p depth g dry false w) as (O & S1 & _).
  fold w' in B, O, S1. split; [exact B|]. intros k.
  destruct (decide (k = path_str p)) as [->|Hp]; [exact S1|].
  destruct (decide (k = backup_path p)) as [->|Hb]; [rewrite B; tauto|].
  rewrite O by assumption. tauto.
Qed.

(** ** Dry run against the real run *)

Lemma attempt_dry_predicts (ext : str) (h : handler) (p : Path) (g : str)
    (mb mb' : bool) (w w' : world) (r : result bool) :
  attempt ext h p g true mb w = (r, w') -> r <> Ok true ->
  attempt ext h p g false mb' w = (r, w').
Proof.
  destruct h as [[[cls key] getter] setter].
  assert (Hcmp : forall a w0,
    compare_and_write a key getter setter p g true mb w0 = (r, w') ->
    r <> Ok true ->
    compare_and_write a key getter setter p g false mb' w0 = (r, w')).
  { intros a w0 H Hne. unfold compare_and_write in *.
    unfold bind at 1 in H. unfold bind at 1.
    destruct (read_current a key getter w0) as [[cur|e] w1]; [|exact H].
    destruct (genre_eqb cur g); [exact H|].
    unfold bind, logging, ret in H. injection H as <- _. congruence. }
  intros H Hne. unfold attempt in *.
  unfold bind at 1 in H. unfold bind at 1. unfold open_container in *.
  destruct (str_eqb ext (lit ".mp3")).
  - unfold try_except in *. unfold bind at 1 in H. unfold bind at 1.
    destruct (open_audio cls (path_str p) w) as [[a|e] w1].
    + unfold ret at 1 in H. unfold ret at 1. apply Hcmp; assumption.
    + unfold ret in H. injection H as <- _. congruence.
  - unfold bind at 1 in H. unfold bind at 1.
    destruct (open_audio cls (path_str p) w) as [[a|e] w1]; [|exact H].
    unfold ret at 1 in H. unfold ret at 1. apply Hcmp; assumption.
Qed.

Lemma set_genre_tag_dry_predicts (depth depth' : nat) (p : Path) (g : str)
    (mb mb' : bool) (w w' : world) :
  set_genre_tag depth p g true mb w = (Ok false, w') ->
  set_genre_tag depth' p g false mb' w = (Ok false, w').
Proof.
  intros H.
  rewrite (set_genre_tag_eq depth) in H. rewrite (set_genre_tag_eq depth').
  destruct (handler_lookup _ _) as [h|]; [|exact H].
  unfold try_except at 1 in H. unfold try_except at 1.
  destruct (attempt _ h p g true mb w) as [r w1] eqn:Ha.
  destruct r as [[|]|e].
  - discriminate H.
  - rewrite (attempt_dry_predicts _ _ _ _ _ mb' _ _ _ Ha) by discriminate.
    exact H.
  - rewrite (attempt_dry_predicts _ _ _ _ _ mb' _ _ _ Ha) by discriminate.
    destruct (is_PermissionError e); [|exact H].
    unfold bind, logging, ret in H. discriminate H.
Qed.

(** X13: a dry run that returns [False] predicts the real run exactly: with
    any [make_backup] the real run returns [False] too and ends in the same
    world, with the same log.  So an update that is made for real is never
    one the dry run would have passed over. *)
Theorem dry_run_false_is_accurate (depth : nat) (p : Path) (g : str)
    (make_backup : bool) (w w' : world) :
  set_genre_tag depth p g true make_backup w = (Ok false, w') ->
  forall (depth' : nat) (make_backup' : bool),
    set_genre_tag depth' p g false make_backup' w = (Ok false, w').
Proof.
  intros H depth' mb'. eapply set_genre_tag_dry_predicts, H.
Qed.

Lemma dry_run_false_is_accurate_witness :
  let g := lit "Rock - Goth" in
  let w := one_file_world track_flac (plain_file (Tagged (genre_tags "Rock - Goth"))) in
  set_genre_tag 0 track_flac g true false w = (Ok false, w) /\
  forall (depth' : nat) (make_backup' : bool),
    set_genre_tag depth' track_flac g false make_backup' w = (Ok false, w).
Proof.
  intros g w.
  assert (H : set_genre_tag 0 track_flac g true false w = (Ok false, w))
    by (vm_compute; reflexivity).
  split; [exact H|].
  exact (dry_run_false_is_accurate 0 track_flac g false w w H).
Defined.

Lemma set_genre_tag_chmods :
  forall (depth : nat) (p : Path) (g : str) (dry_run make_backup : bool)
         (w : world),
  exists n : nat,
    w_trace (snd (set_genre_tag depth p g dry_run make_backup w))
      = w_trace w ++ repeat (Chmod (path_str p) 436) n /\
    (n <= S depth)%nat /\
    (dry_run = true -> n = 0%nat).
Proof.
  intros depth p g dry mb.
  induction depth as [|depth IH]; intros w;
    rewrite set_genre_tag_eq;
    (destruct (handler_lookup _ _) as [h|];
     [| exists 0%nat; unfold bind; destruct (str_in _ _); simpl;
        rewrite app_nil_r; repeat split; lia ]);
    unfold try_except at 1;
    pose proof (footprint_attempt p (lower (path_suffix p)) h g dry mb w)
      as (F & _);
    (destruct (attempt _ h p g dry mb w) as [[b|e] w1]; simpl in F;
     [exists 0%nat; simpl; rewrite F, app_nil_r; repeat split; lia|]);
    (destruct (is_PermissionError e);
     [|exists 0%nat; simpl; rewrite F, app_nil_r; repeat split; lia]);
    (destruct dry;
     [exists 0%nat; simpl; rewrite F, app_nil_r; repeat split; lia|]);
    unfold try_except; unfold bind at 1;
    pose proof (os_chmod_trace (path_str p) 436 w1) as C; rewrite F in C;
    (destruct (os_chmod (path_str p) 436 w1) as [[[]|e'] w2]; simpl in C;
     [| exists 1%nat; simpl; rewrite C; repeat split;
        first [lia | discriminate] ]).
  - exists 1%nat. simpl. rewrite C. repeat split; first [lia | discriminate].
  - destruct (IH w2) as (n & T & Hn & _).
    exists (S n).
    destruct (set_genre_tag depth p g false mb w2) as [[b|e'] w3];
      simpl in T; simpl; rewrite T, C, <- app_assoc;
      (repeat split; first [lia | discriminate]).
Qed.

(** X14: the only permission change an update makes is [chmod 0o664] on the
    file itself: the trace grows by such events only, by at most one more
    than the nesting allowed, and by none in a dry run. *)
Theorem update_chmod_discipline :
  forall (depth : nat) (p : Path) (g : str) (dry_run make_backup : bool)
         (w : world),
  exists n : nat,
    w_trace (snd (set_genre_tag depth p g dry_run make_backup w))
      = w_trace w ++ repeat (Chmod (path_str p) 436) n /\
    (n <= S depth)%nat /\
    (dry_run = true -> n = 0%nat).
Proof. exact set_genre_tag_chmods. Qed.

(** X15: an [.mp3] file that cannot be opened, neither through [EasyID3]
    nor as [MP3]: the dry run returns [True] and logs nothing, while the
    real run returns [False] and logs the error. *)
Theorem dry_run_overreports_unopenable_mp3 (depth : nat) (p : Path) (g : str)
    (make_backup : bool) (w : world) (e : exn) (s : string) :
  lower (path_suffix p) = lit ".mp3" ->
  fst (open_audio EasyID3 (path_str p) w) = Raise e ->
  fst (open_audio MP3 (path_str p) w) = Raise (OtherError s) ->
  set_genre_tag depth p g true make_backup w = (Ok true, w) /\
  set_genre_tag depth p g false make_backup w
    = (Ok false, logged DebugTraceback (logged (ErrorUpdating p (OtherError s)) w)).
Proof.
  intros Hext H1 H2.
  assert (Hh : handler_lookup (lit ".mp3") FORMAT_HANDLERS
               = Some (EasyID3, lit "genre", get_same, set_same))
    by reflexivity.
  pose proof (open_audio_world EasyID3 (path_str p) w) as W1.
  pose proof (open_audio_world MP3 (path_str p) w) as W2.
  destruct (open_audio EasyID3 (path_str p) w) as [r1 w1] eqn:E1.
  destruct (open_audio MP3 (path_str p) w) as [r2 w2] eqn:E2.
  simpl in H1, H2, W1, W2. subst.
  split; rewrite set_genre_tag_eq, Hext, Hh;
    unfold try_except at 1; unfold attempt; unfold bind at 1;
    unfold open_container; rewrite str_eqb_refl;
    unfold try_except at 1; unfold bind at 1; rewrite E1.
  - reflexivity.
  - unfold bind at 1. rewrite E2. reflexivity.
Qed.

Lemma dry_run_overreports_unopenable_mp3_witness :
  let g := lit "Rock - Goth" in
  let w := one_file_world track_mp3 (plain_file Garbage) in
  set_genre_tag 3 track_mp3 g true true w = (Ok true, w) /\
  set_genre_tag 3 track_mp3 g false true w
    = (Ok false,
       logged DebugTraceback
         (logged (ErrorUpdating track_mp3 (OtherError "HeaderNotFoundError")) w)).
Proof.
  intros g w.
  apply (dry_run_overreports_unopenable_mp3 3 track_mp3 g true w
           (OtherError "HeaderNotFoundError") "HeaderNotFoundError");
    reflexivity.
Defined.

(** ** The worker on a file that needs its genre *)


(** X16: the worker on a file below [base] that can be read and written,
    whose container takes the genre (its tags are not an ID3 tag) and does
    not present the genre of the folder yet, with no filter and no backup:
    the outcome is the message [Genre set to '<genre>'] and a world in which
    only this file changed: it stores exactly the genre under the handler's
    key, keeps its other tags and attributes, carries the time of the write,
    and nothing is logged. *)
Theorem worker_writes_folder_genre (depth : nat) (base : Path) (folder : str)
    (rest : Path) (w : world) (cls : AudioClass) (key : str)
    (getter : getter_t) (setter : setter_t) (f : file) (t : tagmap) :
  let p := base ++ folder :: rest in
  let g := normalize_genre folder in
  handler_lookup (lower (path_suffix p)) FORMAT_HANDLERS
    = Some (cls, key, getter, setter) ->
  id3_backed cls = false ->
  w_fs w !! path_str p = Some f ->
  f_readable f = true -> f_writable f = true -> f_io_error f = false ->
  f_body f = Tagged t -> genre_differs cls key g t ->
  g <> [] ->
  process_file depth (p, base, false, false, None) w
    = (Ok (path_str p, msg_genre_set g),
       mkWorld
         (<[path_str p :=
              mkFile true true (f_mode f) (f_chmod f) false
                (f_dir_writable f) (f_copy_failure f) (w_clock w)
                (Tagged (tag_store key [g] t))]>
            (w_fs w))
         (w_clock w + 1) (w_log w) (w_trace w)).
Proof.
  intros p g Hh Hid Hf Hr Hw Hio Hb Hdiff Hg.
  assert (Ht : truthy (Some g) = true)
    by (destruct g; [congruence | reflexivity]).
  unfold p. rewrite process_file_below. cbv zeta. fold p. fold g.
  rewrite Ht. change (truthy None) with false. cbn [negb andb].
  rewrite (set_genre_tag_writes depth p g w cls key getter setter f t)
    by assumption.
  reflexivity.
Qed.

Lemma worker_writes_folder_genre_witness :
  let f := plain_file (Tagged (genre_tags "Pop")) in
  let w := one_file_world track_flac f in
  process_file 1 (track_flac, music_root, false, false, None) w
    = (Ok (path_str track_flac, msg_genre_set (lit "Rock - Goth")),
       mkWorld
         (<[path_str track_flac :=
              mkFile true true 420 ChmodApplies false true CopyRefused 10
                (Tagged (genre_tags "Rock - Goth"))]> (w_fs w))
         11 [] []).
Proof.
  intros f w.
  apply (worker_writes_folder_genre 1 music_root (lit "Rock - Goth")
           [lit "Joy Division"; lit "track.flac"] w FLAC (lit "genre")
           get_same set_list f (genre_tags "Pop"));
    first [reflexivity | vm_compute; discriminate].
Defined.

(** ** Finding the audio files *)

(** Induction on a directory tree. *)
Lemma dir_tree_ind (P : dir -> Prop) :
  (forall filenames subdirs,
      Forall (fun sub => P (snd sub)) subdirs -> P (Dir filenames subdirs)) ->
  forall d, P d.
Proof.
  intros H. fix IH 1. intros [filenames subdirs]. apply H.
  induction subdirs as [|[name sub] subdirs IHs]; constructor;
    [apply IH | exact IHs].
Qed.

Lemma os_walk_below (tree : dir) :
  forall root x, In x (os_walk root tree) -> exists q, x.1.1 = root ++ q.
Proof.
  induction tree as [filenames subdirs IH] using dir_tree_ind.
  intros root x. cbn [os_walk]. intros [<-|H].
  - exists []. simpl. rewrite app_nil_r. reflexivity.
  - apply in_flat_map in H as ([name sub] & Hin & Hx).
    rewrite List.Forall_forall in IH.
    destruct (IH _ Hin _ _ Hx) as (q & ->).
    exists (name :: q). simpl. rewrite <- app_assoc. reflexivity.
Qed.

Lemma find_audio_files_In (root : Path) (tree : dir) (p : Path) :
  In p (find_audio_files root tree) ->
  exists q fname,
    p = root ++ q ++ [fname] /\
    str_in (lower (splitext_ext fname)) AUDIO_EXTS = true.
Proof.
  unfold find_audio_files. intros H.
  apply in_flat_map in H as ([[dirpath dirnames] filenames] & Hw & H).
  apply in_flat_map in H as (fname & _ & H).
  destruct (os_walk_below tree root _ Hw) as (q & Hq). simpl in Hq. subst.
  destruct (str_in (lower (splitext_ext fname)) AUDIO_EXTS) eqn:E;
    [|destruct H].
  destruct H as [<-|[]]. exists q, fname.
  rewrite <- app_assoc. split; [reflexivity | exact E].
Qed.

Lemma rfind_drop (c : char) (s : str) (i : nat) :
  rfind c s = Some i -> exists rest, drop i s = c :: rest.
Proof.
  revert i. induction s as [|x r IH]; intros i; simpl; [discriminate|].
  destruct (rfind c r) as [j|].
  - intros [= <-]. simpl. apply IH. reflexivity.
  - destruct (N.eqb_spec x c); [|discriminate].
    intros [= <-]. subst. exists r. reflexivity.
Qed.

(** For a name that [find_audio_files] lets through, [os.path.splitext]
    and [Path.suffix] give the same extension. *)
Lemma splitext_suffix (pre : Path) (fname : str) :
  str_in (lower (splitext_ext fname)) AUDIO_EXTS = true ->
  path_suffix (pre ++ [fname]) = splitext_ext fname.
Proof.
  unfold path_suffix, path_name. rewrite last_last. unfold splitext_ext.
  destruct (rfind 46 fname) as [d|] eqn:Hd; [|discriminate].
  match goal with |- context [(?st <=? d)%nat && ?ex] =>
    destruct ((st <=? d)%nat && ex) eqn:Hc; [|discriminate];
    assert (Hpos : (0 < d)%nat)
      by (apply andb_true_iff in Hc as [_ Hex];
          destruct (d - st)%nat eqn:Hds; [discriminate Hex | lia]) end.
  intros Hin.
  destruct (rfind_drop _ _ _ Hd) as (rest & Hrest).
  assert (Hlen : (d < length fname - 1)%nat).
  { pose proof (length_drop fname d) as L. rewrite Hrest in L. simpl in L.
    destruct rest as [|c rest]; [|simpl in L; lia].
    rewrite Hrest in Hin. discriminate Hin. }
  apply Nat.ltb_lt in Hpos, Hlen. rewrite Hpos, Hlen. reflexivity.
Qed.

Lemma handler_lookup_key (ext : str) (table : list (str * handler))
    (h : handler) :
  handler_lookup ext table = Some h -> In ext (List.map fst table).
Proof.
  induction table as [|[k h'] table IH]; simpl; [discriminate|].
  destruct (str_eqb ext k) eqn:E; [|auto].
  intros _. left. symmetry. apply str_eqb_eq, E.
Qed.

Lemma str_in_true (x : str) (xs : list str) :
  str_in x xs = true -> In x xs.
Proof.
  unfold str_in. intros H. apply existsb_exists in H as (k & Hin & E).
  apply str_eqb_eq in E. subst. exact Hin.
Qed.

Lemma handled_is_audio_ext (ext : str) (h : handler) :
  handler_lookup ext FORMAT_HANDLERS = Some h ->
  str_in ext AUDIO_EXTS = true.
Proof.
  intros H. apply handler_lookup_key in H.
  assert (F : forallb (fun k => str_in k AUDIO_EXTS)
                (List.map fst FORMAT_HANDLERS) = true)
    by (vm_compute; reflexivity).
  rewrite forallb_forall in F. apply F, H.
Qed.

Lemma unhandled_audio_ext (ext : str) :
  str_in ext AUDIO_EXTS = true ->
  handler_lookup ext FORMAT_HANDLERS = None ->
  str_in ext [lit ".au"; lit ".acm"] = true.
Proof.
  intros H. apply str_in_true in H.
  assert (F : forallb
                (fun k =>
                   match handler_lookup k FORMAT_HANDLERS with
                   | None => str_in k [lit ".au"; lit ".acm"]
                   | Some _ => true
                   end) AUDIO_EXTS = true)
    by (vm_compute; reflexivity).
  rewrite forallb_forall in F. specialize (F _ H).
  intros Hn. rewrite Hn in F. exact F.
Qed.

(** X17: the two format tables agree: every extension with a handler is an
    extension that [find_audio_files] looks for, and the extensions looked
    for that have no handler are exactly [.au] and [.acm]. *)
Theorem format_tables_agree :
  forall ext : str,
    (is_Some (handler_lookup ext FORMAT_HANDLERS) ->
     str_in ext AUDIO_EXTS = true) /\
    (str_in ext AUDIO_EXTS = true ->
     (handler_lookup ext FORMAT_HANDLERS = None <->
      str_in ext [lit ".au"; lit ".acm"] = true)).
Proof.
  intros ext. split.
  - intros [h H]. eapply handled_is_audio_ext, H.
  - intros Ha. split; [apply unhandled_audio_ext, Ha|].
    intros H. apply str_in_true in H.
    destruct H as [<-|[<-|[]]]; reflexivity.
Qed.

(** X18: every path that [find_audio_files] yields lies below the root, and
    the extension that [set_genre_tag] computes for it is the one the search
    let through: it is in [AUDIO_EXTS], so the update either finds a handler
    or stops with the warning for [.au] and [.acm]; the warning for an
    unknown file type is never reached. *)
Theorem found_files_have_known_format (root : Path) (tree : dir) (p : Path) :
  In p (find_audio_files root tree) ->
  (exists folder rest, p = root ++ folder :: rest) /\
  lower (path_suffix p) = lower (splitext_ext (path_name p)) /\
  str_in (lower (path_suffix p)) AUDIO_EXTS = true /\
  forall (depth : nat) (g : str) (dry_run make_backup : bool) (w : world),
    is_Some (handler_lookup (lower (path_suffix p)) FORMAT_HANDLERS) \/
    set_genre_tag depth p g dry_run make_backup w
      = (Ok false, logged (WarnFormatUnsupported (lower (path_suffix p)) p) w).
Proof.
  intros H. apply find_audio_files_In in H as (q & fname & -> & Hext).
  assert (Hs : path_suffix (root ++ q ++ [fname]) = splitext_ext fname)
    by (rewrite app_assoc; apply splitext_suffix, Hext).
  assert (Hn : path_name (root ++ q ++ [fname]) = fname)
    by (unfold path_name; rewrite app_assoc; apply last_last).
  split.
  { destruct q as [|folder rest]; [exists fname, [] | exists folder, (rest ++ [fname])];
      reflexivity. }
  rewrite Hs, Hn. split; [reflexivity|]. split; [exact Hext|].
  intros depth g dry mb w. rewrite set_genre_tag_eq, Hs.
  destruct (handler_lookup _ _) as [h|] eqn:Hh; [left; eexists; reflexivity|].
  right. rewrite (unhandled_audio_ext _ Hext Hh). reflexivity.
Qed.

Lemma found_files_have_known_format_witness :
  let tree :=
    Dir [lit "cover.jpg"]
      [(lit "Rock - Goth",
        Dir [] [(lit "Joy Division",
                 Dir [lit "track.FLAC"; lit ".mp3"; lit "notes.txt"] [])])] in
  let p := music_root ++ [lit "Rock - Goth"; lit "Joy Division"; lit "track.FLAC"] in
  find_audio_files music_root tree = [p] /\
  (exists folder rest, p = music_root ++ folder :: rest) /\
  lower (path_suffix p) = lower (splitext_ext (path_name p)) /\
  str_in (lower (path_suffix p)) AUDIO_EXTS = true /\
  forall (depth : nat) (g : str) (dry_run make_backup : bool) (w : world),
    is_Some (handler_lookup (lower (path_suffix p)) FORMAT_HANDLERS) \/
    set_genre_tag depth p g dry_run make_backup w
      = (Ok false, logged (WarnFormatUnsupported (lower (path_suffix p)) p) w).
Proof.
  intros tree p. split; [vm_compute; reflexivity|].
  apply (found_files_have_known_format music_root tree p).
  left. reflexivity.
Defined.

(** X19: genre resolution cannot fail for the arguments collected by
    scanning a base folder: each path is below the base, so the genre is the
    normalised first component below it, found without an error and without
    a log entry.  For a file that lies in the base folder itself that
    component is the file's own name. *)
Theorem scanned_files_resolve_genre (base : Path) (tree : dir)
    (dry_run backup : bool) (genre : option str) (args : worker_args) :
  In args (scan_folder base tree dry_run backup genre) ->
  exists folder rest,
    args = (base ++ folder :: rest, base, dry_run, backup, genre) /\
    (rest = [] -> folder = path_name (args_path args)) /\
    forall w, get_genre_from_path (args_path args) base w
              = (Ok (Some (normalize_genre folder)), w).
Proof.
  unfold scan_folder. intros H. apply in_map_iff in H as (p & <- & H).
  apply find_audio_files_In in H as (q & fname & -> & _).
  assert (E : exists folder rest,
             q ++ [fname] = folder :: rest /\
             (rest = [] -> folder = fname)).
  { destruct q as [|folder rest].
    - exists fname, []. split; [reflexivity | auto].
    - exists folder, (rest ++ [fname]). split; [reflexivity|].
      intros Hr. destruct rest; discriminate Hr. }
  destruct E as (folder & rest & E & Hlast). rewrite E.
  exists folder, rest. split; [reflexivity|]. split.
  - intros Hr. cbn [args_path]. unfold path_name.
    rewrite <- E, app_assoc, last_last. apply Hlast, Hr.
  - intros w. cbn [args_path]. apply get_genre_from_path_below.
Qed.

Lemma scanned_files_resolve_genre_witness :
  let tree := Dir [lit "loose.mp3"] [] in
  let args := (music_root ++ [lit "loose.mp3"], music_root, false, false,
               @None str) in
  scan_folder music_root tree false false None = [args] /\
  exists folder rest,
    args = (music_root ++ folder :: rest, music_root, false, false, None) /\
    (rest = [] -> folder = path_name (args_path args)) /\
    forall w, get_genre_from_path (args_path args) music_root w
              = (Ok (Some (normalize_genre folder)), w).
Proof.
  intros tree args. split; [vm_compute; reflexivity|].
  apply (scanned_files_resolve_genre music_root tree false false None args).
  left. reflexivity.
Defined.

(** ** Reporting the results *)

Lemma starts_with_app (a b : str) : starts_with (a ++ b) a = true.
Proof.
  induction a as [|x a IH]; [destruct b; reflexivity|].
  simpl. rewrite N.eqb_refl. exact IH.
Qed.

Lemma contains_prefix (a b : str) : contains (a ++ b) a = true.
Proof.
  destruct a as [|x a]; [destruct b; reflexivity|].
  change (contains ((x :: a) ++ b) (x :: a))
    with (starts_with ((x :: a) ++ b) (x :: a) || contains (a ++ b) (x :: a)).
  rewrite starts_with_app. reflexivity.
Qed.

Lemma msg_genre_set_contains (g : str) :
  contains (msg_genre_set g) (lit "Genre set to") = true.
Proof.
  unfold msg_genre_set.
  change (lit "Genre set to '") with (lit "Genre set to" ++ lit " '").
  rewrite <- app_assoc. apply contains_prefix.
Qed.

(** X20: the level at which each outcome of the worker is logged: an
    update, whatever the genre, at info; [Already correct or failed] and
    [Skipped (genre filter)] at debug; [Genre not found] at warning.  Each
    result gives one log entry. *)
Theorem report_levels :
  forall (tqdm_available : bool) (fpath g : str) (w : world),
    let log_of msg := w_log (snd (report_result tqdm_available (fpath, msg) w)) in
    log_of (msg_genre_set g) = w_log w ++ [InfoResult fpath (msg_genre_set g)] /\
    log_of msg_already_or_failed
      = w_log w ++ [DebugResult fpath msg_already_or_failed] /\
    log_of msg_skipped_filter
      = w_log w ++ [DebugResult fpath msg_skipped_filter] /\
    log_of msg_genre_not_found
      = w_log w ++ [WarnResult fpath msg_genre_not_found].
Proof.
  intros tqdm fpath g w log_of. unfold log_of, report_result.
  split.
  - rewrite msg_genre_set_contains. destruct tqdm; reflexivity.
  - destruct tqdm; repeat split; reflexivity.
Qed.

(** ** The scheduler on sizes that are not counts *)

(** X21: a batch size that is not positive processes no file: with 0 the
    scheduler raises [ValueError], with a negative size it returns as if all
    were done; either way only the opening log entry is added, no pool is
    opened and no file is touched. *)
Theorem invalid_batch_size_processes_nothing (depth : nat)
    (tqdm_available : bool) (files : list worker_args)
    (batch_size num_workers : Z) (w : world) :
  (batch_size <= 0)%Z ->
  process_files_in_batches depth tqdm_available files batch_size num_workers w
    = (if (batch_size =? 0)%Z then Raise (OtherError "ValueError") else Ok tt,
       logged (InfoProcessing (length files) batch_size) w).
Proof.
  intros Hb. destruct (Z.eqb_spec batch_size 0) as [->|Hne].
  - apply batch_size_zero_raises.
  - apply batch_size_negative_skips. lia.
Qed.

Lemma invalid_batch_size_processes_nothing_witness :
  let files := [(track_flac, music_root, false, false, @None str)] in
  process_files_in_batches 1 true files (-5) 4 three_file_world
    = (Ok tt, logged (InfoProcessing 1 (-5)) three_file_world).
Proof.
  intros files.
  apply (invalid_batch_size_processes_nothing 1 true files (-5) 4
           three_file_world).
  lia.
Defined.

Lemma too_few_workers_raises (depth : nat) (tqdm : bool)
    (files : list worker_args) (bs nw : Z) (w : world) :
  (0 < bs)%Z -> files <> [] -> (nw < 1)%Z ->
  process_files_in_batches depth tqdm files bs nw w
    = (Raise (OtherError "ValueError"),
       logged (InfoProcessing (length files) bs) w).
Proof.
  intros Hb Hf Hnw. unfold process_files_in_batches. unfold bind at 1.
  unfold logging at 1. rewrite py_range_pos by exact Hb.
  assert (Hn : exists k, Z.to_nat ((Z.of_nat (length files) + bs - 1) / bs)
                         = S k).
  { assert (1 <= (Z.of_nat (length files) + bs - 1) / bs)%Z.
    { apply Z.div_le_lower_bound; [lia|].
      destruct files; [congruence|]. simpl length. lia. }
    exists (Z.to_nat ((Z.of_nat (length files) + bs - 1) / bs) - 1)%nat. lia. }
  destruct Hn as (k & ->). cbn [seq List.map for_each].
  unfold bind at 1. cbv beta zeta. unfold with_pool.
  destruct (Z.ltb_spec nw 1); [|lia]. reflexivity.
Qed.

(** X22: the worker count that [main] computes from [--cpu-limit] never
    exceeds the CPUs, and is a valid pool size exactly when the limit is
    absent or not negative (0 counts as absent); with a negative limit and
    at least one file the scheduler raises [ValueError] when it opens its
    first pool, before any file is processed. *)
Theorem cpu_limit_decides_pool (cpu_limit : option Z) (available_cpus : Z) :
  (1 <= available_cpus)%Z ->
  (num_workers cpu_limit available_cpus <= available_cpus)%Z /\
  ((1 <= num_workers cpu_limit available_cpus)%Z <->
   match cpu_limit with Some n => (0 <= n)%Z | None => True end) /\
  (forall n, cpu_limit = Some n -> (0 < n)%Z ->
             (num_workers cpu_limit available_cpus <= n)%Z) /\
  forall (depth : nat) (tqdm_available : bool) (files : list worker_args)
         (batch_size : Z) (w : world),
    (num_workers cpu_limit available_cpus < 1)%Z ->
    (0 < batch_size)%Z -> files <> [] ->
    process_files_in_batches depth tqdm_available files batch_size
      (num_workers cpu_limit available_cpus) w
    = (Raise (OtherError "ValueError"),
       logged (InfoProcessing (length files) batch_size) w).
Proof.
  intros Hc. split; [|split; [|split]].
  - destruct cpu_limit as [n|]; simpl; [|lia].
    destruct (Z.eqb_spec n 0); lia.
  - destruct cpu_limit as [n|]; simpl; [|tauto].
    destruct (Z.eqb_spec n 0); lia.
  - intros n -> Hn. simpl. destruct (Z.eqb_spec n 0); lia.
  - intros depth tqdm files bs w Hnw Hb Hf.
    apply too_few_workers_raises; assumption.
Qed.

Lemma cpu_limit_decides_pool_witness :
  (num_workers (Some (-1)%Z) 8 <= 8)%Z /\
  ((1 <= num_workers (Some (-1)%Z) 8)%Z <-> (0 <= -1)%Z) /\
  (forall n, Some (-1)%Z = Some n -> (0 < n)%Z ->
             (num_workers (Some (-1)%Z) 8 <= n)%Z) /\
  forall (depth : nat) (tqdm_available : bool) (files : list worker_args)
         (batch_size : Z) (w : world),
    (num_workers (Some (-1)%Z) 8 < 1)%Z ->
    (0 < batch_size)%Z -> files <> [] ->
    process_files_in_batches depth tqdm_available files batch_size
      (num_workers (Some (-1)%Z) 8) w
    = (Raise (OtherError "ValueError"),
       logged (InfoProcessing (length files) batch_size) w).
Proof.
  apply (cpu_limit_decides_pool (Some (-1)%Z) 8). lia.
Defined.

(** ** The progress bar *)

Lemma progress_events_app (a b : list event) :
  progress_events (a ++ b) = progress_events a ++ progress_events b.
Proof. apply List.filter_app. Qed.

Lemma progress_events_chmods (p : str) (mode : N) (n : nat) :
  progress_events (repeat (Chmod p mode) n) = [].
Proof. induction n as [|n IH]; [reflexivity | exact IH]. Qed.

Lemma set_genre_tag_progress (depth : nat) (p : Path) (g : str)
    (dry mb : bool) (w : world) :
  progress_events (w_trace (snd (set_genre_tag depth p g dry mb w)))
    = progress_events (w_trace w).
Proof.
  destruct (set_genre_tag_chmods depth p g dry mb w) as (n & -> & _).
  rewrite progress_events_app, progress_events_chmods. apply app_nil_r.
Qed.

Lemma process_file_progress (depth : nat) (args : worker_args) (w : world) :
  progress_events (w_trace (snd (process_file depth args w)))
    = progress_events (w_trace w).
Proof.
  destruct args as [[[[p base] dry] mb] filter]. unfold process_file.
  unfold bind at 1.
  pose proof (get_genre_from_path_trace p base w) as G.
  destruct (get_genre_from_path p base w) as [[genre|e] w1]; simpl in G;
    [|simpl; rewrite G; reflexivity].
  destruct (negb (truthy genre)); [simpl; rewrite G; reflexivity|].
  destruct (truthy filter && _); [simpl; rewrite G; reflexivity|].
  unfold bind.
  pose proof (set_genre_tag_progress depth p (default [] genre) dry mb w1)
    as S1.
  destruct (set_genre_tag depth p (default [] genre) dry mb w1)
    as [[[|]|e] w2]; simpl in S1 |- *; rewrite S1, G; reflexivity.
Qed.

Lemma run_worker_progress (depth : nat) (args : worker_args) (w : world) :
  progress_events (w_trace (snd (run_worker depth args w)))
    = progress_events (w_trace w).
Proof.
  unfold run_worker, bind, emit.
  match goal with |- context [process_file depth args ?w1] =>
    pose proof (process_file_progress depth args w1) as P;
    destruct (process_file depth args w1) as [[r|e] w2] end;
    simpl in P |- *; rewrite P, progress_events_app; apply app_nil_r.
Qed.

Lemma pool_map_progress (depth : nat) (batch : list worker_args) (w : world) :
  progress_events (w_trace (snd (pool_map (run_worker depth) batch w)))
    = progress_events (w_trace w).
Proof.
  revert w. induction batch as [|a batch IH]; intros w; simpl; [reflexivity|].
  unfold bind.
  pose proof (run_worker_progress depth a w) as R.
  destruct (run_worker depth a w) as [[r|e] w1]; simpl in R; [|exact R].
  specialize (IH w1).
  destruct (pool_map (run_worker depth) batch w1) as [[rs|e] w2];
    simpl in IH |- *; congruence.
Qed.

Lemma report_results_progress (tqdm : bool) (rs : list (str * str))
    (w : world) :
  exists w', for_each rs (report_result tqdm) w = (Ok tt, w') /\
             progress_events (w_trace w')
             = progress_events (w_trace w) ++ bar_steps tqdm (length rs).
Proof.
  revert w. induction rs as [|[fpath result] rs IH]; intros w.
  - exists w. split; [reflexivity|].
    destruct tqdm; simpl; rewrite app_nil_r; reflexivity.
  - cbn [for_each]. unfold bind at 1.
    assert (R : exists w1,
               report_result tqdm (fpath, result) w = (Ok tt, w1) /\
               progress_events (w_trace w1)
               = progress_events (w_trace w) ++ bar_steps tqdm 1).
    { unfold report_result, bind.
      destruct (contains result (lit "Genre set to")),
        (contains result (lit "Already correct")),
        (contains result (lit "Skipped")), tqdm;
        eexists; (split; [reflexivity|]); simpl;
        rewrite ?progress_events_app, ?app_nil_r; reflexivity. }
    destruct R as (w1 & -> & R1). destruct (IH w1) as (w2 & -> & R2).
    exists w2. split; [reflexivity|]. rewrite R2, R1, <- app_assoc.
    destruct tqdm; reflexivity.
Qed.

Lemma bar_steps_add (tqdm : bool) (a b : nat) :
  bar_steps tqdm a ++ bar_steps tqdm b = bar_steps tqdm (a + b).
Proof.
  destruct tqdm; simpl; [|reflexivity]. symmetry. apply repeat_app.
Qed.

Lemma batch_progress (depth : nat) (tqdm : bool) (nw : Z)
    (batch : list worker_args) (w : world) :
  (1 <= nw)%Z ->
  exists w',
    with_pool nw
      (results <- pool_map (run_worker depth) batch ;;
       for_each results (report_result tqdm)) w = (Ok tt, w') /\
    progress_events (w_trace w')
      = progress_events (w_trace w) ++ bar_steps tqdm (length batch).
Proof.
  intros Hnw. unfold with_pool.
  destruct (Z.ltb_spec nw 1); [lia|].
  unfold bind at 1. unfold emit at 1. unfold bind.
  set (w0 := mkWorld _ _ _ (w_trace w ++ [PoolOpen nw])).
  pose proof (pool_map_progress depth batch w0) as P.
  destruct (pool_map_returns depth batch w0) as (rs & w1 & E & _).
  pose proof (pool_map_length depth batch w0 w1 rs E) as L.
  rewrite E in *. simpl in P.
  destruct (report_results_progress tqdm rs w1) as (w2 & -> & R).
  eexists. split; [reflexivity|]. simpl.
  rewrite progress_events_app, R, P, L. unfold w0. simpl.
  rewrite progress_events_app. simpl. rewrite !app_nil_r. reflexivity.
Qed.

Lemma batches_progress (depth : nat) (tqdm : bool) (nw : Z)
    (files : list worker_args) (bs : Z) (starts : list Z) (w : world) :
  (1 <= nw)%Z ->
  exists w',
    for_each starts
      (fun i =>
         let batch := py_slice files i (i + bs) in
         with_pool nw
           (results <- pool_map (run_worker depth) batch ;;
            for_each results (report_result tqdm))) w = (Ok tt, w') /\
    progress_events (w_trace w')
      = progress_events (w_trace w)
          ++ bar_steps tqdm
               (length (concat (List.map (fun i => py_slice files i (i + bs))
                                  starts))).
Proof.
  intros Hnw. revert w. induction starts as [|i starts IH]; intros w.
  - exists w. split; [reflexivity|].
    destruct tqdm; simpl; rewrite app_nil_r; reflexivity.
  - destruct (batch_progress depth tqdm nw (py_slice files i (i + bs)) w Hnw)
      as (w1 & E1 & S1).
    destruct (IH w1) as (w2 & E2 & S2). exists w2.
    split.
    + cbn [for_each]. unfold bind at 1. cbv beta zeta. rewrite E1. exact E2.
    + cbn [List.map concat]. rewrite S2, S1, <- app_assoc, bar_steps_add.
      rewrite length_app. reflexivity.
Qed.

(** X23: with a batch size of at least one and a pool of at least one
    worker, the progress bar is advanced once for every file of the list,
    over all batches together, when [tqdm] is available, and never
    otherwise. *)
Theorem progress_bar_counts_files (depth : nat) (tqdm_available : bool)
    (files : list worker_args) (batch_size num_workers : Z) (w : world) :
  (0 < batch_size)%Z -> (1 <= num_workers)%Z ->
  progress_events
    (w_trace (snd (process_files_in_batches depth tqdm_available files
                     batch_size num_workers w)))
  = progress_events (w_trace w)
      ++ (if tqdm_available then repeat Progress (length files) else []).
Proof.
  intros Hb Hnw.
  unfold process_files_in_batches. unfold bind at 1. simpl.
  rewrite py_range_pos by exact Hb.
  match goal with |- context [for_each ?starts ?body ?w0] =>
    destruct (batches_progress depth tqdm_available num_workers files
                batch_size starts w0 Hnw) as (w' & E & S1);
    assert (E' : for_each starts body w0 = (Ok tt, w')) by exact E;
    rewrite E' end.
  cbn [snd]. rewrite S1. cbn [w_trace]. f_equal.
  pose proof (batches_concat files batch_size Hb) as Hc.
  unfold batches in Hc. rewrite py_range_pos in Hc by exact Hb.
  rewrite Hc. reflexivity.
Qed.

Lemma progress_bar_counts_files_witness :
  let files :=
    [ (track_flac, music_root, false, false, @None str);
      (track_bad, music_root, false, false, @None str);
      (track_mp3, music_root, false, false, @None str) ] in
  progress_events
    (w_trace (snd (process_files_in_batches 1 true files 2 4
                     three_file_world)))
  = progress_events (w_trace three_file_world) ++ repeat Progress 3.
Proof.
  intros files.
  apply (progress_bar_counts_files 1 true files 2 4 three_file_world); lia.
Defined.

(** ** Containers that keep their tags in an ID3 tag *)

Lemma set_genre_tag_frame_refused (depth : nat) (p : Path) (g : str)
    (w : world) (cls : AudioClass) (key : str) (getter : getter_t)
    (setter : setter_t) (f : file) (t : tagmap) :
  handler_lookup (lower (path_suffix p)) FORMAT_HANDLERS
    = Some (cls, key, getter, setter) ->
  id3_backed cls = true ->
  w_fs w !! path_str p = Some f -> f_readable f = true ->
  f_body f = Tagged t -> genre_differs cls key g t ->
  set_genre_tag depth p g false false w
  = (Ok false,
     logged DebugTraceback
       (logged (ErrorUpdating p (OtherError "TypeError")) w)).
Proof.
  intros Hh Hid Hf Hr Hb Hdiff.
  rewrite (set_genre_tag_after_attempt depth p g false false w _ Hh).
  destruct (handler_shape _ _ _ _ _ Hh) as [-> Hst].
  unfold attempt. unfold bind at 1.
  rewrite (open_container_tagged _ cls p false w f t Hf Hr Hb).
  unfold compare_and_write. unfold bind at 1.
  destruct (read_current_differs cls (path_str p) key g t w Hdiff)
    as (cur & -> & ->).
  unfold bind at 1. unfold ret at 1. unfold bind at 1.
  assert (Ht : has_tags (mkAudio cls (path_str p) (Some t)) = true)
    by (destruct cls; try discriminate Hid; reflexivity).
  rewrite Ht. unfold tags_setitem. simpl. rewrite Hid. reflexivity.
Qed.

(** X24: the formats whose container keeps its tags in an ID3 tag -
    [.tta], [.aiff], [.aif], [.wav], [.dsf] and [.dff] - are never
    updated.  For a file of such a format that can be read and does not
    present the genre yet, a dry run announces the update and returns
    [True]; the real run fails where the genre is assigned, since an ID3
    tag takes frames only: it logs the error, returns [False], with or
    without backup, and without backup changes no file. *)
Theorem id3_tagged_formats_are_never_updated (depth : nat) (p : Path)
    (g : str) (make_backup : bool) (w : world) (cls : AudioClass)
    (key : str) (getter : getter_t) (setter : setter_t) (f : file)
    (t : tagmap) :
  handler_lookup (lower (path_suffix p)) FORMAT_HANDLERS
    = Some (cls, key, getter, setter) ->
  id3_backed cls = true ->
  w_fs w !! path_str p = Some f -> f_readable f = true ->
  f_body f = Tagged t -> genre_differs cls key g t ->
  List.map fst
    (List.filter (fun e => id3_backed (fst (fst (fst (snd e)))))
       FORMAT_HANDLERS)
    = List.map lit [".tta"; ".aiff"; ".aif"; ".wav"; ".dsf"; ".dff"]%string /\
  (exists cur,
     set_genre_tag depth p g true make_backup w
     = (Ok true, logged (InfoWouldUpdate p cur g) w)) /\
  fst (set_genre_tag depth p g false make_backup w) = Ok false /\
  set_genre_tag depth p g false false w
  = (Ok false,
     logged DebugTraceback
       (logged (ErrorUpdating p (OtherError "TypeError")) w)).
Proof.
  intros Hh Hid Hf Hr Hb Hdiff.
  split; [vm_compute; reflexivity|].
  split; [eapply set_genre_tag_would_update; eassumption|].
  split.
  - rewrite (set_genre_tag_write_outcome depth p g make_backup w cls key
               getter setter f t Hh Hf Hr Hb Hdiff), Hid. reflexivity.
  - eapply set_genre_tag_frame_refused; eassumption.
Qed.

Lemma id3_tagged_formats_are_never_updated_witness :
  let p := in_genre_folder "Rock - Goth" "track.wav" in
  let g := lit "Rock - Goth" in
  let w := one_file_world p (plain_file (Tagged [(lit "TCON", [lit "Pop"])])) in
  (exists cur,
     set_genre_tag 3 p g true true w
     = (Ok true, logged (InfoWouldUpdate p cur g) w)) /\
  fst (set_genre_tag 3 p g false true w) = Ok false /\
  set_genre_tag 3 p g false false w
  = (Ok false,
     logged DebugTraceback
       (logged (ErrorUpdating p (OtherError "TypeError")) w)).
Proof.
  intros p g w.
  refine (proj2 (id3_tagged_formats_are_never_updated 3 p g true w WAVE
                   (lit "TCON") get_same set_list
                   (plain_file (Tagged [(lit "TCON", [lit "Pop"])]))
                   [(lit "TCON", [lit "Pop"])] _ _ _ _ _ _)).
  - vm_compute. reflexivity.
  - reflexivity.
  - vm_compute. reflexivity.
  - reflexivity.
  - reflexivity.
  - vm_compute. discriminate.
Defined.
